(** * The transaction coordinator of the memory marketplace

    A shallow embedding of
    [decentralized-memory-marketplace/utils/transaction_coordinator.py]:
    the data classes [TransactionStep] and [Transaction], the ready-set
    computation, the execution loop of [process_transaction], cancellation,
    the status query and the JSON snapshot written by
    [_save_transaction_data] and read back by [_load_transaction_data].

    Python objects that are mutated in place and shared (a transaction is
    referenced from the active dictionary or the history list and, at the
    same time, from the local variable of the task that drives it) live in
    a heap of transactions addressed by position.  Python [float]s are the
    kernel's binary64 floats.  Clock readings ([datetime.now]), the hex
    digits drawn by [uuid4] and what a step handler returns or raises are
    inputs supplied by the environment; the agents that
    [simulate_step_execution] stands in for are one such handler.  The
    file system is taken to accept what is written to it: a save fails
    only when [json.dump] raises on a value it cannot encode. *)

From Stdlib Require Import List String Ascii Bool Arith ZArith Lia.
From Stdlib Require Import PrimFloat Uint63 DecimalString Permutation Relations.
From Stdlib Require Import SpecFloat FloatOps.
Import ListNotations.
Open Scope string_scope.
Open Scope list_scope.

Set Implicit Arguments.
Set Warnings "-register-all,-inexact-float".

(** ** Python values *)

(** The values found in the fields typed [Any]: the values a JSON
    document can hold and, as [PObject], any other Python object, an
    exception instance for one, named by its [repr]; [json.dump] raises
    on such an object. *)
Inductive PyVal : Type :=
| PNone
| PBool (b : bool)
| PInt (z : Z)
| PFloat (f : float)
| PStr (s : string)
| PList (l : list PyVal)
| PDict (d : list (string * PyVal))
| PObject (repr : string).

(** A Python [dict] with string keys: an association list in insertion
    order whose keys are pairwise distinct. *)
Definition dict (V : Type) : Type := list (string * V).

Section Dict.
Variable V : Type.

Fixpoint dict_get (k : string) (d : dict V) : option V :=
  match d with
  | [] => None
  | (k', v) :: d' => if String.eqb k k' then Some v else dict_get k d'
  end.

Definition dict_mem (k : string) (d : dict V) : bool :=
  match dict_get k d with Some _ => true | None => false end.

(** [d[k] = v]: an existing key keeps its place, a new key goes last. *)
Fixpoint dict_set (k : string) (v : V) (d : dict V) : dict V :=
  match d with
  | [] => [(k, v)]
  | (k', v') :: d' =>
      if String.eqb k k' then (k, v) :: d' else (k', v') :: dict_set k v d'
  end.

(** [del d[k]] for a key that is present. *)
Fixpoint dict_del (k : string) (d : dict V) : dict V :=
  match d with
  | [] => []
  | (k', v') :: d' =>
      if String.eqb k k' then d' else (k', v') :: dict_del k d'
  end.

Definition dict_keys (d : dict V) : list string := map fst d.
Definition dict_values (d : dict V) : list V := map snd d.
End Dict.

(** ** Enumerations *)

Inductive TransactionStatus : Set :=
| PENDING | APPROVED | EXECUTING | COMPLETED | FAILED | CANCELLED.

Inductive TransactionType : Set :=
| NFT_PURCHASE | NFT_LISTING | NFT_TRANSFER | BATCH_OPERATION | ESCROW_RELEASE.

Definition status_eqb (a b : TransactionStatus) : bool :=
  match a, b with
  | PENDING, PENDING | APPROVED, APPROVED | EXECUTING, EXECUTING
  | COMPLETED, COMPLETED | FAILED, FAILED | CANCELLED, CANCELLED => true
  | _, _ => false
  end.

(** The [.value] of each member. *)
Definition status_value (s : TransactionStatus) : string :=
  match s with
  | PENDING => "pending"
  | APPROVED => "approved"
  | EXECUTING => "executing"
  | COMPLETED => "completed"
  | FAILED => "failed"
  | CANCELLED => "cancelled"
  end.

Definition type_value (t : TransactionType) : string :=
  match t with
  | NFT_PURCHASE => "nft_purchase"
  | NFT_LISTING => "nft_listing"
  | NFT_TRANSFER => "nft_transfer"
  | BATCH_OPERATION => "batch_operation"
  | ESCROW_RELEASE => "escrow_release"
  end.

(** [TransactionStatus(v)] and [TransactionType(v)]: the member with that
    value, [None] standing for the [ValueError] raised otherwise. *)
Definition status_of_value (v : string) : option TransactionStatus :=
  if String.eqb v "pending" then Some PENDING
  else if String.eqb v "approved" then Some APPROVED
  else if String.eqb v "executing" then Some EXECUTING
  else if String.eqb v "completed" then Some COMPLETED
  else if String.eqb v "failed" then Some FAILED
  else if String.eqb v "cancelled" then Some CANCELLED
  else None.

Definition type_of_value (v : string) : option TransactionType :=
  if String.eqb v "nft_purchase" then Some NFT_PURCHASE
  else if String.eqb v "nft_listing" then Some NFT_LISTING
  else if String.eqb v "nft_transfer" then Some NFT_TRANSFER
  else if String.eqb v "batch_operation" then Some BATCH_OPERATION
  else if String.eqb v "escrow_release" then Some ESCROW_RELEASE
  else None.

(** ** The data classes *)

(** A value of a step's [parameters].  [initiate_nft_listing] stores the
    caller's [metadata] object itself under the key ["metadata"] of its
    third step; when that object is also the transaction's [metadata]
    (it is, for a non-empty dictionary) the two are one object, which
    [SharedMetadata] stands for. *)
Inductive Param : Type :=
| Own (v : PyVal)
| SharedMetadata.

Record TransactionStep : Type := mkStep {
  step_id : string;
  agent_address : string;
  action : string;
  parameters : dict Param;
  status : TransactionStatus;
  result : option PyVal;
  error_message : option string;
  timestamp : option string;
  dependencies : list string
}.

Record Transaction : Type := mkTransaction {
  transaction_id : string;
  transaction_type : TransactionType;
  initiator_address : string;
  participants : list string;
  steps : list TransactionStep;
  tx_status : TransactionStatus;
  total_value : float;
  fees : dict float;
  metadata : dict PyVal;
  created_at : string;
  updated_at : string;
  completed_at : option string
}.

(** Attribute assignments. *)
Definition set_tx_status (v : TransactionStatus) (tx : Transaction) : Transaction :=
  mkTransaction (transaction_id tx) (transaction_type tx) (initiator_address tx)
    (participants tx) (steps tx) v (total_value tx) (fees tx) (metadata tx)
    (created_at tx) (updated_at tx) (completed_at tx).

Definition set_updated_at (v : string) (tx : Transaction) : Transaction :=
  mkTransaction (transaction_id tx) (transaction_type tx) (initiator_address tx)
    (participants tx) (steps tx) (tx_status tx) (total_value tx) (fees tx)
    (metadata tx) (created_at tx) v (completed_at tx).

Definition set_completed_at (v : option string) (tx : Transaction) : Transaction :=
  mkTransaction (transaction_id tx) (transaction_type tx) (initiator_address tx)
    (participants tx) (steps tx) (tx_status tx) (total_value tx) (fees tx)
    (metadata tx) (created_at tx) (updated_at tx) v.

Definition set_metadata (v : dict PyVal) (tx : Transaction) : Transaction :=
  mkTransaction (transaction_id tx) (transaction_type tx) (initiator_address tx)
    (participants tx) (steps tx) (tx_status tx) (total_value tx) (fees tx)
    v (created_at tx) (updated_at tx) (completed_at tx).

Definition set_steps (v : list TransactionStep) (tx : Transaction) : Transaction :=
  mkTransaction (transaction_id tx) (transaction_type tx) (initiator_address tx)
    (participants tx) v (tx_status tx) (total_value tx) (fees tx)
    (metadata tx) (created_at tx) (updated_at tx) (completed_at tx).

(** ** The ready set *)

Definition has_status (v : TransactionStatus) (s : TransactionStep) : bool :=
  status_eqb (status s) v.

(** [{step.step_id for step in self.steps if step.status == COMPLETED}] *)
Definition completed_step_ids (tx : Transaction) : list string :=
  map step_id (filter (has_status COMPLETED) (steps tx)).

Definition mem_string (x : string) (l : list string) : bool :=
  existsb (String.eqb x) l.

(** The test of the loop of [get_next_pending_steps]. *)
Definition is_ready (done : list string) (s : TransactionStep) : bool :=
  has_status PENDING s && forallb (fun dep_id => mem_string dep_id done) (dependencies s).

Definition get_next_pending_steps (tx : Transaction) : list TransactionStep :=
  filter (is_ready (completed_step_ids tx)) (steps tx).

(** The ready steps are objects of [self.steps]; which ones is recorded by
    a mask over the positions of that list. *)
Definition ready_mask (tx : Transaction) : list bool :=
  map (is_ready (completed_step_ids tx)) (steps tx).

(** ** Executing a batch of steps *)

(** What [asyncio.gather(..., return_exceptions=True)] yields for one
    step, as far as the loop over the results tells the cases apart:
    - [Returned r at_time]: the handler returned the dictionary [r];
    - [Raised message]: it raised an instance of [Exception], whose
      [str] is [message];
    - [Escaped exception at_time]: it raised an exception that is no
      instance of [Exception], [asyncio.CancelledError] for one; [gather]
      hands the exception object back like any result.
    [at_time] is the clock reading taken when the result is recorded.
    [KeyboardInterrupt] and [SystemExit] are not outcomes: they end the
    event loop. *)
Inductive Outcome : Type :=
| Returned (r : dict PyVal) (at_time : string)
| Raised (message : string)
| Escaped (exception : string) (at_time : string).

(** The body of the loop over [zip(steps, results)]: a result that
    passes [isinstance(result, Exception)] fails the step, any other
    result, an exception object of another kind included, completes it
    and is stored in [result]. *)
Definition record_outcome (s : TransactionStep) (o : Outcome) : TransactionStep :=
  match o with
  | Raised msg =>
      mkStep (step_id s) (agent_address s) (action s) (parameters s)
        FAILED (result s) (Some msg) (timestamp s) (dependencies s)
  | Returned r t =>
      mkStep (step_id s) (agent_address s) (action s) (parameters s)
        COMPLETED (Some (PDict r)) (error_message s) (Some t) (dependencies s)
  | Escaped e t =>
      mkStep (step_id s) (agent_address s) (action s) (parameters s)
        COMPLETED (Some (PObject e)) (error_message s) (Some t) (dependencies s)
  end.

(** The steps after the batch selected by [ready] has been awaited and
    recorded; [run] gives the outcome of each step of the batch. *)
Fixpoint record_results (run : TransactionStep -> Outcome)
    (ss : list TransactionStep) (ready : list bool) : list TransactionStep :=
  match ss, ready with
  | s :: ss', b :: ready' =>
      (if b then record_outcome s (run s) else s) :: record_results run ss' ready'
  | _, _ => ss
  end.

Definition execute_transaction_steps (run : TransactionStep -> Outcome)
    (tx : Transaction) (ready : list bool) : Transaction :=
  set_steps (record_results run (steps tx) ready) tx.

(** ** The execution loop *)

(** Where one pass of [while transaction.status == EXECUTING] leads, up to
    its first [await] or to the end of the loop. *)
Inductive LoopHead : Type :=
| Exit                          (* the loop condition is false *)
| Terminal (tx' : Transaction)  (* a final status was set, then [break] *)
| Wait                          (* [await asyncio.sleep(1)], then [continue] *)
| Launch (ready : list bool).   (* [await execute_transaction_steps(...)] *)

Definition loop_head (now : string) (tx : Transaction) : LoopHead :=
  if status_eqb (tx_status tx) EXECUTING then
    match get_next_pending_steps tx with
    | [] =>
        let completed_steps := filter (has_status COMPLETED) (steps tx) in
        let failed_steps := filter (has_status FAILED) (steps tx) in
        match failed_steps with
        | _ :: _ => Terminal (set_tx_status FAILED tx)
        | [] =>
            if Nat.eqb (List.length completed_steps) (List.length (steps tx))
            then Terminal (set_completed_at (Some now) (set_tx_status COMPLETED tx))
            else Wait
        end
    | _ :: _ => Launch (ready_mask tx)
    end
  else Exit.

(** After the batch: its results are recorded and [updated_at] stamped. *)
Definition after_batch (run : TransactionStep -> Outcome) (now : string)
    (tx : Transaction) (ready : list bool) : Transaction :=
  set_updated_at now (execute_transaction_steps run tx ready).

(** One pass of the loop when nothing else runs in between. *)
Definition loop_iteration (run : TransactionStep -> Outcome) (now : string)
    (tx : Transaction) : Transaction :=
  match loop_head now tx with
  | Exit => tx
  | Terminal tx' => tx'
  | Wait => tx
  | Launch ready => after_batch run now tx ready
  end.

(** The first statements of [process_transaction] on a transaction found
    in the active set. *)
Definition begin_processing (now : string) (tx : Transaction) : Transaction :=
  set_updated_at now (set_tx_status EXECUTING tx).

(** The transaction after [n] passes of the loop, the [k]-th pass reading
    the clock as [clock k]. *)
Fixpoint run_loop (run : TransactionStep -> Outcome) (clock : nat -> string)
    (k n : nat) (tx : Transaction) : Transaction :=
  match n with
  | O => tx
  | S n' => run_loop run clock (S k) n' (loop_iteration run (clock k) tx)
  end.

(** ** The purchase and listing plans *)

Definition step_name (transaction_id : string) (n : string) : string :=
  transaction_id ++ "_step_" ++ n.

(** The list [steps] built by [initiate_nft_purchase]. *)
Definition purchase_steps (transaction_id buyer_address seller_address
    nft_token_id : string) (purchase_price : float) : list TransactionStep :=
  [ mkStep (step_name transaction_id "1") "memory_appraiser" "verify_valuation"
      [ ("nft_token_id", Own (PStr nft_token_id));
        ("offered_price", Own (PFloat purchase_price));
        ("market_validation", Own (PBool true)) ]
      PENDING None None None [];
    mkStep (step_name transaction_id "2") "authenticity_validator" "verify_authenticity"
      [ ("nft_token_id", Own (PStr nft_token_id));
        ("seller_address", Own (PStr seller_address));
        ("comprehensive_check", Own (PBool true)) ]
      PENDING None None None [];
    mkStep (step_name transaction_id "3") "trading_legacy_agent" "setup_escrow"
      [ ("buyer_address", Own (PStr buyer_address));
        ("seller_address", Own (PStr seller_address));
        ("amount", Own (PFloat purchase_price));
        ("nft_token_id", Own (PStr nft_token_id)) ]
      PENDING None None None
      [ step_name transaction_id "1"; step_name transaction_id "2" ];
    mkStep (step_name transaction_id "4") "trading_legacy_agent" "execute_transfer"
      [ ("from_address", Own (PStr seller_address));
        ("to_address", Own (PStr buyer_address));
        ("nft_token_id", Own (PStr nft_token_id));
        ("payment_amount", Own (PFloat purchase_price)) ]
      PENDING None None None
      [ step_name transaction_id "3" ];
    mkStep (step_name transaction_id "5") "marketplace_coordinator" "finalize_transaction"
      [ ("transaction_id", Own (PStr transaction_id));
        ("update_market_data", Own (PBool true));
        ("notify_participants", Own (PBool true)) ]
      PENDING None None None
      [ step_name transaction_id "4" ] ].

(** [metadata or {}]: the caller's dictionary itself when it is not
    empty, a new empty dictionary otherwise.  A transaction created with
    a non-empty dictionary holds an object that its caller holds too, and
    any other transaction created with the same object.  The content of
    the dictionary is kept with the transaction: what is written through
    the transaction, by [cancel_transaction], is followed; what another
    holder writes to the same object is not, and the statements about the
    states the coordinator reaches leave the content of [metadata]
    out. *)
Definition metadata_or_empty (metadata : option (dict PyVal)) : dict PyVal :=
  match metadata with
  | Some (e :: d) => e :: d
  | _ => []
  end.

(** The [Transaction] object built by [initiate_nft_purchase]. *)
Definition new_purchase (transaction_id current_time buyer_address
    seller_address nft_token_id : string) (purchase_price : float)
    (metadata : option (dict PyVal)) : Transaction :=
  mkTransaction transaction_id NFT_PURCHASE buyer_address
    [ buyer_address; seller_address; "memory_appraiser";
      "authenticity_validator"; "trading_legacy_agent"; "marketplace_coordinator" ]
    (purchase_steps transaction_id buyer_address seller_address nft_token_id
       purchase_price)
    PENDING purchase_price
    [ ("marketplace_fee", PrimFloat.mul purchase_price 0.025%float);
      ("gas_fee", 15%float);
      ("validation_fee", 5%float) ]
    (metadata_or_empty metadata) current_time current_time None.

(** The value stored under ["metadata"] in the third listing step: the
    argument itself, which is the transaction's metadata object exactly
    when [metadata or {}] evaluates to it. *)
Definition metadata_argument (metadata : option (dict PyVal)) : Param :=
  match metadata with
  | None => Own PNone
  | Some [] => Own (PDict [])
  | Some (_ :: _) => SharedMetadata
  end.

(** The list [steps] built by [initiate_nft_listing]; the first two steps
    leave [dependencies] to [__post_init__], which makes it [[]]. *)
Definition listing_steps (transaction_id seller_address nft_token_id : string)
    (asking_price : float) (metadata : option (dict PyVal)) : list TransactionStep :=
  [ mkStep (step_name transaction_id "1") "authenticity_validator" "verify_ownership"
      [ ("nft_token_id", Own (PStr nft_token_id));
        ("claimed_owner", Own (PStr seller_address)) ]
      PENDING None None None [];
    mkStep (step_name transaction_id "2") "memory_appraiser" "market_valuation"
      [ ("nft_token_id", Own (PStr nft_token_id));
        ("asking_price", Own (PFloat asking_price));
        ("provide_pricing_recommendation", Own (PBool true)) ]
      PENDING None None None [];
    mkStep (step_name transaction_id "3") "marketplace_coordinator" "create_listing"
      [ ("seller_address", Own (PStr seller_address));
        ("nft_token_id", Own (PStr nft_token_id));
        ("asking_price", Own (PFloat asking_price));
        ("metadata", metadata_argument metadata) ]
      PENDING None None None
      [ step_name transaction_id "1"; step_name transaction_id "2" ] ].

Definition new_listing (transaction_id current_time seller_address
    nft_token_id : string) (asking_price : float)
    (metadata : option (dict PyVal)) : Transaction :=
  mkTransaction transaction_id NFT_LISTING seller_address
    [ seller_address; "authenticity_validator"; "memory_appraiser";
      "marketplace_coordinator" ]
    (listing_steps transaction_id seller_address nft_token_id asking_price metadata)
    PENDING asking_price
    [ ("listing_fee", 5%float); ("validation_fee", 3%float) ]
    (metadata_or_empty metadata) current_time current_time None.

(** ** The snapshot file *)

(** One entry of ["transactions"] in [transaction_data.json]: the fields
    of [asdict(tx)] with the three enumeration fields replaced by their
    values.  [asdict] copies every dictionary, so a shared metadata object
    is written out in full where it occurs. *)
Record StepRecord : Type := mkStepRecord {
  r_step_id : string;
  r_agent_address : string;
  r_action : string;
  r_parameters : dict PyVal;
  r_status : string;
  r_result : option PyVal;
  r_error_message : option string;
  r_timestamp : option string;
  r_dependencies : list string
}.

Record TransactionRecord : Type := mkTransactionRecord {
  r_transaction_id : string;
  r_transaction_type : string;
  r_initiator_address : string;
  r_participants : list string;
  r_steps : list StepRecord;
  r_tx_status : string;
  r_total_value : float;
  r_fees : dict float;
  r_metadata : dict PyVal;
  r_created_at : string;
  r_updated_at : string;
  r_completed_at : option string
}.

(** The object a parameter denotes inside a transaction whose metadata
    is [md]. *)
Definition param_value (md : dict PyVal) (p : Param) : PyVal :=
  match p with
  | Own v => v
  | SharedMetadata => PDict md
  end.

Definition step_to_record (md : dict PyVal) (s : TransactionStep) : StepRecord :=
  mkStepRecord (step_id s) (agent_address s) (action s)
    (map (fun kv => (fst kv, param_value md (snd kv))) (parameters s))
    (status_value (status s)) (result s) (error_message s) (timestamp s)
    (dependencies s).

Definition transaction_to_record (tx : Transaction) : TransactionRecord :=
  mkTransactionRecord (transaction_id tx) (type_value (transaction_type tx))
    (initiator_address tx) (participants tx)
    (map (step_to_record (metadata tx)) (steps tx))
    (status_value (tx_status tx)) (total_value tx) (fees tx) (metadata tx)
    (created_at tx) (updated_at tx) (completed_at tx).

(** The [TransactionStep] built from [step_data] after the status string
    has been turned into a member; [None] is the [ValueError] of an unknown value. *)
Definition step_of_record (r : StepRecord) : option TransactionStep :=
  match status_of_value (r_status r) with
  | Some st =>
      Some (mkStep (r_step_id r) (r_agent_address r) (r_action r)
              (map (fun kv => (fst kv, Own (snd kv))) (r_parameters r))
              st (r_result r) (r_error_message r) (r_timestamp r)
              (r_dependencies r))
  | None => None
  end.

Fixpoint steps_of_records (rs : list StepRecord) : option (list TransactionStep) :=
  match rs with
  | [] => Some []
  | r :: rs' =>
      match step_of_record r with
      | Some s =>
          match steps_of_records rs' with
          | Some ss => Some (s :: ss)
          | None => None
          end
      | None => None
      end
  end.

Definition transaction_of_record (r : TransactionRecord) : option Transaction :=
  match type_of_value (r_transaction_type r) with
  | Some ty =>
      match status_of_value (r_tx_status r) with
      | Some st =>
          match steps_of_records (r_steps r) with
          | Some ss =>
              Some (mkTransaction (r_transaction_id r) ty (r_initiator_address r)
                      (r_participants r) ss st (r_total_value r) (r_fees r)
                      (r_metadata r) (r_created_at r) (r_updated_at r)
                      (r_completed_at r))
          | None => None
          end
      | None => None
      end
  | None => None
  end.

(** ** The coordinator *)

(** [heap] holds the [Transaction] objects; [active_transactions] and
    [transaction_history] hold references (positions in the heap);
    [data_file] is the document of [transaction_data.json]: the records
    the coordinator was started on or, after a save, the records it has
    handed to [json.dump]; [None] while there is no file.  Whether
    [json.dump] has written the document in full, and so what a later
    start reads, is told by [file_on_disk]. *)
Record Coordinator : Type := mkCoordinator {
  heap : list Transaction;
  active_transactions : dict nat;
  transaction_history : list nat;
  data_file : option (list TransactionRecord)
}.

Definition deref (c : Coordinator) (ref : nat) : option Transaction :=
  nth_error (heap c) ref.

Fixpoint update_nth (A : Type) (n : nat) (x : A) (l : list A) : list A :=
  match n, l with
  | O, _ :: l' => x :: l'
  | S n', y :: l' => y :: update_nth n' x l'
  | _, [] => []
  end.

(** The objects a list of references points to. *)
Definition objects (h : list Transaction) (refs : list nat) : list Transaction :=
  flat_map (fun ref => match nth_error h ref with Some tx => [tx] | None => [] end) refs.

Definition active_objects (c : Coordinator) : list Transaction :=
  objects (heap c) (dict_values (active_transactions c)).

Definition history_objects (c : Coordinator) : list Transaction :=
  objects (heap c) (transaction_history c).

(** [list(self.active_transactions.values()) + self.transaction_history] *)
Definition all_transactions (c : Coordinator) : list Transaction :=
  active_objects c ++ history_objects c.

(** [_save_transaction_data] up to the call of [json.dump]: the file is
    opened for writing and the records of the whole working set are
    handed over. *)
Definition _save_transaction_data (c : Coordinator) : Coordinator :=
  mkCoordinator (heap c) (active_transactions c) (transaction_history c)
    (Some (map transaction_to_record (all_transactions c))).








(** A coordinator right after the two assignments of [__init__]. *)
Definition new_coordinator (file : option (list TransactionRecord)) : Coordinator :=
  mkCoordinator [] [] [] file.

Definition is_active_status (st : TransactionStatus) : bool :=
  status_eqb st PENDING || status_eqb st EXECUTING.

(** The end of the body of the loop of [_load_transaction_data]. *)
Definition register_loaded (tx : Transaction) (c : Coordinator) : Coordinator :=
  let ref := List.length (heap c) in
  if is_active_status (tx_status tx)
  then mkCoordinator (heap c ++ [tx])
         (dict_set (transaction_id tx) ref (active_transactions c))
         (transaction_history c) (data_file c)
  else mkCoordinator (heap c ++ [tx]) (active_transactions c)
         (transaction_history c ++ [ref]) (data_file c).

(** The loop over the stored records; an unknown enumeration value raises,
    the [except] clause ends the loading and what was loaded stays. *)
Fixpoint load_records (rs : list TransactionRecord) (c : Coordinator) : Coordinator :=
  match rs with
  | [] => c
  | r :: rs' =>
      match transaction_of_record r with
      | Some tx => load_records rs' (register_loaded tx c)
      | None => c
      end
  end.

Definition _load_transaction_data (c : Coordinator) : Coordinator :=
  match data_file c with
  | Some rs => load_records rs c
  | None => c
  end.

(** [TransactionCoordinator()] over a given file. *)
Definition start_coordinator (file : option (list TransactionRecord)) : Coordinator :=
  _load_transaction_data (new_coordinator file).

(** ** The caller-facing operations *)

(** [initiate_nft_purchase] up to the creation of the processing task;
    [hex] is [uuid.uuid4().hex[:8]] and [now] the clock reading. *)
Definition initiate_nft_purchase (hex now buyer_address seller_address
    nft_token_id : string) (purchase_price : float)
    (metadata : option (dict PyVal)) (c : Coordinator) : string * Coordinator :=
  let transaction_id := ("tx_" ++ hex)%string in
  let transaction := new_purchase transaction_id now buyer_address seller_address
                       nft_token_id purchase_price metadata in
  (transaction_id,
   _save_transaction_data
     (mkCoordinator (heap c ++ [transaction])
        (dict_set transaction_id (List.length (heap c)) (active_transactions c))
        (transaction_history c) (data_file c))).

Definition initiate_nft_listing (hex now seller_address nft_token_id : string)
    (asking_price : float) (metadata : option (dict PyVal)) (c : Coordinator)
    : string * Coordinator :=
  let transaction_id := ("tx_" ++ hex)%string in
  let transaction := new_listing transaction_id now seller_address nft_token_id
                       asking_price metadata in
  (transaction_id,
   _save_transaction_data
     (mkCoordinator (heap c ++ [transaction])
        (dict_set transaction_id (List.length (heap c)) (active_transactions c))
        (transaction_history c) (data_file c))).

Definition set_heap (h : list Transaction) (c : Coordinator) : Coordinator :=
  mkCoordinator h (active_transactions c) (transaction_history c) (data_file c).

(** [self.transaction_history.append(transaction)] followed by
    [del self.active_transactions[transaction_id]], for a key that is
    present. *)
Definition move_to_history (transaction_id : string) (ref : nat)
    (c : Coordinator) : Coordinator :=
  mkCoordinator (heap c) (dict_del transaction_id (active_transactions c))
    (transaction_history c ++ [ref]) (data_file c).

Definition cancel_transaction (now transaction_id reason : string)
    (c : Coordinator) : bool * Coordinator :=
  match dict_get transaction_id (active_transactions c) with
  | None => (false, c)
  | Some ref =>
      match deref c ref with
      | None => (false, c)
      | Some transaction =>
          if status_eqb (tx_status transaction) COMPLETED
             || status_eqb (tx_status transaction) FAILED
          then (false, c)
          else
            let cancelled :=
              set_metadata
                (dict_set "cancellation_reason" (PStr reason) (metadata transaction))
                (set_updated_at now (set_tx_status CANCELLED transaction)) in
            (true,
             _save_transaction_data
               (move_to_history transaction_id ref
                  (set_heap (update_nth ref cancelled (heap c)) c)))
      end
  end.

(** What a call yields: a value, or the exception it raises. *)
Inductive Reply (A : Type) : Type :=
| Value (a : A)
| Raises (exception : string).
Arguments Raises {A} exception.

(** The transaction [get_transaction_status] reports on: the active one
    under that key, else the first of the history with that id. *)
Definition find_transaction (tid : string) (c : Coordinator) : option Transaction :=
  match dict_get tid (active_transactions c) with
  | Some ref => deref c ref
  | None => find (fun t => String.eqb (transaction_id t) tid) (history_objects c)
  end.

Definition string_of_nat (n : nat) : string :=
  NilEmpty.string_of_uint (Nat.to_uint n).

Definition float_of_nat (n : nat) : float :=
  PrimFloat.of_uint63 (Uint63.of_Z (Z.of_nat n)).

Definition option_str (o : option string) : PyVal :=
  match o with
  | Some s => PStr s
  | None => PNone
  end.

(** One entry of ["next_steps"]. *)
Definition next_step_entry (step : TransactionStep) : PyVal :=
  PDict [ ("step_id", PStr (step_id step));
          ("agent", PStr (agent_address step));
          ("action", PStr (action step));
          ("status", PStr (status_value (status step))) ].

(** The dictionary returned for a transaction with at least one step. *)
Definition status_report (tx : Transaction) : dict PyVal :=
  let completed_steps := List.length (filter (has_status COMPLETED) (steps tx)) in
  let total_steps := List.length (steps tx) in
  [ ("transaction_id", PStr (transaction_id tx));
    ("type", PStr (type_value (transaction_type tx)));
    ("status", PStr (status_value (tx_status tx)));
    ("progress", PStr (string_of_nat completed_steps ++ "/" ++ string_of_nat total_steps));
    ("progress_percentage",
      PFloat (PrimFloat.mul
                (PrimFloat.div (float_of_nat completed_steps) (float_of_nat total_steps))
                100%float));
    ("participants", PList (map PStr (participants tx)));
    ("total_value", PFloat (total_value tx));
    ("fees", PDict (map (fun kv => (fst kv, PFloat (snd kv))) (fees tx)));
    ("created_at", PStr (created_at tx));
    ("updated_at", PStr (updated_at tx));
    ("completed_at", option_str (completed_at tx));
    ("next_steps", PList (map next_step_entry (get_next_pending_steps tx))) ].

(** [get_transaction_status]: [Value None] is the returned [None]; the
    division [completed_steps / total_steps] raises when the transaction
    has no step. *)
Definition get_transaction_status (tid : string) (c : Coordinator)
    : Reply (option (dict PyVal)) :=
  match find_transaction tid c with
  | None => Value None
  | Some tx =>
      match steps tx with
      | [] => Raises "ZeroDivisionError"
      | _ :: _ => Value (Some (status_report tx))
      end
  end.

(** ** Processing tasks *)

(** A task created by [asyncio.create_task(self.process_transaction(id))],
    observed at the points where it can be suspended. *)
Inductive Task : Type :=
| Created (tid : string)
    (* not started yet *)
| AtLoopHead (tid : string) (ref : nat)
    (* in one of the two [asyncio.sleep] calls of the loop *)
| InBatch (tid : string) (ref : nat) (ready : list bool)
    (* in [asyncio.gather], inside [execute_transaction_steps] *)
| Done.

(** The statements after the loop.  The transaction is appended to the
    history before its key is deleted; a missing key raises [KeyError],
    which the [except] clause turns into a [FAILED] status. *)
Definition finish_processing (now tid : string) (ref : nat) (c : Coordinator)
    : Coordinator :=
  match deref c ref with
  | None => c
  | Some tx =>
      if status_eqb (tx_status tx) COMPLETED || status_eqb (tx_status tx) FAILED
      then
        if dict_mem tid (active_transactions c)
        then _save_transaction_data (move_to_history tid ref c)
        else
          mkCoordinator
            (update_nth ref (set_updated_at now (set_tx_status FAILED tx)) (heap c))
            (active_transactions c) (transaction_history c ++ [ref]) (data_file c)
      else c
  end.

(** From the loop condition to the next suspension or to the end. *)
Definition loop_block (now tid : string) (ref : nat) (c : Coordinator)
    : Coordinator * Task :=
  match deref c ref with
  | None => (c, Done)
  | Some tx =>
      match loop_head now tx with
      | Exit => (finish_processing now tid ref c, Done)
      | Terminal tx' =>
          (finish_processing now tid ref (set_heap (update_nth ref tx' (heap c)) c),
           Done)
      | Wait => (c, AtLoopHead tid ref)
      | Launch ready => (c, InBatch tid ref ready)
      end
  end.

(** From the entry of [process_transaction] to its first suspension. *)
Definition start_block (now tid : string) (c : Coordinator) : Coordinator * Task :=
  match dict_get tid (active_transactions c) with
  | None => (c, Done)
  | Some ref =>
      match deref c ref with
      | None => (c, Done)
      | Some tx =>
          loop_block now tid ref
            (set_heap (update_nth ref (begin_processing now tx) (heap c)) c)
      end
  end.

(** From the end of [asyncio.gather] to the [asyncio.sleep(0.5)] that
    closes the pass. *)
Definition batch_block (run : TransactionStep -> Outcome) (now tid : string)
    (ref : nat) (ready : list bool) (c : Coordinator) : Coordinator * Task :=
  match deref c ref with
  | None => (c, Done)
  | Some tx =>
      (_save_transaction_data
         (set_heap (update_nth ref (after_batch run now tx ready) (heap c)) c),
       AtLoopHead tid ref)
  end.

Definition resume (run : TransactionStep -> Outcome) (now : string) (t : Task)
    (c : Coordinator) : Coordinator * Task :=
  match t with
  | Created tid => start_block now tid c
  | AtLoopHead tid ref => loop_block now tid ref c
  | InBatch tid ref ready => batch_block run now tid ref ready c
  | Done => (c, Done)
  end.

(** ** The coordinator and its tasks under the event loop *)

Record System : Type := mkSystem {
  coordinator : Coordinator;
  tasks : list Task
}.

(** What the event loop may do next: run a call of a client to its end
    (none of the three operations awaits), or let a task run from where
    it is suspended to its next suspension. *)
Inductive Event : Type :=
| CallPurchase (hex now buyer_address seller_address nft_token_id : string)
    (purchase_price : float) (metadata : option (dict PyVal))
| CallListing (hex now seller_address nft_token_id : string)
    (asking_price : float) (metadata : option (dict PyVal))
| CallCancel (now tid reason : string)
| Resume (i : nat) (now : string) (run : TransactionStep -> Outcome).

Definition perform (e : Event) (s : System) : System :=
  match e with
  | CallPurchase hex now buyer seller nft price md =>
      let (tid, c) := initiate_nft_purchase hex now buyer seller nft price md
                        (coordinator s) in
      mkSystem c (tasks s ++ [Created tid])
  | CallListing hex now seller nft price md =>
      let (tid, c) := initiate_nft_listing hex now seller nft price md
                        (coordinator s) in
      mkSystem c (tasks s ++ [Created tid])
  | CallCancel now tid reason =>
      mkSystem (snd (cancel_transaction now tid reason (coordinator s))) (tasks s)
  | Resume i now run =>
      match nth_error (tasks s) i with
      | Some t =>
          let (c, t') := resume run now t (coordinator s) in
          mkSystem c (update_nth i t' (tasks s))
      | None => s
      end
  end.

(** [uuid4] is taken to draw an identifier no transaction object has. *)
Definition fresh_id (tid : string) (s : System) : Prop :=
  ~ In tid (map transaction_id (heap (coordinator s))).

Definition enabled (e : Event) (s : System) : Prop :=
  match e with
  | CallPurchase hex _ _ _ _ _ _ => fresh_id ("tx_" ++ hex) s
  | CallListing hex _ _ _ _ _ => fresh_id ("tx_" ++ hex) s
  | CallCancel _ _ _ => True
  | Resume _ _ _ => True
  end.

(** The system after a sequence of events, and when that sequence can
    occur. *)
Fixpoint perform_all (es : list Event) (s : System) : System :=
  match es with
  | [] => s
  | e :: es' => perform_all es' (perform e s)
  end.

Fixpoint feasible (es : list Event) (s : System) : Prop :=
  match es with
  | [] => True
  | e :: es' => enabled e s /\ feasible es' (perform e s)
  end.

(** A process that starts without a snapshot file. *)
Definition initial_system : System :=
  mkSystem (start_coordinator None) [].

(** ** Notions used to state the properties *)

(** The three statuses a step takes. *)
Definition step_status_ok (st : TransactionStatus) : Prop :=
  st = PENDING \/ st = COMPLETED \/ st = FAILED.

Definition steps_three_valued (tx : Transaction) : Prop :=
  forall s, In s (steps tx) -> step_status_ok (status s).

Definition all_completed (tx : Transaction) : Prop :=
  forall s, In s (steps tx) -> status s = COMPLETED.

Definition some_failed (tx : Transaction) : Prop :=
  exists s, In s (steps tx) /\ status s = FAILED.

(** [a] names a step that lists [b] among its dependencies. *)
Definition depends_directly (ss : list TransactionStep) (a b : string) : Prop :=
  exists s, In s ss /\ step_id s = a /\ In b (dependencies s).

(** [a] depends on [b] through one or more listed dependencies. *)
Definition depends_on (ss : list TransactionStep) : string -> string -> Prop :=
  clos_trans string (depends_directly ss).

(** No step depends on itself, directly or through other steps. *)
Definition acyclic (ss : list TransactionStep) : Prop :=
  forall a, ~ depends_on ss a a.

(** Every listed dependency is the id of a step of the plan. *)
Definition dependencies_closed (ss : list TransactionStep) : Prop :=
  forall s d, In s ss -> In d (dependencies s) -> In d (map step_id ss).

(** Every dependency of [s] is the id of a completed step of [tx]. *)
Definition dependencies_completed (tx : Transaction) (s : TransactionStep) : Prop :=
  forall d, In d (dependencies s) ->
    exists s', In s' (steps tx) /\ step_id s' = d /\ status s' = COMPLETED.

(** A step that has left [PENDING] had its dependencies completed. *)
Definition started_after_dependencies (tx : Transaction) : Prop :=
  forall s, In s (steps tx) -> status s <> PENDING -> dependencies_completed tx s.

Definition terminal_status (st : TransactionStatus) : Prop :=
  st = COMPLETED \/ st = FAILED \/ st = CANCELLED.

Definition unshare_step (md : dict PyVal) (s : TransactionStep) : TransactionStep :=
  mkStep (step_id s) (agent_address s) (action s)
    (map (fun kv => (fst kv, Own (param_value md (snd kv)))) (parameters s))
    (status s) (result s) (error_message s) (timestamp s) (dependencies s).

(** The object [_load_transaction_data] builds from the record of [tx]. *)
Definition unshare (tx : Transaction) : Transaction :=
  set_steps (map (unshare_step (metadata tx)) (steps tx)) tx.

(** The identifier a task works on. *)
Definition task_tid (t : Task) : option string :=
  match t with
  | Created tid => Some tid
  | AtLoopHead tid _ => Some tid
  | InBatch tid _ _ => Some tid
  | Done => None
  end.

(** The object a started task holds in its variable [transaction]. *)
Definition task_ref (t : Task) : option nat :=
  match t with
  | AtLoopHead _ ref => Some ref
  | InBatch _ ref _ => Some ref
  | _ => None
  end.

Definition in_batch_on (ref : nat) (t : Task) : Prop :=
  exists tid ready, t = InBatch tid ref ready.

(** What holds of the coordinator and its tasks between any two events. *)
Record consistent (s : System) : Prop := mkConsistent {
  keys_distinct :
    NoDup (dict_keys (active_transactions (coordinator s)));
  ids_distinct :
    NoDup (map transaction_id (heap (coordinator s)));
  active_sound :
    forall k ref, In (k, ref) (active_transactions (coordinator s)) ->
      exists tx, deref (coordinator s) ref = Some tx /\ transaction_id tx = k /\
                 is_active_status (tx_status tx) = true;
  history_sound :
    forall ref, In ref (transaction_history (coordinator s)) ->
      exists tx, deref (coordinator s) ref = Some tx /\ terminal_status (tx_status tx);
  objects_located :
    forall ref tx, deref (coordinator s) ref = Some tx ->
      In (transaction_id tx, ref) (active_transactions (coordinator s)) \/
      In ref (transaction_history (coordinator s));
  tasks_known :
    forall t tid, In t (tasks s) -> task_tid t = Some tid ->
      In tid (map transaction_id (heap (coordinator s)));
  tasks_sound :
    forall t ref, In t (tasks s) -> task_ref t = Some ref ->
      exists tx, deref (coordinator s) ref = Some tx /\
                 task_tid t = Some (transaction_id tx) /\
                 (tx_status tx = EXECUTING \/ tx_status tx = CANCELLED);
  tasks_distinct :
    forall i j t t' tid, nth_error (tasks s) i = Some t ->
      nth_error (tasks s) j = Some t' ->
      task_tid t = Some tid -> task_tid t' = Some tid -> i = j
}.

Arguments active_sound [s] c k ref _.
Arguments history_sound [s] c ref _.
Arguments objects_located [s] c ref tx _.
Arguments tasks_known [s] c t tid _ _.
Arguments tasks_sound [s] c t ref _ _.
Arguments tasks_distinct [s] c i j t t' tid _ _ _ _.

(** ** Sample data *)

(** A handler that succeeds on every step. *)
Definition always_ok (s : TransactionStep) : Outcome :=
  Returned [("status", PStr "completed")] "t".

(** A handler that raises an instance of [Exception] on
    ["setup_escrow"] and succeeds elsewhere. *)
Definition escrow_fails (s : TransactionStep) : Outcome :=
  if String.eqb (action s) "setup_escrow"
  then Raised "escrow unavailable"
  else Returned [("status", PStr "completed")] "t".

Definition sample_clock (k : nat) : string := "t".

Definition sample_purchase : Transaction :=
  new_purchase "tx_00000001" "t0" "B" "S" "X" 100%float None.

(** A plan with a single step and no dependency. *)
Definition single_step_plan : Transaction :=
  mkTransaction "tx_one" NFT_TRANSFER "B" ["B"]
    [ mkStep "tx_one_step_1" "trading_legacy_agent" "execute_transfer" []
        PENDING None None None [] ]
    PENDING 1%float [] [] "t0" "t0" None.

(** A plan whose only step lists a dependency that is not a step. *)
Definition dangling_plan : Transaction :=
  mkTransaction "tx_dangling" NFT_TRANSFER "B" ["B"]
    [ mkStep "tx_dangling_step_1" "trading_legacy_agent" "execute_transfer" []
        PENDING None None None ["tx_dangling_step_0"] ]
    PENDING 1%float [] [] "t0" "t0" None.

(** A purchase is initiated and cancelled before its task has started. *)
Definition cancelled_early : System :=
  perform_all
    [ CallPurchase "00000001" "t0" "B" "S" "X" 100%float None;
      CallCancel "t1" "tx_00000001" "user requested" ]
    initial_system.

(** A purchase is initiated, its task starts the first batch, and the
    purchase is cancelled while that batch is in flight. *)
Definition cancelled_in_flight : System :=
  perform_all
    [ CallPurchase "00000001" "t0" "B" "S" "X" 100%float None;
      Resume 0 "t1" always_ok;
      CallCancel "t2" "tx_00000001" "user requested" ]
    initial_system.

(** A purchase with caller metadata, just initiated. *)
Definition purchase_with_metadata : Coordinator :=
  snd (initiate_nft_purchase "00000001" "t0" "B" "S" "X" 100%float
         (Some [("note", PStr "gift")]) (start_coordinator None)).

(** What one pass of the loop does to a step, [done] being the ids of
    the completed steps when the pass begins. *)
Definition advance (run : TransactionStep -> Outcome) (done : list string)
    (s : TransactionStep) : TransactionStep :=
  if is_ready done s then record_outcome s (run s) else s.

(** The transaction status agrees with the steps as far as the loop
    guarantees at every moment. *)
Definition status_sound (tx : Transaction) : Prop :=
  (tx_status tx = COMPLETED -> all_completed tx) /\
  (tx_status tx = FAILED -> some_failed tx) /\
  (tx_status tx = EXECUTING \/ tx_status tx = COMPLETED \/ tx_status tx = FAILED).

(** The transaction after [process_transaction] has marked it
    [EXECUTING] and made [n] passes of its loop. *)
Definition processed (run : TransactionStep -> Outcome) (clock : nat -> string)
    (now : string) (n : nat) (tx : Transaction) : Transaction :=
  run_loop run clock 0 n (begin_processing now tx).

(** The plan of a transaction: step ids with their dependencies. *)
Definition step_graph (ss : list TransactionStep) : list (string * list string) :=
  map (fun s => (step_id s, dependencies s)) ss.

Definition pending_count (tx : Transaction) : nat :=
  List.length (filter (has_status PENDING) (steps tx)).

(** The last character of a step id of the sample plans, as a rank. *)
Fixpoint last_digit (s : string) : nat :=
  match s with
  | EmptyString => 0
  | String c EmptyString => Nat.sub (nat_of_ascii c) 48
  | String _ rest => last_digit rest
  end.

(** Checks, on a given plan, that dependencies name steps of the plan and
    that they go from higher to lower rank. *)
Definition closed_check (ss : list TransactionStep) : bool :=
  forallb (fun s => forallb (fun d => mem_string d (map step_id ss)) (dependencies s)) ss.

Definition ranked_check (rank : string -> nat) (ss : list TransactionStep) : bool :=
  forallb (fun s => forallb (fun d => Nat.ltb (rank d) (rank (step_id s)))
                      (dependencies s)) ss.

(** The keys of the dictionary returned by [get_transaction_status]. *)
Definition report_keys : list string :=
  [ "transaction_id"; "type"; "status"; "progress"; "progress_percentage";
    "participants"; "total_value"; "fees"; "created_at"; "updated_at";
    "completed_at"; "next_steps" ].

(** The transaction object [cancel_transaction] leaves behind. *)
Definition cancelled (now reason : string) (tx : Transaction) : Transaction :=
  mkTransaction (transaction_id tx) (transaction_type tx) (initiator_address tx)
    (participants tx) (steps tx) CANCELLED (total_value tx) (fees tx)
    (dict_set "cancellation_reason" (PStr reason) (metadata tx))
    (created_at tx) now (completed_at tx).


(** The values stored under the parameters of a step. *)
Definition parameter_values (md : dict PyVal) (s : TransactionStep) : dict PyVal :=
  map (fun kv => (fst kv, param_value md (snd kv))) (parameters s).



(** The working sets on which the round trip is stated: active entries
    are keyed by the id of their transaction, which is pending or
    executing, and the history holds no pending or executing one. *)
Definition active_keyed (c : Coordinator) : Prop :=
  forall k ref, In (k, ref) (active_transactions c) ->
    exists tx, deref c ref = Some tx /\ transaction_id tx = k /\
               is_active_status (tx_status tx) = true.

Definition history_closed (c : Coordinator) : Prop :=
  forall tx, In tx (history_objects c) -> is_active_status (tx_status tx) = false.

Fixpoint distinct_strings (l : list string) : bool :=
  match l with
  | [] => true
  | x :: l' => negb (mem_string x l') && distinct_strings l'
  end.




(** Every step of every transaction object is pending, completed or
    failed. *)
Definition three_valued_heap (c : Coordinator) : Prop :=
  forall tx, In tx (heap c) -> steps_three_valued tx.

(** No task is waiting for a batch of the object at [ref]. *)
Definition no_batch_on (ref : nat) (s : System) : Prop :=
  forall t, In t (tasks s) -> ~ in_batch_on ref t.

Definition enabled_check (e : Event) (s : System) : bool :=
  match e with
  | CallPurchase hex _ _ _ _ _ _ =>
      negb (mem_string ("tx_" ++ hex) (map transaction_id (heap (coordinator s))))
  | CallListing hex _ _ _ _ _ =>
      negb (mem_string ("tx_" ++ hex) (map transaction_id (heap (coordinator s))))
  | CallCancel _ _ _ => true
  | Resume _ _ _ => true
  end.

Fixpoint feasible_check (es : list Event) (s : System) : bool :=
  match es with
  | [] => true
  | e :: es' => enabled_check e s && feasible_check es' (perform e s)
  end.

(** A purchase runs to completion: its task is resumed until it is done. *)
Definition completing_events : list Event :=
  CallPurchase "00000001" "t0" "B" "S" "X" 100%float None ::
  map (fun k => Resume 0 "t1" always_ok) (seq 0 9).

(** What happens next: a cancel on the completed purchase, a second
    purchase, and its task at work. *)
Definition later_events : list Event :=
  [ CallCancel "t2" "tx_00000001" "too late";
    CallPurchase "00000002" "t3" "B" "S" "Y" 50%float None;
    Resume 1 "t4" always_ok;
    Resume 1 "t5" always_ok;
    Resume 0 "t6" always_ok ].

(** The events that lead to [cancelled_in_flight]. *)
Definition in_flight_events : list Event :=
  [ CallPurchase "00000001" "t0" "B" "S" "X" 100%float None;
    Resume 0 "t1" always_ok;
    CallCancel "t2" "tx_00000001" "user requested" ].

(** ** Further operations and notions *)

(** One entry of the list returned by [get_active_transactions]. *)
Definition active_summary (tx : Transaction) : dict PyVal :=
  [ ("transaction_id", PStr (transaction_id tx));
    ("type", PStr (type_value (transaction_type tx)));
    ("status", PStr (status_value (tx_status tx)));
    ("total_value", PFloat (total_value tx));
    ("created_at", PStr (created_at tx));
    ("participants", PInt (Z.of_nat (List.length (participants tx)))) ].

Definition get_active_transactions (c : Coordinator) : list (dict PyVal) :=
  map active_summary (active_objects c).

(** The four assignments the coordinator makes to a transaction object:
    the start of [process_transaction], a cancellation, the recording of
    a batch, and the final status set by the loop. *)
Inductive change : Transaction -> Transaction -> Prop :=
| change_begin (now : string) (tx : Transaction) :
    is_active_status (tx_status tx) = true ->
    change tx (begin_processing now tx)
| change_cancel (now reason : string) (tx : Transaction) :
    is_active_status (tx_status tx) = true ->
    change tx (cancelled now reason tx)
| change_batch (run : TransactionStep -> Outcome) (now : string) (tx : Transaction) :
    tx_status tx = EXECUTING \/ tx_status tx = CANCELLED ->
    change tx (after_batch run now tx (ready_mask tx))
| change_final (now : string) (tx tx' : Transaction) :
    loop_head now tx = Terminal tx' ->
    change tx tx'.

(** The batch a task waits for is the ready set of its transaction. *)
Definition batch_sound (s : System) : Prop :=
  forall t tid ref ready,
    In t (tasks s) -> t = InBatch tid ref ready ->
    exists tx, deref (coordinator s) ref = Some tx /\ ready = ready_mask tx.

(** The fields of a transaction and of a step that are given at creation. *)
Definition step_identity (s : TransactionStep)
    : string * string * string * dict Param * list string :=
  (step_id s, agent_address s, action s, parameters s, dependencies s).

Definition transaction_identity (tx : Transaction)
    : string * TransactionType * string * list string * float * dict float * string *
      list (string * string * string * dict Param * list string) :=
  (transaction_id tx, transaction_type tx, initiator_address tx, participants tx,
   total_value tx, fees tx, created_at tx, map step_identity (steps tx)).

(** A step carries a result and a timestamp exactly when it is completed
    and an error message exactly when it has failed. *)
Definition step_fields_ok (s : TransactionStep) : Prop :=
  match status s with
  | PENDING => result s = None /\ error_message s = None /\ timestamp s = None
  | COMPLETED => result s <> None /\ error_message s = None /\ timestamp s <> None
  | FAILED => result s = None /\ error_message s <> None /\ timestamp s = None
  | _ => False
  end.

(** A file of two records, both pending, then one whose status string is
    no member of the enumeration, then a completed one. *)
Definition sample_records : list TransactionRecord :=
  [ transaction_to_record sample_purchase;
    transaction_to_record single_step_plan;
    mkTransactionRecord "tx_bad" "nft_purchase" "B" ["B"] [] "archived"
      1%float [] [] "t0" "t0" None;
    transaction_to_record (set_tx_status COMPLETED dangling_plan) ].

(** A file with an approved and a failed transaction between two active
    ones. *)
Definition mixed_records : list TransactionRecord :=
  [ transaction_to_record sample_purchase;
    transaction_to_record (set_tx_status APPROVED single_step_plan);
    transaction_to_record (set_tx_status FAILED dangling_plan);
    transaction_to_record
      (set_tx_status EXECUTING
         (new_listing "tx_00000009" "t0" "S" "Y" 180%float None)) ].

(** A purchase completed, cancelled too late, and a second one on its
    way. *)
Definition busy_events : list Event := completing_events ++ later_events.

(** What the coordinator promises about the status of a transaction at
    every moment. *)
Definition status_backed (tx : Transaction) : Prop :=
  tx_status tx <> APPROVED /\
  (tx_status tx = PENDING -> forall s, In s (steps tx) -> status s = PENDING) /\
  (tx_status tx = COMPLETED -> all_completed tx) /\
  (tx_status tx = FAILED -> some_failed tx).

(** A handler that returns on every step. *)
Definition returning (res : TransactionStep -> dict PyVal)
    (time : TransactionStep -> string) : TransactionStep -> Outcome :=
  fun s => Returned (res s) (time s).

(** A handler that raises an instance of [Exception] on the steps of one
    action and returns on the others. *)
Definition failing_on (act : string) (msg : TransactionStep -> string)
    (res : TransactionStep -> dict PyVal) (time : TransactionStep -> string)
    : TransactionStep -> Outcome :=
  fun s => if String.eqb (action s) act then Raised (msg s) else Returned (res s) (time s).

(** The status of a transaction with the statuses of its steps. *)
Definition progress_of (tx : Transaction) : TransactionStatus * list TransactionStatus :=
  (tx_status tx, map status (steps tx)).

(** The place of a step id in a list of ids, as a rank. *)
Fixpoint position (ids : list string) (x : string) : nat :=
  match ids with
  | [] => 0
  | y :: ids' => if String.eqb x y then 0 else S (position ids' x)
  end.

(** What the status query shows of the ready steps. *)
Definition ready_entry (tid n agent act : string) : PyVal :=
  PDict [ ("step_id", PStr (step_name tid n)); ("agent", PStr agent);
          ("action", PStr act); ("status", PStr "pending") ].

(** The values of the members of the two enumerations. *)
Definition status_values : list string :=
  [ "pending"; "approved"; "executing"; "completed"; "failed"; "cancelled" ].

Definition type_values : list string :=
  [ "nft_purchase"; "nft_listing"; "nft_transfer"; "batch_operation";
    "escrow_release" ].

(** A stored record whose three kinds of enumeration strings are all
    values of members. *)
Definition readable (r : TransactionRecord) : Prop :=
  In (r_transaction_type r) type_values /\
  In (r_tx_status r) status_values /\
  Forall (fun s => In (r_status s) status_values) (r_steps r).

(** ** A process started on a snapshot *)

(** The coordinator right after the module has been imported with the
    snapshot [rs] on disk: the constructor loads the file and creates no
    task. *)
Definition restarted (rs : list TransactionRecord) : System :=
  mkSystem (start_coordinator (Some rs)) [].

(** [tx'] is [tx] itself, or [tx] after a successful cancellation. *)
Definition kept_or_cancelled (tx tx' : Transaction) : Prop :=
  tx' = tx \/
  (is_active_status (tx_status tx) = true /\
   exists now reason, tx' = cancelled now reason tx).

(** No task works on the transaction [tid]. *)
Definition no_task_on (tid : string) (s : System) : Prop :=
  forall t, In t (tasks s) -> task_tid t <> Some tid.

(** A snapshot with a purchase that was executing, three steps completed,
    and a pending transfer. *)
Definition interrupted_records : list TransactionRecord :=
  [ transaction_to_record (processed always_ok sample_clock "t1" 2 sample_purchase);
    transaction_to_record single_step_plan ].

(** After the restart: a new purchase is initiated and processed, and the
    pending transfer is cancelled. *)
Definition restart_events : list Event :=
  [ CallPurchase "00000007" "t2" "B" "S" "Z" 70%float None;
    Resume 0 "t3" always_ok;
    Resume 0 "t4" always_ok;
    CallCancel "t5" "tx_one" "stale";
    Resume 0 "t6" always_ok;
    Resume 1 "t7" always_ok ].

(** ** The simulated agents *)

(** [float(z)] for a Python [int]: the nearest binary64, ties to even;
    [None] stands for the [OverflowError] of an integer that is too
    large. *)
Definition float_of_int (z : Z) : option float :=
  match binary_normalize prec emax z 0 false with
  | S754_infinity _ => None
  | f => Some (SF2Prim f)
  end.

(** [x * k] for a float [k]: a float for the numbers ([bool] is a
    subclass of [int]), an exception for the other values. *)
Definition times_float (x : PyVal) (k : float) : Reply PyVal :=
  match x with
  | PFloat f => Value (PFloat (PrimFloat.mul f k))
  | PBool b => Value (PFloat (PrimFloat.mul (if b then 1%float else 0%float) k))
  | PInt z =>
      match float_of_int z with
      | Some f => Value (PFloat (PrimFloat.mul f k))
      | None => Raises "OverflowError"
      end
  | PNone | PStr _ | PList _ | PDict _ | PObject _ => Raises "TypeError"
  end.

(** [step.parameters.get(key, default)] inside a transaction whose
    metadata is [md]. *)
Definition parameter_or (md : dict PyVal) (step : TransactionStep) (key : string)
    (default : PyVal) : PyVal :=
  match dict_get key (parameters step) with
  | Some p => param_value md p
  | None => default
  end.

(** The dictionary [action_results], once its two products are known. *)
Definition action_results (md : dict PyVal)
    (escrow_hex transfer_hex listing_hex : string) (step : TransactionStep)
    (market_price estimated_value : PyVal) : dict (dict PyVal) :=
  [ ("verify_valuation",
      [ ("valuation_confirmed", PBool true);
        ("market_price", market_price);
        ("confidence", PFloat 0.88%float) ]);
    ("verify_authenticity",
      [ ("authenticity_confirmed", PBool true);
        ("authenticity_score", PFloat 0.92%float);
        ("fraud_risk", PStr "low") ]);
    ("setup_escrow",
      [ ("escrow_address", PStr ("0xescrow_" ++ escrow_hex));
        ("amount_locked", parameter_or md step "amount" (PInt 0));
        ("status", PStr "locked") ]);
    ("execute_transfer",
      [ ("transaction_hash", PStr ("0x" ++ transfer_hex));
        ("nft_transferred", PBool true);
        ("payment_transferred", PBool true) ]);
    ("finalize_transaction",
      [ ("market_data_updated", PBool true);
        ("participants_notified", PBool true);
        ("transaction_recorded", PBool true) ]);
    ("verify_ownership",
      [ ("ownership_confirmed", PBool true);
        ("owner_address", parameter_or md step "claimed_owner" PNone);
        ("verification_method", PStr "blockchain_query") ]);
    ("market_valuation",
      [ ("estimated_value", estimated_value);
        ("market_demand", PStr "moderate");
        ("pricing_recommendation", PStr "competitive") ]);
    ("create_listing",
      [ ("listing_id", PStr ("listing_" ++ listing_hex));
        ("listing_created", PBool true);
        ("visible_on_marketplace", PBool true) ]) ].

(** [simulate_step_execution] after its sleep.  The three arguments
    [escrow_hex], [transfer_hex] and [listing_hex] are the digits kept of
    the three [uuid4] draws.  The whole table is built on every call,
    whatever the action: the two products are computed, and may raise,
    for every step. *)
Definition simulate_step_execution (md : dict PyVal)
    (escrow_hex transfer_hex listing_hex : string) (step : TransactionStep)
    : Reply (dict PyVal) :=
  match times_float (parameter_or md step "offered_price" (PInt 0)) 0.95%float with
  | Raises e => Raises e
  | Value market_price =>
      match times_float (parameter_or md step "asking_price" (PInt 0)) 0.92%float with
      | Raises e => Raises e
      | Value estimated_value =>
          Value
            match dict_get (action step)
                    (action_results md escrow_hex transfer_hex listing_hex step
                       market_price estimated_value) with
            | Some r => r
            | None => [ ("status", PStr "completed") ]
            end
      end
  end.

(** What [asyncio.gather] hands back for a step run by
    [simulate_step_execution]; [time] is the clock reading taken when the
    result is recorded and [explain] the text of the exception. *)
Definition simulated (md : dict PyVal)
    (escrow_hex transfer_hex listing_hex time explain : TransactionStep -> string)
    : TransactionStep -> Outcome :=
  fun s =>
    match simulate_step_execution md (escrow_hex s) (transfer_hex s) (listing_hex s) s with
    | Value r => Returned r (time s)
    | Raises _ => Raised (explain s)
    end.

(** Where the coordinator keeps the object at [ref]: under its id in the
    active set and not in the history, or in the history and not in the
    active set. *)
Definition filed (c : Coordinator) (ref : nat) (tx : Transaction) : Prop :=
  if is_active_status (tx_status tx)
  then dict_get (transaction_id tx) (active_transactions c) = Some ref /\
       ~ In ref (transaction_history c)
  else In ref (transaction_history c) /\
       dict_get (transaction_id tx) (active_transactions c) = None.

(** Every object is filed by its status, and the two collections refer
    to objects only. *)
Definition sorted_by_status (c : Coordinator) : Prop :=
  (forall ref tx, deref c ref = Some tx -> filed c ref tx) /\
  (forall r, In r (transaction_history c) -> r < List.length (heap c)) /\
  (forall k, dict_get k (active_transactions c) <> None ->
             In k (map transaction_id (heap c))).

(** ** The snapshot and the working set *)

(** What an operation does to the snapshot: it leaves the file alone, or
    it rewrites it from the working set it ends with. *)
Definition file_kept_or_rewritten (c c' : Coordinator) : Prop :=
  data_file c' = data_file c \/
  data_file c' = Some (map transaction_to_record (all_transactions c')).

(** The snapshot holds a record with the id of [tx]. *)
Definition on_file (c : Coordinator) (tx : Transaction) : Prop :=
  exists rs, data_file c = Some rs /\ In (transaction_id tx) (map r_transaction_id rs).

(** ** Exceptions that are no [Exception], and cancellations in flight *)


(** A handler that raises, on the steps of one action, an exception that
    is no instance of [Exception], and returns on the others. *)
Definition escaping_on (act : string) (exc : TransactionStep -> string)
    (res : TransactionStep -> dict PyVal) (time : TransactionStep -> string)
    : TransactionStep -> Outcome :=
  fun s => if String.eqb (action s) act then Escaped (exc s) (time s)
           else Returned (res s) (time s).

(** A purchase is cancelled while the batch of its escrow step is in
    flight; the escrow handler then raises, and the task runs to its
    end. *)
Definition failing_batch_cancelled : list Event :=
  [ CallPurchase "00000001" "t0" "B" "S" "X" 100%float None;
    Resume 0 "t1" always_ok;
    Resume 0 "t2" always_ok;
    Resume 0 "t3" always_ok;
    CallCancel "t4" "tx_00000001" "changed my mind";
    Resume 0 "t5" escrow_fails;
    Resume 0 "t6" always_ok ].

(** A purchase is cancelled while the batch of its last step is in
    flight; the handler then returns, and the task runs to its end. *)
Definition last_batch_cancelled : list Event :=
  CallPurchase "00000001" "t0" "B" "S" "X" 100%float None ::
  map (fun k => Resume 0 "t1" always_ok) (seq 0 7) ++
  [ CallCancel "t2" "tx_00000001" "changed my mind";
    Resume 0 "t3" always_ok;
    Resume 0 "t4" always_ok ].

(** ** Working sets that cannot be written *)



(** Every field of a transaction but [metadata]; the steps come with all
    their fields, their parameters as the references they hold. *)
Definition fields_but_metadata (tx : Transaction) :=
  (transaction_id tx, transaction_type tx, initiator_address tx, participants tx,
   steps tx, tx_status tx, total_value tx, fees tx, created_at tx, updated_at tx,
   completed_at tx).

(** * Properties *)

Unset Implicit Arguments.

(** ** Enumerations, membership, lists *)

Lemma status_eqb_eq : forall a b, status_eqb a b = true <-> a = b.
Proof. intros a b; split; [ destruct a, b; simpl; congruence | intros ->; destruct b; reflexivity ]. Qed.

Lemma status_eqb_refl : forall a, status_eqb a a = true.
Proof. destruct a; reflexivity. Qed.

Lemma status_eqb_neq : forall a b, status_eqb a b = false <-> a <> b.
Proof.
  intros a b; split.
  - intros H E; subst; rewrite status_eqb_refl in H; discriminate.
  - intros H; destruct (status_eqb a b) eqn:E; auto.
    apply status_eqb_eq in E; contradiction.
Qed.

Lemma has_status_true : forall v s, has_status v s = true <-> status s = v.
Proof. intros; unfold has_status; apply status_eqb_eq. Qed.

Lemma mem_string_In : forall x l, mem_string x l = true <-> In x l.
Proof.
  intros x l; unfold mem_string; rewrite existsb_exists; split.
  - intros [y [Hy E]]; apply String.eqb_eq in E; subst; assumption.
  - intros H; exists x; split; [ assumption | apply String.eqb_refl ].
Qed.

Lemma filter_nil_all_false :
  forall (A : Type) (f : A -> bool) (l : list A),
    filter f l = [] -> forall x, In x l -> f x = false.
Proof.
  intros A f l E x Hx; destruct (f x) eqn:Fx; auto.
  assert (In x (filter f l)) by (apply filter_In; auto).
  rewrite E in H; destruct H.
Qed.

Lemma map_nth_error_inv :
  forall (A B : Type) (f : A -> B) (l : list A) (i : nat) (y : B),
    nth_error (map f l) i = Some y ->
    exists x, nth_error l i = Some x /\ y = f x.
Proof.
  intros A B f l; induction l as [| a l IH]; intros [| i] y H; simpl in *;
    try discriminate.
  - injection H as <-; eauto.
  - eauto.
Qed.

(** ** The ready set *)

Lemma completed_step_ids_In :
  forall tx d,
    In d (completed_step_ids tx) <->
    exists s', In s' (steps tx) /\ step_id s' = d /\ status s' = COMPLETED.
Proof.
  intros tx d; unfold completed_step_ids; rewrite in_map_iff; split.
  - intros [s' [E H]]; apply filter_In in H; destruct H as [H1 H2].
    apply has_status_true in H2; eauto.
  - intros [s' [H1 [E H2]]]; exists s'; split; auto.
    apply filter_In; split; auto; apply has_status_true; auto.
Qed.

Lemma is_ready_spec :
  forall tx s,
    is_ready (completed_step_ids tx) s = true <->
    status s = PENDING /\ dependencies_completed tx s.
Proof.
  intros tx s; unfold is_ready, dependencies_completed.
  rewrite andb_true_iff, has_status_true, forallb_forall; split.
  - intros [H1 H2]; split; auto; intros d Hd.
    apply completed_step_ids_In, mem_string_In; auto.
  - intros [H1 H2]; split; auto; intros d Hd.
    apply mem_string_In, completed_step_ids_In; auto.
Qed.

Lemma record_results_mask :
  forall run (f : TransactionStep -> bool) ss,
    record_results run ss (map f ss) =
    map (fun s => if f s then record_outcome s (run s) else s) ss.
Proof. intros run f ss; induction ss as [| s ss IH]; simpl; congruence. Qed.

Lemma after_batch_steps :
  forall run now tx,
    steps (after_batch run now tx (ready_mask tx)) =
    map (advance run (completed_step_ids tx)) (steps tx).
Proof. intros; unfold after_batch, ready_mask; simpl; apply record_results_mask. Qed.

Lemma advance_not_ready :
  forall run tx,
    get_next_pending_steps tx = [] ->
    map (advance run (completed_step_ids tx)) (steps tx) = steps tx.
Proof.
  intros run tx E; rewrite <- (map_id (steps tx)) at 2.
  apply map_ext_in; intros s Hs; unfold advance.
  rewrite (filter_nil_all_false _ _ _ E s Hs); reflexivity.
Qed.

(** The steps after one pass: every ready step carries its outcome. *)
Lemma loop_iteration_steps :
  forall run now tx,
    tx_status tx = EXECUTING ->
    steps (loop_iteration run now tx) =
    map (advance run (completed_step_ids tx)) (steps tx).
Proof.
  intros run now tx E; unfold loop_iteration, loop_head; rewrite E; simpl.
  destruct (get_next_pending_steps tx) as [| r rs] eqn:R.
  - rewrite (advance_not_ready run tx R).
    destruct (filter (has_status FAILED) (steps tx)); simpl; auto.
    destruct (Nat.eqb _ _); reflexivity.
  - apply after_batch_steps.
Qed.

Lemma loop_iteration_idle :
  forall run now tx, tx_status tx <> EXECUTING -> loop_iteration run now tx = tx.
Proof.
  intros run now tx E; unfold loop_iteration, loop_head.
  apply status_eqb_neq in E; rewrite E; reflexivity.
Qed.

(** C2.  The ready set is exactly the pending steps all of whose listed
    dependencies are ids of completed steps; the batch the loop launches
    marks exactly those positions; and a step that a pass of the loop
    changes was pending with all its dependencies completed when the pass
    began, so no step runs before its dependencies are completed. *)
Theorem ready_set_is_pending_with_completed_dependencies :
  forall tx,
    (forall s, In s (get_next_pending_steps tx) <->
               In s (steps tx) /\ status s = PENDING /\ dependencies_completed tx s) /\
    (forall now ready i s,
        loop_head now tx = Launch ready ->
        nth_error (steps tx) i = Some s ->
        exists b, nth_error ready i = Some b /\
                  (b = true <-> status s = PENDING /\ dependencies_completed tx s)) /\
    (forall run now i s s',
        nth_error (steps tx) i = Some s ->
        nth_error (steps (loop_iteration run now tx)) i = Some s' ->
        s' <> s ->
        status s = PENDING /\ dependencies_completed tx s).
Proof.
  intros tx; split; [| split].
  - intros s; unfold get_next_pending_steps; rewrite filter_In, is_ready_spec; tauto.
  - intros now ready i s H Hi; unfold loop_head in H.
    destruct (status_eqb (tx_status tx) EXECUTING); try discriminate.
    destruct (get_next_pending_steps tx).
    + destruct (filter (has_status FAILED) (steps tx)); try discriminate.
      destruct (Nat.eqb _ _); discriminate.
    + injection H as <-; unfold ready_mask.
      exists (is_ready (completed_step_ids tx) s); split.
      * apply map_nth_error; assumption.
      * apply is_ready_spec.
  - intros run now i s s' Hi Hi' D.
    destruct (status_eqb (tx_status tx) EXECUTING) eqn:E.
    + apply status_eqb_eq in E; rewrite (loop_iteration_steps run now tx E) in Hi'.
      apply map_nth_error_inv in Hi'; destruct Hi' as [x [Hx ->]].
      rewrite Hi in Hx; injection Hx as <-.
      apply is_ready_spec; unfold advance in D.
      destruct (is_ready (completed_step_ids tx) s); [ reflexivity | congruence ].
    + apply status_eqb_neq in E; rewrite (loop_iteration_idle run now tx E) in Hi'.
      congruence.
Qed.

(** ** Status consistency *)

Lemma filter_full :
  forall (A : Type) (f : A -> bool) (l : list A),
    List.length (filter f l) = List.length l -> forall x, In x l -> f x = true.
Proof.
  intros A f l; induction l as [| a l IH]; simpl; intros E x Hx; [ destruct Hx |].
  destruct (f a) eqn:Fa; simpl in E.
  - destruct Hx as [<- | Hx]; auto.
  - pose proof (filter_length_le f l); lia.
Qed.

Lemma filter_cons_witness :
  forall (A : Type) (f : A -> bool) (l : list A) (x : A) (xs : list A),
    filter f l = x :: xs -> In x l /\ f x = true.
Proof.
  intros A f l x xs E; apply filter_In; rewrite E; left; reflexivity.
Qed.

Lemma loop_iteration_sound :
  forall run now tx, status_sound tx -> status_sound (loop_iteration run now tx).
Proof.
  intros run now tx S.
  destruct (status_eqb (tx_status tx) EXECUTING) eqn:E.
  2:{ apply status_eqb_neq in E; rewrite loop_iteration_idle; auto. }
  unfold loop_iteration, loop_head; rewrite E; apply status_eqb_eq in E.
  destruct (get_next_pending_steps tx) as [| r rs].
  - destruct (filter (has_status FAILED) (steps tx)) as [| f fs] eqn:F.
    + destruct (Nat.eqb _ _) eqn:L; auto.
      apply Nat.eqb_eq in L; unfold status_sound; simpl.
      repeat split; try discriminate; auto.
      intros _ s Hs; apply has_status_true; apply (filter_full _ _ _ L s Hs).
    + apply filter_cons_witness in F; destruct F as [F1 F2].
      unfold status_sound; simpl; repeat split; try discriminate; auto.
      intros _; exists f; split; auto; apply has_status_true; auto.
  - unfold status_sound, after_batch; simpl; rewrite E.
    repeat split; try discriminate; auto.
Qed.

Lemma run_loop_sound :
  forall run clock n k tx,
    status_sound tx -> status_sound (run_loop run clock k n tx).
Proof.
  intros run clock n; induction n as [| n IH]; intros k tx S; simpl; auto.
  apply IH, loop_iteration_sound, S.
Qed.

Lemma begin_processing_sound : forall now tx, status_sound (begin_processing now tx).
Proof. intros; unfold status_sound; simpl; repeat split; try discriminate; auto. Qed.

Lemma completed_excludes_failed :
  forall tx, all_completed tx -> some_failed tx -> False.
Proof. intros tx A [s [Hs F]]; rewrite (A s Hs) in F; discriminate. Qed.

Lemma all_completed_forallb :
  forall tx, forallb (has_status COMPLETED) (steps tx) = true -> all_completed tx.
Proof.
  intros tx H s Hs; apply has_status_true.
  rewrite forallb_forall in H; auto.
Qed.

Lemma some_failed_existsb :
  forall tx, existsb (has_status FAILED) (steps tx) = true -> some_failed tx.
Proof.
  intros tx H; apply existsb_exists in H; destruct H as [s [Hs F]].
  exists s; split; auto; apply has_status_true; assumption.
Qed.

(** ** The plan is fixed and finished steps are final *)

Lemma run_loop_add :
  forall run clock n m k tx,
    run_loop run clock k (n + m) tx =
    run_loop run clock (k + n) m (run_loop run clock k n tx).
Proof.
  intros run clock n; induction n as [| n IH]; intros m k tx; simpl.
  - rewrite Nat.add_0_r; reflexivity.
  - rewrite IH; f_equal; lia.
Qed.

Lemma processed_add :
  forall run clock now n m tx,
    processed run clock now (n + m) tx =
    run_loop run clock n m (processed run clock now n tx).
Proof. intros; unfold processed; rewrite run_loop_add; reflexivity. Qed.

Lemma processed_succ :
  forall run clock now n tx,
    processed run clock now (S n) tx =
    loop_iteration run (clock n) (processed run clock now n tx).
Proof.
  intros; replace (S n) with (n + 1) by lia; rewrite processed_add; reflexivity.
Qed.

Lemma record_outcome_graph :
  forall s o, step_id (record_outcome s o) = step_id s /\
              dependencies (record_outcome s o) = dependencies s.
Proof. intros s [r t | m | e t]; split; reflexivity. Qed.

Lemma advance_graph :
  forall run done s,
    step_id (advance run done s) = step_id s /\
    dependencies (advance run done s) = dependencies s.
Proof.
  intros; unfold advance; destruct (is_ready done s); auto.
  apply record_outcome_graph.
Qed.

Lemma advance_finished :
  forall run done s, status s <> PENDING -> advance run done s = s.
Proof.
  intros run done s H; unfold advance, is_ready, has_status.
  apply status_eqb_neq in H; rewrite H; reflexivity.
Qed.

Lemma advance_not_selected :
  forall run done s, is_ready done s = false -> advance run done s = s.
Proof. intros run done s H; unfold advance; rewrite H; reflexivity. Qed.

Lemma loop_iteration_graph :
  forall run now tx,
    step_graph (steps (loop_iteration run now tx)) = step_graph (steps tx).
Proof.
  intros run now tx; destruct (status_eqb (tx_status tx) EXECUTING) eqn:E.
  - apply status_eqb_eq in E; rewrite loop_iteration_steps by assumption.
    unfold step_graph; rewrite map_map; apply map_ext; intros s.
    destruct (advance_graph run (completed_step_ids tx) s) as [-> ->]; reflexivity.
  - apply status_eqb_neq in E; rewrite loop_iteration_idle by assumption; reflexivity.
Qed.



Lemma step_graph_ids :
  forall ss, map step_id ss = map fst (step_graph ss).
Proof. intros; unfold step_graph; rewrite map_map; reflexivity. Qed.

Lemma depends_directly_graph :
  forall ss a b,
    depends_directly ss a b <->
    exists deps, In (a, deps) (step_graph ss) /\ In b deps.
Proof.
  intros ss a b; unfold depends_directly, step_graph; split.
  - intros [s [Hs [E Hb]]]; exists (dependencies s); split; auto.
    apply in_map_iff; exists s; split; auto; congruence.
  - intros [deps [H Hb]]; apply in_map_iff in H; destruct H as [s [E Hs]].
    injection E as <- <-; eauto.
Qed.

Lemma depends_on_graph :
  forall ss ss' a b,
    step_graph ss = step_graph ss' -> depends_on ss a b -> depends_on ss' a b.
Proof.
  intros ss ss' a b G H; induction H as [x y H | x y z _ IH1 _ IH2].
  - apply t_step; apply depends_directly_graph; rewrite <- G.
    apply depends_directly_graph; assumption.
  - eapply t_trans; eassumption.
Qed.




Lemma dependencies_completed_ids :
  forall tx s,
    dependencies_completed tx s <->
    (forall d, In d (dependencies s) -> In d (completed_step_ids tx)).
Proof.
  intros tx s; unfold dependencies_completed; split; intros H d Hd;
    apply completed_step_ids_In; auto.
Qed.






(** ** A failing handler *)





Lemma sample_purchase_pending :
  forall s, In s (steps sample_purchase) -> status s = PENDING.
Proof.
  intros s Hs; apply has_status_true; revert s Hs; apply forallb_forall.
  vm_compute; reflexivity.
Qed.




(** ** Progress *)

(** In a finite graph without cycles one cannot follow edges for ever. *)
Section Descent.
Variable A : Type.
Variable R : A -> A -> Prop.
Variable P : A -> Prop.
Variable dom : list A.
Hypothesis P_dom : forall a, P a -> In a dom.
Hypothesis P_next : forall a, P a -> exists b, R a b /\ P b.
Hypothesis R_acyclic : forall a, ~ clos_trans A R a a.

Lemma descending_chain :
  forall n a, P a ->
    exists l last,
      List.length l = S n /\ NoDup l /\ (forall x, In x l -> P x) /\ P last /\
      (forall x, In x l -> x = last \/ clos_trans A R x last).
Proof.
  induction n as [| n IH]; intros a Pa.
  - exists [a], a; repeat split; simpl; auto.
    + constructor; [ intros [] | constructor ].
    + intros x [<- | []]; assumption.
    + intros x [<- | []]; auto.
  - destruct (IH a Pa) as [l [last [L [N [HP [Pl C]]]]]].
    destruct (P_next last Pl) as [b [Rb Pb]].
    exists (b :: l), b; repeat split; simpl; auto.
    + constructor; auto; intros Hb.
      destruct (C b Hb) as [-> | T].
      * apply (R_acyclic last); apply t_step; assumption.
      * apply (R_acyclic b); apply t_trans with last; auto; apply t_step; assumption.
    + intros x [<- | Hx]; auto.
    + intros x [<- | Hx]; auto; right.
      destruct (C x Hx) as [-> | T].
      * apply t_step; assumption.
      * apply t_trans with last; auto; apply t_step; assumption.
Qed.

Lemma descent_ends : forall a, P a -> False.
Proof.
  intros a Pa.
  destruct (descending_chain (List.length dom) a Pa) as [l [last [L [N [HP _]]]]].
  assert (List.length l <= List.length dom).
  { apply NoDup_incl_length; auto; intros x Hx; apply P_dom, HP, Hx. }
  lia.
Qed.
End Descent.

Lemma ranked_acyclic :
  forall (ss : list TransactionStep) (rank : string -> nat),
    (forall a b, depends_directly ss a b -> rank b < rank a) -> acyclic ss.
Proof.
  intros ss rank H a C.
  assert (G : forall x y, depends_on ss x y -> rank y < rank x).
  { intros x y D; induction D as [x y D | x y z _ IH1 _ IH2]; auto; lia. }
  specialize (G a a C); lia.
Qed.

Lemma filter_not_full :
  forall (A : Type) (f : A -> bool) (l : list A),
    List.length (filter f l) <> List.length l -> exists x, In x l /\ f x = false.
Proof.
  intros A f l; induction l as [| a l IH]; simpl; intros H; [ congruence |].
  destruct (f a) eqn:Fa.
  - simpl in H; destruct IH as [x [Hx Fx]]; [ congruence | eauto ].
  - eauto.
Qed.

Lemma forallb_false_witness :
  forall (A : Type) (f : A -> bool) (l : list A),
    forallb f l = false -> exists x, In x l /\ f x = false.
Proof.
  intros A f l; induction l as [| a l IH]; simpl; intros H; [ discriminate |].
  destruct (f a) eqn:Fa; simpl in H; eauto.
  destruct (IH H) as [x [Hx Fx]]; eauto.
Qed.

(** A transaction in which nothing is ready, nothing has failed and
    something is left to do has a cycle or a dangling dependency. *)
Lemma never_stuck :
  forall tx,
    steps_three_valued tx -> dependencies_closed (steps tx) -> acyclic (steps tx) ->
    get_next_pending_steps tx = [] ->
    filter (has_status FAILED) (steps tx) = [] ->
    List.length (filter (has_status COMPLETED) (steps tx)) <> List.length (steps tx) ->
    False.
Proof.
  intros tx V C A R F L.
  assert (NF : forall s, In s (steps tx) -> status s <> FAILED).
  { intros s Hs E; apply has_status_true in E.
    rewrite (filter_nil_all_false _ _ _ F s Hs) in E; discriminate. }
  assert (PC : forall s, In s (steps tx) -> status s <> COMPLETED -> status s = PENDING).
  { intros s Hs N; destruct (V s Hs) as [E | [E | E]]; auto; [ contradiction |].
    elim (NF s Hs E). }
  set (P := fun a => exists s, In s (steps tx) /\ step_id s = a /\ status s = PENDING).
  apply filter_not_full in L; destruct L as [s0 [H0 N0]].
  apply (descent_ends string (depends_directly (steps tx)) P (map step_id (steps tx)))
    with (a := step_id s0).
  - intros a [s [Hs [<- _]]]; apply in_map; assumption.
  - intros a [s [Hs [<- Ps]]].
    pose proof (filter_nil_all_false _ _ _ R s Hs) as NR.
    unfold is_ready in NR; apply has_status_true in Ps; rewrite Ps in NR; simpl in NR.
    apply forallb_false_witness in NR; destruct NR as [d [Hd Md]].
    exists d; split; [ exists s; auto |].
    pose proof (C s d Hs Hd) as Hin; apply in_map_iff in Hin.
    destruct Hin as [s' [E' Hs']]; exists s'; repeat split; auto.
    apply PC; auto; intros CS.
    assert (In d (completed_step_ids tx)) by (apply completed_step_ids_In; eauto).
    apply mem_string_In in H; congruence.
  - exact A.
  - exists s0; repeat split; auto; apply PC; auto.
    intros E; apply has_status_true in E; congruence.
Qed.

Lemma record_outcome_not_pending :
  forall s o, has_status PENDING (record_outcome s o) = false.
Proof. intros s [r t | m | e t]; reflexivity. Qed.

Lemma advance_pending_count :
  forall run done ss,
    List.length (filter (has_status PENDING) (map (advance run done) ss)) +
    List.length (filter (is_ready done) ss) =
    List.length (filter (has_status PENDING) ss).
Proof.
  intros run done ss; induction ss as [| s ss IH]; [ reflexivity |].
  cbn [map filter].
  assert (Hs : has_status PENDING (advance run done s) =
               has_status PENDING s && negb (is_ready done s)).
  { unfold advance; destruct (is_ready done s).
    - rewrite record_outcome_not_pending, andb_false_r; reflexivity.
    - rewrite andb_true_r; reflexivity. }
  assert (R2 : is_ready done s = true -> has_status PENDING s = true).
  { unfold is_ready; intros H; apply andb_true_iff in H; tauto. }
  rewrite Hs.
  destruct (has_status PENDING s), (is_ready done s);
    cbn [andb negb List.length]; try lia.
Qed.

Lemma loop_iteration_three_valued :
  forall run now tx,
    steps_three_valued tx -> steps_three_valued (loop_iteration run now tx).
Proof.
  intros run now tx V; destruct (status_eqb (tx_status tx) EXECUTING) eqn:E.
  2:{ apply status_eqb_neq in E; rewrite loop_iteration_idle; auto. }
  apply status_eqb_eq in E; intros s' Hs'.
  rewrite loop_iteration_steps in Hs' by assumption.
  apply in_map_iff in Hs'; destruct Hs' as [s [<- Hs]]; unfold advance.
  destruct (is_ready (completed_step_ids tx) s); [| apply V; assumption ].
  unfold step_status_ok; destruct (run s); simpl; auto.
Qed.

Lemma dependencies_closed_graph :
  forall ss ss',
    step_graph ss = step_graph ss' -> dependencies_closed ss -> dependencies_closed ss'.
Proof.
  intros ss ss' G C s d Hs Hd; rewrite step_graph_ids, <- G, <- step_graph_ids.
  assert (D : depends_directly ss' (step_id s) d) by (exists s; auto).
  apply depends_directly_graph in D; rewrite <- G in D.
  apply depends_directly_graph in D; destruct D as [s1 [H1 [_ D1]]].
  apply (C s1 d H1 D1).
Qed.

Lemma acyclic_graph :
  forall ss ss', step_graph ss = step_graph ss' -> acyclic ss -> acyclic ss'.
Proof.
  intros ss ss' G A a D; apply (A a).
  apply depends_on_graph with ss'; auto.
Qed.

Lemma loop_ends :
  forall run clock p k tx,
    tx_status tx = EXECUTING -> steps_three_valued tx ->
    dependencies_closed (steps tx) -> acyclic (steps tx) ->
    pending_count tx <= p ->
    exists n, n <= p + 1 /\
              (tx_status (run_loop run clock k n tx) = COMPLETED \/
               tx_status (run_loop run clock k n tx) = FAILED).
Proof.
  intros run clock p; induction p as [| p IH]; intros k tx E V C A L.
  - destruct (get_next_pending_steps tx) as [| r rs] eqn:R.
    + exists 1; split; [ lia |]; simpl.
      unfold loop_iteration, loop_head; rewrite E, R; simpl.
      destruct (filter (has_status FAILED) (steps tx)) eqn:F; simpl; auto.
      destruct (Nat.eqb _ _) eqn:Q; simpl; auto.
      apply Nat.eqb_neq in Q; exfalso; eapply never_stuck; eauto.
    + exfalso.
      pose proof (advance_pending_count (fun s => Raised "") (completed_step_ids tx)
                    (steps tx)) as CNT.
      unfold get_next_pending_steps in R; rewrite R in CNT; simpl in CNT.
      unfold pending_count in L; lia.
  - destruct (get_next_pending_steps tx) as [| r rs] eqn:R.
    + exists 1; split; [ lia |]; simpl.
      unfold loop_iteration, loop_head; rewrite E, R; simpl.
      destruct (filter (has_status FAILED) (steps tx)) eqn:F; simpl; auto.
      destruct (Nat.eqb _ _) eqn:Q; simpl; auto.
      apply Nat.eqb_neq in Q; exfalso; eapply never_stuck; eauto.
    + set (tx1 := loop_iteration run (clock k) tx).
      assert (E1 : tx_status tx1 = EXECUTING).
      { unfold tx1, loop_iteration, loop_head; rewrite E, R; simpl; assumption. }
      assert (L1 : pending_count tx1 <= p).
      { unfold pending_count, tx1; rewrite loop_iteration_steps by assumption.
        pose proof (advance_pending_count run (completed_step_ids tx) (steps tx)) as CNT.
        unfold get_next_pending_steps in R; rewrite R in CNT; simpl in CNT.
        unfold pending_count in L; lia. }
      destruct (IH (S k) tx1 E1) as [n [Hn T]]; auto.
      * apply loop_iteration_three_valued; assumption.
      * apply dependencies_closed_graph with (steps tx); auto.
        symmetry; apply loop_iteration_graph.
      * apply acyclic_graph with (steps tx); auto.
        symmetry; apply loop_iteration_graph.
      * exists (S n); split; [ lia | exact T ].
Qed.

Lemma pending_count_le : forall tx, pending_count tx <= List.length (steps tx).
Proof. intros; apply filter_length_le. Qed.

(** C6, as amended.  When every dependency names a step of the plan, no
    step depends on itself through the plan and every step is pending,
    completed or failed, the loop reaches [COMPLETED] or [FAILED] within
    as many passes as there are steps, plus one: each pass but the last
    finishes at least one step, and the last finds the ready set empty and
    sets the final status. *)
Theorem loop_ends_within_steps_plus_one :
  forall run clock now tx,
    steps_three_valued tx ->
    dependencies_closed (steps tx) ->
    acyclic (steps tx) ->
    exists n,
      n <= List.length (steps tx) + 1 /\
      (tx_status (processed run clock now n tx) = COMPLETED \/
       tx_status (processed run clock now n tx) = FAILED).
Proof.
  intros run clock now tx V C A; unfold processed.
  apply (loop_ends run clock (List.length (steps tx)) 0 (begin_processing now tx));
    auto.
  apply (pending_count_le (begin_processing now tx)).
Qed.

Lemma closed_check_sound :
  forall ss, closed_check ss = true -> dependencies_closed ss.
Proof.
  intros ss H s d Hs Hd; unfold closed_check in H.
  rewrite forallb_forall in H; specialize (H s Hs).
  rewrite forallb_forall in H; apply mem_string_In, H, Hd.
Qed.

Lemma ranked_check_sound :
  forall rank ss, ranked_check rank ss = true -> acyclic ss.
Proof.
  intros rank ss H; apply ranked_acyclic with rank.
  intros a b [s [Hs [<- Hb]]]; unfold ranked_check in H.
  rewrite forallb_forall in H; specialize (H s Hs).
  rewrite forallb_forall in H; apply Nat.ltb_lt, H, Hb.
Qed.

Lemma pending_three_valued :
  forall tx, (forall s, In s (steps tx) -> status s = PENDING) -> steps_three_valued tx.
Proof. intros tx H s Hs; left; auto. Qed.

Lemma run_loop_waiting :
  forall run clock n k tx,
    (forall now, loop_head now tx = Wait) -> run_loop run clock k n tx = tx.
Proof.
  intros run clock n; induction n as [| n IH]; intros k tx W; simpl; auto.
  unfold loop_iteration; rewrite W; apply IH, W.
Qed.

(** Scenario A: a purchase whose handlers all succeed ends within six
    passes. *)
Lemma sample_purchase_ends :
  exists n,
    n <= List.length (steps sample_purchase) + 1 /\
    (tx_status (processed always_ok sample_clock "t1" n sample_purchase) = COMPLETED \/
     tx_status (processed always_ok sample_clock "t1" n sample_purchase) = FAILED).
Proof.
  apply (loop_ends_within_steps_plus_one always_ok sample_clock "t1" sample_purchase).
  - apply pending_three_valued, sample_purchase_pending.
  - apply closed_check_sound; vm_compute; reflexivity.
  - apply ranked_check_sound with last_digit; vm_compute; reflexivity.
Defined.

(** C6 as stated fails.  A plan of one step without dependencies is not
    finished after one pass (that pass runs the step, the next one sets
    the final status); and a plan whose only step lists an id that is not
    a step has no cycle, yet its loop waits for ever. *)
Lemma loop_needs_more_passes_than_steps :
  (steps_three_valued single_step_plan /\
   dependencies_closed (steps single_step_plan) /\
   acyclic (steps single_step_plan) /\
   List.length (steps single_step_plan) = 1 /\
   tx_status (processed always_ok sample_clock "t1" 0 single_step_plan) = EXECUTING /\
   tx_status (processed always_ok sample_clock "t1" 1 single_step_plan) = EXECUTING) /\
  (steps_three_valued dangling_plan /\
   acyclic (steps dangling_plan) /\
   forall run clock n,
     tx_status (processed run clock "t1" n dangling_plan) = EXECUTING).
Proof.
  split; [ repeat split | repeat split ].
  - apply pending_three_valued; intros s Hs; apply has_status_true.
    revert s Hs; apply forallb_forall; vm_compute; reflexivity.
  - apply closed_check_sound; vm_compute; reflexivity.
  - apply ranked_check_sound with last_digit; vm_compute; reflexivity.
  - apply pending_three_valued; intros s Hs; apply has_status_true.
    revert s Hs; apply forallb_forall; vm_compute; reflexivity.
  - apply ranked_check_sound with last_digit; vm_compute; reflexivity.
  - intros run clock n; unfold processed; rewrite run_loop_waiting; auto.
Qed.

(** ** Dictionaries and the heap *)

Lemma dict_get_set_same :
  forall (V : Type) (k : string) (v : V) (d : dict V),
    dict_get k (dict_set k v d) = Some v.
Proof.
  intros V k v d; induction d as [| [k' v'] d IH]; simpl.
  - rewrite String.eqb_refl; reflexivity.
  - destruct (String.eqb k k') eqn:E; simpl; rewrite ?String.eqb_refl, ?E; auto.
Qed.

Lemma dict_get_set_other :
  forall (V : Type) (k k' : string) (v : V) (d : dict V),
    k' <> k -> dict_get k' (dict_set k v d) = dict_get k' d.
Proof.
  intros V k k' v d N; apply String.eqb_neq in N.
  induction d as [| [k0 v0] d IH]; simpl.
  - rewrite N; reflexivity.
  - destruct (String.eqb k k0) eqn:E; simpl.
    + apply String.eqb_eq in E; subst k0; rewrite N; reflexivity.
    + rewrite IH; reflexivity.
Qed.

Lemma dict_get_In :
  forall (V : Type) (k : string) (v : V) (d : dict V),
    dict_get k d = Some v -> In (k, v) d.
Proof.
  intros V k v d; induction d as [| [k' v'] d IH]; simpl; [ discriminate |].
  destruct (String.eqb k k') eqn:E; intros H.
  - apply String.eqb_eq in E; injection H as <-; subst; auto.
  - auto.
Qed.

Lemma dict_get_None :
  forall (V : Type) (k : string) (d : dict V),
    dict_get k d = None <-> ~ In k (dict_keys d).
Proof.
  intros V k d; induction d as [| [k' v'] d IH]; simpl; [ tauto |].
  destruct (String.eqb k k') eqn:E.
  - apply String.eqb_eq in E; subst; split; [ discriminate | intros H; elim H; auto ].
  - apply String.eqb_neq in E; rewrite IH; split; intros H; [ intros [L | L] |]; auto.
Qed.

Lemma In_dict_get :
  forall (V : Type) (k : string) (v : V) (d : dict V),
    NoDup (dict_keys d) -> In (k, v) d -> dict_get k d = Some v.
Proof.
  intros V k v d; induction d as [| [k' v'] d IH]; simpl; intros N H; [ destruct H |].
  inversion N as [| x l Nin N']; subst.
  destruct H as [H | H].
  - injection H as -> ->; rewrite String.eqb_refl; reflexivity.
  - destruct (String.eqb k k') eqn:E; auto.
    apply String.eqb_eq in E; subst; elim Nin.
    apply (in_map fst) in H; exact H.
Qed.

Lemma dict_del_subset :
  forall (V : Type) (k : string) (d : dict V) (e : string * V),
    In e (dict_del k d) -> In e d.
Proof.
  intros V k d; induction d as [| [k' v'] d IH]; simpl; intros e H; auto.
  destruct (String.eqb k k'); simpl in *; intuition.
Qed.

Lemma dict_del_keys :
  forall (V : Type) (k : string) (d : dict V),
    NoDup (dict_keys d) ->
    NoDup (dict_keys (dict_del k d)) /\ ~ In k (dict_keys (dict_del k d)).
Proof.
  intros V k d; induction d as [| [k' v'] d IH]; simpl; intros N.
  - split; [ constructor | tauto ].
  - inversion N as [| x l Nin N']; subst.
    destruct (String.eqb k k') eqn:E.
    + apply String.eqb_eq in E; subst; auto.
    + apply String.eqb_neq in E; destruct (IH N') as [N1 N2]; simpl; split.
      * constructor; auto; intros H; apply Nin.
        unfold dict_keys in *; apply in_map_iff in H; destruct H as [e [E1 E2]].
        apply in_map_iff; exists e; split; auto; eapply dict_del_subset; eauto.
      * intros [H | H]; auto.
Qed.

Lemma dict_del_other :
  forall (V : Type) (k : string) (d : dict V) (k' : string) (v : V),
    k' <> k -> In (k', v) d -> In (k', v) (dict_del k d).
Proof.
  intros V k d; induction d as [| [k0 v0] d IH]; simpl; intros k' v N H; auto.
  destruct (String.eqb k k0) eqn:E.
  - apply String.eqb_eq in E; subst; destruct H as [H | H]; auto.
    injection H as <- _; contradiction.
  - simpl; destruct H as [H | H]; auto.
Qed.

Lemma dict_set_In :
  forall (V : Type) (k : string) (v : V) (d : dict V) (e : string * V),
    In e (dict_set k v d) -> e = (k, v) \/ In e d.
Proof.
  intros V k v d; induction d as [| [k' v'] d IH]; simpl; intros e H.
  - destruct H as [<- | []]; auto.
  - destruct (String.eqb k k'); simpl in H; destruct H as [H | H]; auto.
    destruct (IH e H); auto.
Qed.

Lemma dict_set_fresh :
  forall (V : Type) (k : string) (v : V) (d : dict V),
    ~ In k (dict_keys d) -> dict_set k v d = d ++ [(k, v)].
Proof.
  intros V k v d; induction d as [| [k' v'] d IH]; simpl; intros N; auto.
  destruct (String.eqb k k') eqn:E.
  - apply String.eqb_eq in E; subst; elim N; auto.
  - rewrite IH; auto.
Qed.

Lemma nth_error_update_nth_same :
  forall (A : Type) (l : list A) (n : nat) (x y : A),
    nth_error l n = Some y -> nth_error (update_nth n x l) n = Some x.
Proof.
  intros A l; induction l as [| a l IH]; intros [| n] x y H; simpl in *;
    try discriminate; eauto.
Qed.

Lemma nth_error_update_nth_other :
  forall (A : Type) (l : list A) (n m : nat) (x : A),
    n <> m -> nth_error (update_nth n x l) m = nth_error l m.
Proof.
  intros A l; induction l as [| a l IH]; intros [| n] [| m] x H; simpl; auto;
    congruence.
Qed.

Lemma length_update_nth :
  forall (A : Type) (l : list A) (n : nat) (x : A),
    List.length (update_nth n x l) = List.length l.
Proof.
  intros A l; induction l as [| a l IH]; intros [| n] x; simpl; auto.
Qed.

Lemma nth_error_snoc :
  forall (A : Type) (l : list A) (x : A), nth_error (l ++ [x]) (List.length l) = Some x.
Proof.
  intros A l x; rewrite nth_error_app2 by lia; rewrite Nat.sub_diag; reflexivity.
Qed.

(** ** Initiating a purchase *)

(** C8.  [initiate_nft_purchase] returns the id ["tx_" ++ hex], registers
    under it in the active set a new pending transaction of exactly five
    pending steps: valuation and authenticity without dependencies, escrow
    depending on both, transfer on escrow, finalization on transfer. *)
Theorem purchase_plan_has_five_steps :
  forall hex now buyer seller nft price metadata c,
    fst (initiate_nft_purchase hex now buyer seller nft price metadata c) =
      ("tx_" ++ hex)%string /\
    exists tx,
      find_transaction ("tx_" ++ hex)
        (snd (initiate_nft_purchase hex now buyer seller nft price metadata c)) =
        Some tx /\
      transaction_id tx = ("tx_" ++ hex)%string /\
      tx_status tx = PENDING /\
      map (fun s => (step_id s, action s, status s, dependencies s)) (steps tx) =
        [ (("tx_" ++ hex ++ "_step_1")%string, "verify_valuation", PENDING, []);
          (("tx_" ++ hex ++ "_step_2")%string, "verify_authenticity", PENDING, []);
          (("tx_" ++ hex ++ "_step_3")%string, "setup_escrow", PENDING,
           [ ("tx_" ++ hex ++ "_step_1")%string; ("tx_" ++ hex ++ "_step_2")%string ]);
          (("tx_" ++ hex ++ "_step_4")%string, "execute_transfer", PENDING,
           [ ("tx_" ++ hex ++ "_step_3")%string ]);
          (("tx_" ++ hex ++ "_step_5")%string, "finalize_transaction", PENDING,
           [ ("tx_" ++ hex ++ "_step_4")%string ]) ].
Proof.
  intros hex now buyer seller nft price metadata c; split; [ reflexivity |].
  exists (new_purchase ("tx_" ++ hex) now buyer seller nft price metadata).
  split; [| repeat split ].
  unfold find_transaction, initiate_nft_purchase; cbn [snd _save_transaction_data
    active_transactions heap deref].
  rewrite dict_get_set_same; apply nth_error_snoc.
Qed.

(** ** The status query *)

(** C9, as amended.  For an id found in the active set, or else in the
    history, whose transaction has at least one step, the query returns a
    dictionary with the twelve keys of [report_keys]: among them the
    current status, the progress as completed/total, the percentage and
    the ready steps; the transaction's metadata is not part of it.  For an
    id in neither collection it returns [None], without raising. *)
Theorem status_report_fields :
  forall tid c,
    (forall ref, dict_get tid (active_transactions c) = Some ref ->
                 find_transaction tid c = deref c ref) /\
    (dict_get tid (active_transactions c) = None ->
     find_transaction tid c =
       find (fun t => String.eqb (transaction_id t) tid) (history_objects c)) /\
    (dict_get tid (active_transactions c) = None ->
     (forall tx, In tx (history_objects c) -> transaction_id tx <> tid) ->
     get_transaction_status tid c = Value None) /\
    (forall tx,
        find_transaction tid c = Some tx -> steps tx <> [] ->
        exists d,
          get_transaction_status tid c = Value (Some d) /\
          dict_keys d = report_keys /\
          dict_get "status" d = Some (PStr (status_value (tx_status tx))) /\
          dict_get "progress" d =
            Some (PStr (string_of_nat
                          (List.length (filter (has_status COMPLETED) (steps tx))) ++
                        "/" ++ string_of_nat (List.length (steps tx)))) /\
          dict_get "progress_percentage" d =
            Some (PFloat
                    (PrimFloat.mul
                       (PrimFloat.div
                          (float_of_nat
                             (List.length (filter (has_status COMPLETED) (steps tx))))
                          (float_of_nat (List.length (steps tx))))
                       100%float)) /\
          dict_get "next_steps" d =
            Some (PList (map next_step_entry (get_next_pending_steps tx))) /\
          dict_get "metadata" d = None).
Proof.
  intros tid c; split; [| split; [| split ]].
  - intros ref H; unfold find_transaction; rewrite H; reflexivity.
  - intros H; unfold find_transaction; rewrite H; reflexivity.
  - intros H N; unfold get_transaction_status, find_transaction; rewrite H.
    destruct (find _ (history_objects c)) as [tx |] eqn:F; auto.
    apply find_some in F; destruct F as [F1 F2].
    apply String.eqb_eq in F2; elim (N tx F1 F2).
  - intros tx F NE; exists (status_report tx); split.
    + unfold get_transaction_status; rewrite F.
      destruct (steps tx); [ congruence | reflexivity ].
    + repeat split.
Qed.

(** C9 as stated fails on the metadata: the report on a purchase created
    with metadata has none of it. *)
Lemma status_report_omits_metadata :
  exists tx d,
    find_transaction "tx_00000001" purchase_with_metadata = Some tx /\
    metadata tx = [("note", PStr "gift")] /\
    get_transaction_status "tx_00000001" purchase_with_metadata = Value (Some d) /\
    dict_keys d = report_keys /\
    dict_mem "metadata" d = false.
Proof.
  exists (new_purchase "tx_00000001" "t0" "B" "S" "X" 100%float
            (Some [("note", PStr "gift")])).
  exists (status_report (new_purchase "tx_00000001" "t0" "B" "S" "X" 100%float
                           (Some [("note", PStr "gift")]))).
  repeat split.
Qed.

(** ** Cancelling *)

Lemma cancel_transaction_absent :
  forall now tid reason c,
    dict_get tid (active_transactions c) = None ->
    cancel_transaction now tid reason c = (false, c).
Proof. intros now tid reason c H; unfold cancel_transaction; rewrite H; reflexivity. Qed.

Lemma cancel_transaction_finished :
  forall now tid reason c ref tx,
    dict_get tid (active_transactions c) = Some ref -> deref c ref = Some tx ->
    tx_status tx = COMPLETED \/ tx_status tx = FAILED ->
    cancel_transaction now tid reason c = (false, c).
Proof.
  intros now tid reason c ref tx H D T; unfold cancel_transaction; rewrite H, D.
  destruct T as [-> | ->]; reflexivity.
Qed.

Lemma cancel_transaction_open :
  forall now tid reason c ref tx,
    dict_get tid (active_transactions c) = Some ref -> deref c ref = Some tx ->
    tx_status tx <> COMPLETED -> tx_status tx <> FAILED ->
    cancel_transaction now tid reason c =
      (true,
       _save_transaction_data
         (move_to_history tid ref
            (set_heap (update_nth ref (cancelled now reason tx) (heap c)) c))).
Proof.
  intros now tid reason c ref tx H D N1 N2; unfold cancel_transaction; rewrite H, D.
  apply status_eqb_neq in N1, N2; rewrite N1, N2; reflexivity.
Qed.

(** C4, as amended.  [cancel_transaction] returns failure and changes
    nothing when the id is not a key of the active set (an unknown id, or
    a transaction already moved to the history, cancelled ones included)
    and when the active transaction is [COMPLETED] or [FAILED]; in every
    other case it sets the status to [CANCELLED], stamps [updated_at],
    stores the reason under ["cancellation_reason"], takes the key out of
    the active set, appends the transaction to the history, rewrites the
    snapshot and returns success.  A failed call never changes anything. *)
Theorem cancel_fails_unless_active_and_open :
  forall now tid reason c,
    (dict_get tid (active_transactions c) = None ->
     cancel_transaction now tid reason c = (false, c)) /\
    (forall ref tx,
        dict_get tid (active_transactions c) = Some ref ->
        deref c ref = Some tx ->
        (tx_status tx = COMPLETED \/ tx_status tx = FAILED ->
         cancel_transaction now tid reason c = (false, c)) /\
        (tx_status tx <> COMPLETED -> tx_status tx <> FAILED ->
         fst (cancel_transaction now tid reason c) = true /\
         deref (snd (cancel_transaction now tid reason c)) ref =
           Some (cancelled now reason tx) /\
         tx_status (cancelled now reason tx) = CANCELLED /\
         updated_at (cancelled now reason tx) = now /\
         dict_get "cancellation_reason" (metadata (cancelled now reason tx)) =
           Some (PStr reason) /\
         active_transactions (snd (cancel_transaction now tid reason c)) =
           dict_del tid (active_transactions c) /\
         (NoDup (dict_keys (active_transactions c)) ->
          dict_get tid (active_transactions (snd (cancel_transaction now tid reason c))) =
            None) /\
         transaction_history (snd (cancel_transaction now tid reason c)) =
           transaction_history c ++ [ref] /\
         data_file (snd (cancel_transaction now tid reason c)) =
           Some (map transaction_to_record
                   (all_transactions (snd (cancel_transaction now tid reason c)))))) /\
    (fst (cancel_transaction now tid reason c) = false ->
     snd (cancel_transaction now tid reason c) = c).
Proof.
  intros now tid reason c; split; [| split ].
  - apply cancel_transaction_absent.
  - intros ref tx H D; split.
    + apply (cancel_transaction_finished now tid reason c ref tx H D).
    + intros N1 N2; rewrite (cancel_transaction_open now tid reason c ref tx H D N1 N2).
      cbn [fst snd]; repeat split.
      * unfold deref; cbn; eapply nth_error_update_nth_same; exact D.
      * apply dict_get_set_same.
      * intros N; cbn; apply dict_get_None.
        exact (proj2 (dict_del_keys nat tid (active_transactions c) N)).
  - unfold cancel_transaction.
    destruct (dict_get tid (active_transactions c)) as [ref |]; auto.
    destruct (deref c ref) as [tx |]; auto.
    destruct (status_eqb (tx_status tx) COMPLETED || status_eqb (tx_status tx) FAILED);
      auto; cbn; discriminate.
Qed.

(** C4 as stated fails: cancelling fails although the transaction is
    neither completed nor failed when it has been cancelled before, and
    when there is no transaction of that id at all. *)
Lemma cancel_fails_on_cancelled_and_unknown :
  (fst (cancel_transaction "t2" "tx_00000001" "again" (coordinator cancelled_early)) =
     false /\
   exists tx,
     find_transaction "tx_00000001" (coordinator cancelled_early) = Some tx /\
     tx_status tx = CANCELLED) /\
  (fst (cancel_transaction "t2" "tx_unknown" "x" (start_coordinator None)) = false /\
   find_transaction "tx_unknown" (start_coordinator None) = None).
Proof.
  split; split.
  - vm_compute; reflexivity.
  - eexists; split; [ vm_compute; reflexivity | reflexivity ].
  - reflexivity.
  - reflexivity.
Qed.

(** ** Saving and loading *)

Lemma status_of_value_value : forall st, status_of_value (status_value st) = Some st.
Proof. intros []; reflexivity. Qed.

Lemma type_of_value_value : forall ty, type_of_value (type_value ty) = Some ty.
Proof. intros []; reflexivity. Qed.

Lemma steps_of_records_to_record :
  forall md ss,
    steps_of_records (map (step_to_record md) ss) = Some (map (unshare_step md) ss).
Proof.
  intros md ss; induction ss as [| s ss IH]; simpl; auto.
  unfold step_of_record at 1; cbn [step_to_record r_status].
  rewrite status_of_value_value, IH; cbn.
  unfold unshare_step; rewrite map_map; reflexivity.
Qed.

Lemma transaction_of_to_record :
  forall tx, transaction_of_record (transaction_to_record tx) = Some (unshare tx).
Proof.
  intros tx; unfold transaction_of_record; cbn.
  rewrite type_of_value_value, status_of_value_value, steps_of_records_to_record.
  reflexivity.
Qed.





Lemma active_objects_ids :
  forall c, active_keyed c ->
    map transaction_id (active_objects c) = dict_keys (active_transactions c) /\
    (forall tx, In tx (active_objects c) -> is_active_status (tx_status tx) = true).
Proof.
  intros c; unfold active_keyed, active_objects, deref.
  generalize (heap c) as h; intros h.
  induction (active_transactions c) as [| [k ref] d IH]; intros K; simpl.
  - split; [ reflexivity | intros tx [] ].
  - destruct (K k ref (or_introl eq_refl)) as [tx [D [E A]]].
    destruct IH as [I1 I2]; [ intros; apply K; right; assumption |].
    unfold objects in *; simpl; rewrite D; simpl; split.
    + f_equal; assumption.
    + intros t [<- | Ht]; auto.
Qed.



Lemma distinct_strings_sound : forall l, distinct_strings l = true -> NoDup l.
Proof.
  intros l; induction l as [| x l IH]; cbn [distinct_strings]; intros H;
    constructor; apply andb_true_iff in H; destruct H as [H1 H2]; auto.
  intros M; pose proof (proj2 (mem_string_In x l) M) as M'.
  rewrite M' in H1; discriminate.
Qed.



(** ** Step statuses *)

Lemma In_update_nth :
  forall (A : Type) (l : list A) (n : nat) (x y : A),
    In y (update_nth n x l) -> y = x \/ In y l.
Proof.
  intros A l; induction l as [| a l IH]; intros [| n] x y H; simpl in *; auto.
  - destruct H as [H | H]; auto.
  - destruct H as [H | H]; auto.
    destruct (IH n x y H); auto.
Qed.

Lemma three_valued_update :
  forall c h ref tx',
    three_valued_heap c -> steps_three_valued tx' ->
    h = update_nth ref tx' (heap c) ->
    forall a hs f, three_valued_heap (mkCoordinator h a hs f).
Proof.
  intros c h ref tx' V V' -> a hs f tx H; cbn in H.
  apply In_update_nth in H; destruct H as [-> | H]; auto.
Qed.

Lemma three_valued_alloc :
  forall c tx,
    three_valued_heap c -> steps_three_valued tx ->
    forall a hs f, three_valued_heap (mkCoordinator (heap c ++ [tx]) a hs f).
Proof.
  intros c tx V V' a hs f t H; cbn in H; apply in_app_iff in H.
  destruct H as [H | [<- | []]]; auto.
Qed.

Lemma deref_In : forall c ref tx, deref c ref = Some tx -> In tx (heap c).
Proof. intros c ref tx H; apply nth_error_In with ref; exact H. Qed.

Lemma record_results_three_valued :
  forall run ss ready,
    (forall s, In s ss -> step_status_ok (status s)) ->
    forall s, In s (record_results run ss ready) -> step_status_ok (status s).
Proof.
  intros run ss; induction ss as [| a ss IH]; intros ready V s H; simpl in H.
  - destruct H.
  - destruct ready as [| b ready]; [ apply V; exact H |].
    destruct H as [<- | H].
    + destruct b; [| apply V; left; reflexivity ].
      unfold step_status_ok; destruct (run a); simpl; auto.
    + apply (IH ready); auto; intros x Hx; apply V; right; exact Hx.
Qed.

Lemma after_batch_three_valued :
  forall run now tx ready,
    steps_three_valued tx -> steps_three_valued (after_batch run now tx ready).
Proof.
  intros run now tx ready V s H; cbn in H.
  apply (record_results_three_valued run (steps tx) ready V s H).
Qed.

Lemma loop_head_terminal :
  forall now tx tx',
    loop_head now tx = Terminal tx' ->
    tx_status tx = EXECUTING /\
    transaction_id tx' = transaction_id tx /\
    steps tx' = steps tx /\
    (tx_status tx' = COMPLETED \/ tx_status tx' = FAILED).
Proof.
  intros now tx tx' H; unfold loop_head in H.
  destruct (status_eqb (tx_status tx) EXECUTING) eqn:E; [| discriminate ].
  apply status_eqb_eq in E.
  destruct (get_next_pending_steps tx); [| discriminate ].
  destruct (filter (has_status FAILED) (steps tx)).
  - destruct (Nat.eqb _ _); [| discriminate ].
    injection H as <-; cbn; auto.
  - injection H as <-; cbn; auto.
Qed.

Lemma loop_head_running :
  forall now tx,
    (loop_head now tx = Wait \/ exists ready, loop_head now tx = Launch ready) ->
    tx_status tx = EXECUTING.
Proof.
  intros now tx H; unfold loop_head in H.
  destruct (status_eqb (tx_status tx) EXECUTING) eqn:E.
  - apply status_eqb_eq; exact E.
  - destruct H as [H | [ready H]]; discriminate.
Qed.

Lemma loop_head_exit :
  forall now tx, loop_head now tx = Exit -> tx_status tx <> EXECUTING.
Proof.
  intros now tx H; unfold loop_head in H.
  destruct (status_eqb (tx_status tx) EXECUTING) eqn:E.
  - destruct (get_next_pending_steps tx); [| discriminate ].
    destruct (filter (has_status FAILED) (steps tx)); [| discriminate ].
    destruct (Nat.eqb _ _); discriminate.
  - apply status_eqb_neq; exact E.
Qed.

Lemma finish_processing_three_valued :
  forall now tid ref c,
    three_valued_heap c -> three_valued_heap (finish_processing now tid ref c).
Proof.
  intros now tid ref c V; unfold finish_processing.
  destruct (deref c ref) as [tx |] eqn:D; auto.
  destruct (status_eqb (tx_status tx) COMPLETED || status_eqb (tx_status tx) FAILED);
    auto.
  destruct (dict_mem tid (active_transactions c)); [ exact V |].
  apply (three_valued_update c _ ref (set_updated_at now (set_tx_status FAILED tx)));
    auto.
  apply (V tx), (deref_In c ref tx D).
Qed.

Lemma loop_block_three_valued :
  forall now tid ref c,
    three_valued_heap c -> three_valued_heap (fst (loop_block now tid ref c)).
Proof.
  intros now tid ref c V; unfold loop_block.
  destruct (deref c ref) as [tx |] eqn:D; auto.
  destruct (loop_head now tx) as [| tx' | | ready] eqn:L; cbn [fst]; auto.
  - apply finish_processing_three_valued; exact V.
  - apply finish_processing_three_valued.
    apply (three_valued_update c _ ref tx'); auto.
    apply loop_head_terminal in L; destruct L as [_ [_ [S _]]].
    intros s Hs; rewrite S in Hs; apply (V tx (deref_In c ref tx D) s Hs).
Qed.

Lemma resume_three_valued :
  forall run now t c,
    three_valued_heap c -> three_valued_heap (fst (resume run now t c)).
Proof.
  intros run now t c V; destruct t as [tid | tid ref | tid ref ready |]; cbn [resume].
  - unfold start_block.
    destruct (dict_get tid (active_transactions c)) as [ref |]; auto.
    destruct (deref c ref) as [tx |] eqn:D; auto.
    apply loop_block_three_valued.
    apply (three_valued_update c _ ref (begin_processing now tx)); auto.
    apply (V tx), (deref_In c ref tx D).
  - apply loop_block_three_valued; exact V.
  - unfold batch_block.
    destruct (deref c ref) as [tx |] eqn:D; auto; cbn [fst].
    apply (three_valued_update c _ ref (after_batch run now tx ready)); auto.
    apply after_batch_three_valued, (V tx), (deref_In c ref tx D).
  - exact V.
Qed.

Lemma new_purchase_pending :
  forall tid now buyer seller nft price md s,
    In s (steps (new_purchase tid now buyer seller nft price md)) -> status s = PENDING.
Proof.
  intros tid now buyer seller nft price md s H; cbn in H.
  repeat (destruct H as [<- | H]; [ reflexivity |]); destruct H.
Qed.

Lemma new_listing_pending :
  forall tid now seller nft price md s,
    In s (steps (new_listing tid now seller nft price md)) -> status s = PENDING.
Proof.
  intros tid now seller nft price md s H; cbn in H.
  repeat (destruct H as [<- | H]; [ reflexivity |]); destruct H.
Qed.

Lemma perform_three_valued :
  forall e s,
    three_valued_heap (coordinator s) -> three_valued_heap (coordinator (perform e s)).
Proof.
  intros e s V; destruct e as [hex now b sl nft price md | hex now sl nft price md
                               | now tid reason | i now run]; cbn [perform].
  - cbn; apply three_valued_alloc; auto.
    apply pending_three_valued, new_purchase_pending.
  - cbn; apply three_valued_alloc; auto.
    apply pending_three_valued, new_listing_pending.
  - cbn [coordinator]; unfold cancel_transaction.
    destruct (dict_get tid (active_transactions (coordinator s))) as [ref |]; auto.
    destruct (deref (coordinator s) ref) as [tx |] eqn:D; auto.
    destruct (status_eqb (tx_status tx) COMPLETED || status_eqb (tx_status tx) FAILED);
      auto; cbn [snd].
    apply (three_valued_update (coordinator s) _ ref
             (set_metadata
                (dict_set "cancellation_reason" (PStr reason) (metadata tx))
                (set_updated_at now (set_tx_status CANCELLED tx)))); auto.
    apply (V tx), (deref_In _ ref tx D).
  - destruct (nth_error (tasks s) i) as [t |]; auto.
    pose proof (resume_three_valued run now t (coordinator s) V) as R.
    destruct (resume run now t (coordinator s)) as [c t']; exact R.
Qed.

Lemma perform_all_three_valued :
  forall es s,
    three_valued_heap (coordinator s) ->
    three_valued_heap (coordinator (perform_all es s)).
Proof.
  intros es; induction es as [| e es IH]; intros s V; simpl; auto.
  apply IH, perform_three_valued, V.
Qed.

(** C10.  Whatever the clients and the tasks do, in whatever order, every
    step of every transaction created by the two initiation operations is
    pending, completed or failed: steps are created pending and the only
    assignment to a step status is the one that records the outcome of a
    batch, which writes [COMPLETED] or [FAILED]. *)
Theorem step_status_is_three_valued :
  forall es,
    Forall (fun tx => Forall (fun s => step_status_ok (status s)) (steps tx))
      (heap (coordinator (perform_all es initial_system))).
Proof.
  intros es; apply Forall_forall; intros tx Ht; apply Forall_forall; intros s Hs.
  apply (perform_all_three_valued es initial_system) with tx; auto.
  intros t [].
Qed.

(** ** Consistency of the coordinator with its tasks *)

Lemma nth_error_update_nth_cases :
  forall (A : Type) (l : list A) (i j : nat) (x y : A),
    nth_error (update_nth i x l) j = Some y ->
    (j = i /\ y = x) \/ (j <> i /\ nth_error l j = Some y).
Proof.
  intros A l; induction l as [| a l IH]; intros [| i] [| j] x y H; simpl in *;
    try discriminate; auto.
  - injection H as <-; auto.
  - destruct (IH i j x y H) as [[-> ->] | [N E]]; auto.
Qed.

Lemma map_update_nth_same :
  forall (A B : Type) (f : A -> B) (l : list A) (n : nat) (x y : A),
    nth_error l n = Some y -> f x = f y -> map f (update_nth n x l) = map f l.
Proof.
  intros A B f l; induction l as [| a l IH]; intros [| n] x y H E; simpl in *;
    try discriminate; auto.
  - injection H as ->; rewrite E; reflexivity.
  - rewrite (IH n x y H E); reflexivity.
Qed.

Lemma consistent_ext :
  forall s s',
    heap (coordinator s) = heap (coordinator s') ->
    active_transactions (coordinator s) = active_transactions (coordinator s') ->
    transaction_history (coordinator s) = transaction_history (coordinator s') ->
    tasks s = tasks s' ->
    consistent s -> consistent s'.
Proof.
  intros s s' H A Hi T [C1 C2 C3 C4 C5 C6 C7 C8].
  constructor; unfold deref in *; rewrite <- ?H, <- ?A, <- ?Hi, <- ?T; assumption.
Qed.

Lemma ids_distinct_refs :
  forall s ref ref' tx tx',
    consistent s ->
    deref (coordinator s) ref = Some tx -> deref (coordinator s) ref' = Some tx' ->
    transaction_id tx = transaction_id tx' -> ref = ref'.
Proof.
  intros s ref ref' tx tx' C D D' E.
  pose proof (ids_distinct C) as N; unfold deref in *.
  apply (proj1 (NoDup_nth_error (map transaction_id (heap (coordinator s)))) N).
  - apply nth_error_Some; rewrite (map_nth_error transaction_id _ _ D); discriminate.
  - rewrite (map_nth_error transaction_id _ _ D), (map_nth_error transaction_id _ _ D').
    congruence.
Qed.

Lemma active_not_history :
  forall s k ref,
    consistent s ->
    In (k, ref) (active_transactions (coordinator s)) ->
    ~ In ref (transaction_history (coordinator s)).
Proof.
  intros s k ref C A H.
  destruct (active_sound C k ref A) as [tx [D [_ S]]].
  destruct (history_sound C ref H) as [tx' [D' T]].
  rewrite D in D'; injection D' as <-.
  destruct T as [T | [T | T]]; rewrite T in S; discriminate.
Qed.

Lemma running_is_active :
  forall s ref tx,
    consistent s -> deref (coordinator s) ref = Some tx ->
    is_active_status (tx_status tx) = true ->
    In (transaction_id tx, ref) (active_transactions (coordinator s)).
Proof.
  intros s ref tx C D A.
  destruct (objects_located C ref tx D) as [L | L]; auto.
  destruct (history_sound C ref L) as [tx' [D' T]].
  rewrite D in D'; injection D' as <-.
  destruct T as [T | [T | T]]; rewrite T in A; discriminate.
Qed.

(** Replacing an object by one of the same id whose status stays on the
    same side. *)
Lemma consistent_update :
  forall s ref tx tx' f,
    consistent s ->
    deref (coordinator s) ref = Some tx ->
    transaction_id tx' = transaction_id tx ->
    (is_active_status (tx_status tx) = true ->
     is_active_status (tx_status tx') = true) ->
    (terminal_status (tx_status tx) -> terminal_status (tx_status tx')) ->
    (tx_status tx = EXECUTING \/ tx_status tx = CANCELLED ->
     tx_status tx' = EXECUTING \/ tx_status tx' = CANCELLED) ->
    consistent
      (mkSystem
         (mkCoordinator (update_nth ref tx' (heap (coordinator s)))
            (active_transactions (coordinator s))
            (transaction_history (coordinator s)) f)
         (tasks s)).
Proof.
  intros s ref tx tx' f C D E HA HT HR.
  assert (U : forall r t,
             nth_error (update_nth ref tx' (heap (coordinator s))) r = Some t ->
             (r = ref /\ t = tx') \/ (r <> ref /\ deref (coordinator s) r = Some t))
    by (intros r t; apply nth_error_update_nth_cases).
  assert (S : forall r, r = ref ->
             nth_error (update_nth ref tx' (heap (coordinator s))) r = Some tx')
    by (intros r ->; apply nth_error_update_nth_same with tx; exact D).
  assert (O : forall r, r <> ref ->
             nth_error (update_nth ref tx' (heap (coordinator s))) r =
             deref (coordinator s) r)
    by (intros r N; apply nth_error_update_nth_other; auto).
  constructor; unfold deref; cbn.
  - apply (keys_distinct C).
  - rewrite (map_update_nth_same _ _ transaction_id _ ref tx' tx D E).
    apply (ids_distinct C).
  - intros k r H; destruct (active_sound C k r H) as [t [Dt [Et At]]].
    destruct (Nat.eq_dec r ref) as [-> | N].
    + rewrite D in Dt; injection Dt as <-; exists tx'; rewrite S; auto.
      repeat split; auto; congruence.
    + exists t; rewrite O; auto.
  - intros r H; destruct (history_sound C r H) as [t [Dt Tt]].
    destruct (Nat.eq_dec r ref) as [-> | N].
    + rewrite D in Dt; injection Dt as <-; exists tx'; rewrite S; auto.
    + exists t; rewrite O; auto.
  - intros r t H; destruct (U r t H) as [[-> ->] | [N Dt]].
    + rewrite E; apply (objects_located C ref tx D).
    + apply (objects_located C r t Dt).
  - rewrite (map_update_nth_same _ _ transaction_id _ ref tx' tx D E).
    apply (tasks_known C).
  - intros t r H R; destruct (tasks_sound C t r H R) as [x [Dx [Tx Sx]]].
    destruct (Nat.eq_dec r ref) as [-> | N].
    + rewrite D in Dx; injection Dx as <-; exists tx'; rewrite S; auto.
      repeat split; auto; congruence.
    + exists x; rewrite O; auto.
  - apply (tasks_distinct C).
Qed.

(** Giving an active object a final status and moving it to the history. *)
Lemma consistent_retire :
  forall s tid ref tx tx' f,
    consistent s ->
    In (tid, ref) (active_transactions (coordinator s)) ->
    deref (coordinator s) ref = Some tx ->
    transaction_id tx' = transaction_id tx ->
    terminal_status (tx_status tx') ->
    (forall t, In t (tasks s) -> task_ref t = Some ref ->
               tx_status tx' = EXECUTING \/ tx_status tx' = CANCELLED) ->
    consistent
      (mkSystem
         (mkCoordinator (update_nth ref tx' (heap (coordinator s)))
            (dict_del tid (active_transactions (coordinator s)))
            (transaction_history (coordinator s) ++ [ref]) f)
         (tasks s)).
Proof.
  intros s tid ref tx tx' f C A D E T R.
  destruct (active_sound C tid ref A) as [tx0 [D0 [Etid _]]].
  rewrite D in D0; injection D0 as <-.
  assert (U : forall r t,
             nth_error (update_nth ref tx' (heap (coordinator s))) r = Some t ->
             (r = ref /\ t = tx') \/ (r <> ref /\ deref (coordinator s) r = Some t))
    by (intros r t; apply nth_error_update_nth_cases).
  assert (S : nth_error (update_nth ref tx' (heap (coordinator s))) ref = Some tx')
    by (apply nth_error_update_nth_same with tx; exact D).
  assert (O : forall r, r <> ref ->
             nth_error (update_nth ref tx' (heap (coordinator s))) r =
             deref (coordinator s) r)
    by (intros r N; apply nth_error_update_nth_other; auto).
  destruct (dict_del_keys nat tid _ (keys_distinct C)) as [K1 K2].
  assert (NR : forall k r, In (k, r) (dict_del tid (active_transactions (coordinator s))) ->
                           k <> tid /\ r <> ref).
  { intros k r H; assert (k <> tid).
    { intros ->; apply K2; apply (in_map fst) in H; exact H. }
    split; auto; intros ->; apply dict_del_subset in H.
    destruct (active_sound C k ref H) as [t [Dt [Et _]]].
    rewrite D in Dt; injection Dt as <-; congruence. }
  constructor; unfold deref; cbn.
  - exact K1.
  - rewrite (map_update_nth_same _ _ transaction_id _ ref tx' tx D E).
    apply (ids_distinct C).
  - intros k r H; destruct (NR k r H) as [_ N]; rewrite O by exact N.
    apply (active_sound C), (dict_del_subset _ _ _ _ H).
  - intros r H; apply in_app_iff in H; destruct H as [H | [<- | []]].
    + assert (N : r <> ref).
      { intros ->; apply (active_not_history s tid ref C A H). }
      rewrite O by exact N; apply (history_sound C r H).
    + exists tx'; auto.
  - intros r t H; rewrite in_app_iff; destruct (U r t H) as [[-> ->] | [N Dt]].
    + right; right; left; reflexivity.
    + destruct (objects_located C r t Dt) as [L | L]; auto.
      left; apply dict_del_other; auto; intros Et.
      apply N, (ids_distinct_refs s r ref t tx C Dt D); congruence.
  - rewrite (map_update_nth_same _ _ transaction_id _ ref tx' tx D E).
    apply (tasks_known C).
  - intros t r H Rt; destruct (tasks_sound C t r H Rt) as [x [Dx [Tx Sx]]].
    destruct (Nat.eq_dec r ref) as [-> | N].
    + rewrite D in Dx; injection Dx as <-; exists tx'; rewrite S.
      repeat split; auto; [ congruence | destruct (R t H Rt); auto ].
    + exists x; rewrite O; auto.
  - apply (tasks_distinct C).
Qed.

(** Changing what one task is doing. *)
Lemma consistent_set_task :
  forall s i t t',
    consistent s ->
    nth_error (tasks s) i = Some t ->
    (forall tid, task_tid t' = Some tid -> task_tid t = Some tid) ->
    (forall ref, task_ref t' = Some ref ->
       exists tx, deref (coordinator s) ref = Some tx /\
                  task_tid t' = Some (transaction_id tx) /\
                  (tx_status tx = EXECUTING \/ tx_status tx = CANCELLED)) ->
    consistent (mkSystem (coordinator s) (update_nth i t' (tasks s))).
Proof.
  intros s i t t' C Hi T R; constructor; cbn;
    try solve [ apply C ].
  - intros x tid H X; apply In_update_nth in H; destruct H as [-> | H].
    + apply (tasks_known C t tid); [ apply nth_error_In with i; exact Hi | auto ].
    + apply (tasks_known C x tid H X).
  - intros x ref H X; apply In_update_nth in H; destruct H as [-> | H]; auto.
    apply (tasks_sound C x ref H X).
  - intros a b x y tid Ha Hb Xa Xb.
    apply nth_error_update_nth_cases in Ha, Hb.
    destruct Ha as [[-> ->] | [Na Ha]], Hb as [[-> ->] | [Nb Hb]]; auto.
    + apply (tasks_distinct C i b t y tid); auto.
    + apply (tasks_distinct C a i x t tid); auto.
    + apply (tasks_distinct C a b x y tid); auto.
Qed.

(** Registering a new pending transaction under a fresh id, with the
    task that will process it. *)
Lemma consistent_alloc :
  forall s tid tx f,
    consistent s ->
    ~ In tid (map transaction_id (heap (coordinator s))) ->
    transaction_id tx = tid -> tx_status tx = PENDING ->
    consistent
      (mkSystem
         (mkCoordinator (heap (coordinator s) ++ [tx])
            (dict_set tid (List.length (heap (coordinator s)))
               (active_transactions (coordinator s)))
            (transaction_history (coordinator s)) f)
         (tasks s ++ [Created tid])).
Proof.
  intros s tid tx f C F E P.
  assert (NK : ~ In tid (dict_keys (active_transactions (coordinator s)))).
  { intros H; unfold dict_keys in H; apply in_map_iff in H.
    destruct H as [[k r] [Ek H]]; cbn in Ek; subst k.
    destruct (active_sound C tid r H) as [t [Dt [Et _]]].
    apply F; rewrite <- Et; apply in_map, (deref_In _ r t Dt). }
  assert (O : forall r t, deref (coordinator s) r = Some t ->
                nth_error (heap (coordinator s) ++ [tx]) r = Some t).
  { intros r t H; rewrite nth_error_app1; auto.
    apply nth_error_Some; unfold deref in H; congruence. }
  rewrite dict_set_fresh by exact NK.
  constructor; unfold deref; cbn.
  - unfold dict_keys; rewrite map_app; cbn; fold (dict_keys (active_transactions (coordinator s))).
    apply NoDup_app; repeat split.
    + apply (keys_distinct C).
    + constructor; [ intros [] | constructor ].
    + intros x Hx [<- | []]; contradiction.
  - rewrite map_app; cbn; apply NoDup_app; repeat split.
    + apply (ids_distinct C).
    + constructor; [ intros [] | constructor ].
    + intros x Hx [<- | []]; subst; contradiction.
  - intros k r H; apply in_app_iff in H; destruct H as [H | [H | []]].
    + destruct (active_sound C k r H) as [t [Dt Rest]]; exists t; split; auto.
    + injection H as <- <-; exists tx; rewrite nth_error_snoc, P; auto.
  - intros r H; destruct (history_sound C r H) as [t [Dt Rest]]; exists t; auto.
  - intros r t H; rewrite in_app_iff.
    destruct (Nat.lt_ge_cases r (List.length (heap (coordinator s)))) as [L | L].
    + rewrite nth_error_app1 in H by exact L.
      destruct (objects_located C r t H); auto.
    + rewrite nth_error_app2 in H by exact L.
      destruct (r - List.length (heap (coordinator s))) as [| d] eqn:Q; cbn in H.
      * injection H as <-; left; right; left; f_equal; [ auto | lia ].
      * destruct d; discriminate.
  - intros t k H X; rewrite map_app, in_app_iff.
    apply in_app_iff in H; destruct H as [H | [<- | []]].
    + left; apply (tasks_known C t k H X).
    + right; cbn in *; left; congruence.
  - intros t r H X; apply in_app_iff in H; destruct H as [H | [<- | []]].
    + destruct (tasks_sound C t r H X) as [x [Dx Rest]]; exists x; auto.
    + discriminate.
  - intros a b x y k Ha Hb Xa Xb.
    assert (OLD : forall j z, nth_error (tasks s ++ [Created tid]) j = Some z ->
                    task_tid z = Some k ->
                    (nth_error (tasks s) j = Some z /\ k <> tid) \/
                    (j = List.length (tasks s) /\ k = tid)).
    { intros j z Hj Xj.
      destruct (Nat.lt_ge_cases j (List.length (tasks s))) as [L | L].
      - rewrite nth_error_app1 in Hj by exact L; left; split; auto.
        intros ->; apply F, (tasks_known C z tid); auto.
        apply nth_error_In with j; exact Hj.
      - rewrite nth_error_app2 in Hj by exact L; right.
        destruct (j - List.length (tasks s)) as [| d] eqn:Q; cbn in Hj.
        + injection Hj as <-; cbn in Xj; split; [ lia | congruence ].
        + destruct d; discriminate. }
    destruct (OLD a x Ha Xa) as [[Oa Na] | [La Ea]],
             (OLD b y Hb Xb) as [[Ob Nb] | [Lb Eb]]; try congruence.
    apply (tasks_distinct C a b x y k); auto.
Qed.

Lemma initial_consistent : consistent initial_system.
Proof.
  constructor; cbn; try solve [ constructor ]; try solve [ intros; contradiction ].
  - intros [| r] t H; discriminate.
  - intros [| i] j t t' tid H; discriminate.
Qed.

Lemma cancel_consistent :
  forall now tid reason s,
    consistent s -> consistent (perform (CallCancel now tid reason) s).
Proof.
  intros now tid reason s C; cbn [perform].
  destruct (dict_get tid (active_transactions (coordinator s))) as [ref |] eqn:G.
  2:{ rewrite cancel_transaction_absent by exact G; destruct s; exact C. }
  destruct (active_sound C tid ref (dict_get_In _ _ _ _ G)) as [tx [D [E A]]].
  destruct (status_eqb (tx_status tx) COMPLETED || status_eqb (tx_status tx) FAILED)
    eqn:T.
  - rewrite (cancel_transaction_finished now tid reason _ ref tx G D).
    + destruct s; exact C.
    + apply orb_true_iff in T; destruct T as [T | T]; apply status_eqb_eq in T; auto.
  - apply orb_false_iff in T; destruct T as [T1 T2].
    apply status_eqb_neq in T1, T2.
    rewrite (cancel_transaction_open now tid reason _ ref tx G D T1 T2); cbn [snd].
    apply (consistent_ext
             (mkSystem
                (mkCoordinator
                   (update_nth ref (cancelled now reason tx) (heap (coordinator s)))
                   (dict_del tid (active_transactions (coordinator s)))
                   (transaction_history (coordinator s) ++ [ref]) None)
                (tasks s))); try reflexivity.
    apply (consistent_retire s tid ref tx (cancelled now reason tx) None); auto.
    + apply (dict_get_In _ _ _ _ G).
    + right; right; reflexivity.
Qed.

Lemma finish_processing_cancelled :
  forall now tid ref c tx,
    deref c ref = Some tx -> tx_status tx = CANCELLED ->
    finish_processing now tid ref c = c.
Proof.
  intros now tid ref c tx D S; unfold finish_processing; rewrite D, S; reflexivity.
Qed.

Lemma finish_processing_moves :
  forall now tid ref c tx r,
    deref c ref = Some tx ->
    tx_status tx = COMPLETED \/ tx_status tx = FAILED ->
    dict_get tid (active_transactions c) = Some r ->
    finish_processing now tid ref c =
    _save_transaction_data (move_to_history tid ref c).
Proof.
  intros now tid ref c tx r D S G; unfold finish_processing, dict_mem.
  rewrite D, G; destruct S as [-> | ->]; reflexivity.
Qed.

Lemma done_consistent :
  forall s i t,
    consistent s -> nth_error (tasks s) i = Some t ->
    consistent (mkSystem (coordinator s) (update_nth i Done (tasks s))).
Proof.
  intros s i t C Hi; apply (consistent_set_task s i t Done C Hi); cbn;
    intros; discriminate.
Qed.

Lemma loop_block_consistent :
  forall s i t now tid ref tx,
    consistent s ->
    nth_error (tasks s) i = Some t -> task_tid t = Some tid ->
    deref (coordinator s) ref = Some tx -> transaction_id tx = tid ->
    tx_status tx = EXECUTING \/ tx_status tx = CANCELLED ->
    consistent
      (mkSystem (fst (loop_block now tid ref (coordinator s)))
         (update_nth i (snd (loop_block now tid ref (coordinator s))) (tasks s))).
Proof.
  intros s i t now tid ref tx C Hi Ht D E S; unfold loop_block; rewrite D.
  destruct (loop_head now tx) as [| tx' | | ready] eqn:L; cbn [fst snd].
  - apply loop_head_exit in L; destruct S as [S | S]; [ contradiction |].
    rewrite (finish_processing_cancelled now tid ref _ tx D S).
    apply (done_consistent s i t C Hi).
  - apply loop_head_terminal in L; destruct L as [X [I [_ T]]].
    assert (A : In (tid, ref) (active_transactions (coordinator s))).
    { rewrite <- E; apply (running_is_active s ref tx C D); rewrite X; reflexivity. }
    rewrite (finish_processing_moves now tid ref _ tx' ref).
    + pose proof (done_consistent s i t C Hi) as C1.
      apply (consistent_ext
               (mkSystem
                  (mkCoordinator (update_nth ref tx' (heap (coordinator s)))
                     (dict_del tid (active_transactions (coordinator s)))
                     (transaction_history (coordinator s) ++ [ref]) None)
                  (update_nth i Done (tasks s)))); try reflexivity.
      apply (consistent_retire _ tid ref tx tx' None C1); auto.
      * destruct T; [ left | right; left ]; assumption.
      * cbn; intros t0 H0 R0; exfalso.
        apply In_nth_error in H0; destruct H0 as [j Hj].
        apply nth_error_update_nth_cases in Hj.
        destruct Hj as [[_ ->] | [N Hj]]; [ discriminate |].
        destruct (tasks_sound C t0 ref (nth_error_In _ _ Hj) R0) as [x [Dx [Tx _]]].
        rewrite D in Dx; injection Dx as <-.
        apply N, (tasks_distinct C j i t0 t tid); auto; congruence.
    + unfold deref; cbn; apply nth_error_update_nth_same with tx; exact D.
    + exact T.
    + cbn; apply In_dict_get; [ apply (keys_distinct C) | exact A ].
  - apply (consistent_set_task s i t (AtLoopHead tid ref) C Hi); cbn.
    + intros k K; congruence.
    + intros r R; injection R as <-; exists tx.
      split; [ exact D | split; [ congruence |] ].
      left; apply (loop_head_running now tx); auto.
  - apply (consistent_set_task s i t (InBatch tid ref ready) C Hi); cbn.
    + intros k K; congruence.
    + intros r R; injection R as <-; exists tx.
      split; [ exact D | split; [ congruence |] ].
      left; apply (loop_head_running now tx); eauto.
Qed.

Lemma resume_consistent :
  forall i now run s,
    consistent s -> consistent (perform (Resume i now run) s).
Proof.
  intros i now run s C; cbn [perform].
  destruct (nth_error (tasks s) i) as [t |] eqn:Hi; [| exact C ].
  destruct t as [tid | tid ref | tid ref ready |]; cbn [resume].
  - unfold start_block.
    destruct (dict_get tid (active_transactions (coordinator s))) as [ref |] eqn:G.
    2:{ apply (done_consistent s i _ C Hi). }
    destruct (active_sound C tid ref (dict_get_In _ _ _ _ G)) as [tx [D [E A]]].
    rewrite D.
    pose proof (consistent_update s ref tx (begin_processing now tx)
                  (data_file (coordinator s)) C D eq_refl (fun _ => eq_refl)) as C1.
    assert (C2 : consistent
                   (mkSystem
                      (set_heap (update_nth ref (begin_processing now tx)
                                   (heap (coordinator s))) (coordinator s))
                      (tasks s))).
    { apply C1.
      - intros [T | [T | T]]; rewrite T in A; discriminate.
      - intros _; left; reflexivity. }
    pose proof (loop_block_consistent _ i (Created tid) now tid ref
                  (begin_processing now tx) C2 Hi eq_refl) as C3.
    cbn [coordinator tasks] in C3.
    destruct (loop_block now tid ref _) as [c' t']; apply C3; auto.
    unfold deref; cbn; apply nth_error_update_nth_same with tx; exact D.
  - destruct (tasks_sound C _ ref (nth_error_In _ _ Hi) eq_refl) as [tx [D [T S]]].
    cbn in T; injection T as T.
    pose proof (loop_block_consistent s i (AtLoopHead tid ref) now tid ref tx C Hi
                  eq_refl D (eq_sym T) S) as C3.
    destruct (loop_block now tid ref (coordinator s)) as [c' t']; exact C3.
  - destruct (tasks_sound C _ ref (nth_error_In _ _ Hi) eq_refl) as [tx [D [T S]]].
    cbn in T; injection T as T.
    unfold batch_block; rewrite D.
    pose proof (consistent_update s ref tx (after_batch run now tx ready) None C D
                  eq_refl (fun H => H) (fun H => H) (fun H => H)) as C1.
    apply (consistent_ext
             (mkSystem
                (mkCoordinator
                   (update_nth ref (after_batch run now tx ready) (heap (coordinator s)))
                   (active_transactions (coordinator s))
                   (transaction_history (coordinator s)) None)
                (update_nth i (AtLoopHead tid ref) (tasks s)))); try reflexivity.
    apply (consistent_set_task _ i (InBatch tid ref ready) (AtLoopHead tid ref) C1 Hi);
      cbn.
    + intros k K; exact K.
    + intros r R; injection R as <-; exists (after_batch run now tx ready).
      split; [| split; [ cbn; congruence | exact S ] ].
      unfold deref; cbn; apply nth_error_update_nth_same with tx; exact D.
  - destruct s as [c ts]; cbn in *.
    apply (done_consistent (mkSystem c ts) i Done C Hi).
Qed.

Lemma initiate_purchase_consistent :
  forall hex now buyer seller nft price md s,
    consistent s -> enabled (CallPurchase hex now buyer seller nft price md) s ->
    consistent (perform (CallPurchase hex now buyer seller nft price md) s).
Proof.
  intros hex now buyer seller nft price md s C F; cbn in F.
  apply (consistent_ext
           (mkSystem
              (mkCoordinator
                 (heap (coordinator s) ++
                    [new_purchase ("tx_" ++ hex) now buyer seller nft price md])
                 (dict_set ("tx_" ++ hex) (List.length (heap (coordinator s)))
                    (active_transactions (coordinator s)))
                 (transaction_history (coordinator s)) None)
              (tasks s ++ [Created ("tx_" ++ hex)]))); try reflexivity.
  apply consistent_alloc; auto.
Qed.

Lemma initiate_listing_consistent :
  forall hex now seller nft price md s,
    consistent s -> enabled (CallListing hex now seller nft price md) s ->
    consistent (perform (CallListing hex now seller nft price md) s).
Proof.
  intros hex now seller nft price md s C F; cbn in F.
  apply (consistent_ext
           (mkSystem
              (mkCoordinator
                 (heap (coordinator s) ++
                    [new_listing ("tx_" ++ hex) now seller nft price md])
                 (dict_set ("tx_" ++ hex) (List.length (heap (coordinator s)))
                    (active_transactions (coordinator s)))
                 (transaction_history (coordinator s)) None)
              (tasks s ++ [Created ("tx_" ++ hex)]))); try reflexivity.
  apply consistent_alloc; auto.
Qed.

Lemma perform_consistent :
  forall e s, consistent s -> enabled e s -> consistent (perform e s).
Proof.
  intros [hex now b sl nft price md | hex now sl nft price md | now tid reason
          | i now run] s C F.
  - apply initiate_purchase_consistent; assumption.
  - apply initiate_listing_consistent; assumption.
  - apply cancel_consistent; assumption.
  - apply resume_consistent; assumption.
Qed.

Lemma perform_all_consistent :
  forall es s, consistent s -> feasible es s -> consistent (perform_all es s).
Proof.
  intros es; induction es as [| e es IH]; intros s C F; simpl; auto.
  destruct F as [F1 F2]; apply IH; auto; apply perform_consistent; assumption.
Qed.

(** ** Terminal transactions *)

Lemma finish_processing_other :
  forall now tid ref0 c ref,
    ref <> ref0 -> deref (finish_processing now tid ref0 c) ref = deref c ref.
Proof.
  intros now tid ref0 c ref N; unfold finish_processing.
  destruct (deref c ref0) as [tx |]; auto.
  destruct (status_eqb (tx_status tx) COMPLETED || status_eqb (tx_status tx) FAILED);
    auto.
  destruct (dict_mem tid (active_transactions c)); auto.
  unfold deref; cbn; apply nth_error_update_nth_other; auto.
Qed.

Lemma loop_block_other :
  forall now tid ref0 c ref,
    ref <> ref0 -> deref (fst (loop_block now tid ref0 c)) ref = deref c ref.
Proof.
  intros now tid ref0 c ref N; unfold loop_block.
  destruct (deref c ref0) as [tx |]; auto.
  destruct (loop_head now tx); cbn [fst]; auto.
  - apply finish_processing_other; exact N.
  - rewrite finish_processing_other by exact N.
    unfold deref; cbn; apply nth_error_update_nth_other; auto.
Qed.

Lemma loop_block_batch :
  forall now tid ref0 c a b ready,
    snd (loop_block now tid ref0 c) = InBatch a b ready ->
    b = ref0 /\ exists tx, deref c ref0 = Some tx /\ tx_status tx = EXECUTING.
Proof.
  intros now tid ref0 c a b ready H; unfold loop_block in H.
  destruct (deref c ref0) as [tx |]; [| discriminate ].
  destruct (loop_head now tx) eqn:L; cbn in H; try discriminate.
  injection H as _ <- _; split; auto; exists tx; split; auto.
  apply (loop_head_running now tx); eauto.
Qed.

Lemma terminal_not_active :
  forall st, terminal_status st -> is_active_status st = false.
Proof. intros st [-> | [-> | ->]]; reflexivity. Qed.

Lemma terminal_of_task :
  forall s t ref tx,
    consistent s -> In t (tasks s) -> task_ref t = Some ref ->
    deref (coordinator s) ref = Some tx -> terminal_status (tx_status tx) ->
    tx_status tx = CANCELLED.
Proof.
  intros s t ref tx C H R D T.
  destruct (tasks_sound C t ref H R) as [x [Dx [_ S]]].
  rewrite D in Dx; injection Dx as <-.
  destruct S as [S | S]; auto.
  destruct T as [T | [T | T]]; congruence.
Qed.

Lemma no_batch_update :
  forall ref s i t' c',
    no_batch_on ref s -> ~ in_batch_on ref t' ->
    no_batch_on ref (mkSystem c' (update_nth i t' (tasks s))).
Proof.
  intros ref s i t' c' NB N t H; cbn in H.
  apply In_update_nth in H; destruct H as [-> | H]; auto.
Qed.

(** One event leaves the id and the status of a terminal object alone,
    and the whole object unless it is a cancelled one whose batch was in
    flight. *)
Lemma perform_keeps_terminal :
  forall e s ref tx,
    consistent s ->
    deref (coordinator s) ref = Some tx -> terminal_status (tx_status tx) ->
    (exists tx',
        deref (coordinator (perform e s)) ref = Some tx' /\
        transaction_id tx' = transaction_id tx /\
        tx_status tx' = tx_status tx /\
        (tx_status tx <> CANCELLED \/ no_batch_on ref s -> tx' = tx)) /\
    (no_batch_on ref s -> no_batch_on ref (perform e s)).
Proof.
  intros e s ref tx C D T.
  assert (SAME : forall c' ts',
             deref c' ref = Some tx ->
             (no_batch_on ref s -> no_batch_on ref (mkSystem c' ts')) ->
             (exists tx',
                 deref (coordinator (mkSystem c' ts')) ref = Some tx' /\
                 transaction_id tx' = transaction_id tx /\
                 tx_status tx' = tx_status tx /\
                 (tx_status tx <> CANCELLED \/ no_batch_on ref s -> tx' = tx)) /\
             (no_batch_on ref s -> no_batch_on ref (mkSystem c' ts'))).
  { intros c' ts' D' NB; split; auto; exists tx; auto. }
  assert (GROW : forall x, nth_error (heap (coordinator s) ++ [x]) ref = Some tx).
  { intros x; rewrite nth_error_app1; auto.
    apply nth_error_Some; unfold deref in D; congruence. }
  assert (NBG : forall t, no_batch_on ref s ->
                          no_batch_on ref (mkSystem (coordinator s) (tasks s ++ [Created t]))).
  { intros t NB x H; cbn in H; apply in_app_iff in H.
    destruct H as [H | [<- | []]]; auto.
    intros [a [r E]]; discriminate. }
  destruct e as [hex now b sl nft price md | hex now sl nft price md
                 | now tid reason | i now run]; cbn [perform].
  - cbn; apply SAME; [ apply GROW | intros NB x H; apply (NBG _ NB x H) ].
  - cbn; apply SAME; [ apply GROW | intros NB x H; apply (NBG _ NB x H) ].
  - destruct (dict_get tid (active_transactions (coordinator s))) as [ref0 |] eqn:G.
    2:{ rewrite cancel_transaction_absent by exact G; apply SAME; auto. }
    destruct (active_sound C tid ref0 (dict_get_In _ _ _ _ G)) as [tx0 [D0 [E0 A0]]].
    assert (N : ref <> ref0).
    { intros ->; rewrite D in D0; injection D0 as <-.
      rewrite (terminal_not_active _ T) in A0; discriminate. }
    destruct (status_eqb (tx_status tx0) COMPLETED || status_eqb (tx_status tx0) FAILED)
      eqn:X.
    + rewrite (cancel_transaction_finished now tid reason _ ref0 tx0 G D0).
      * apply SAME; auto.
      * apply orb_true_iff in X; destruct X as [X | X]; apply status_eqb_eq in X; auto.
    + apply orb_false_iff in X; destruct X as [X1 X2].
      apply status_eqb_neq in X1, X2.
      rewrite (cancel_transaction_open now tid reason _ ref0 tx0 G D0 X1 X2).
      apply SAME; auto.
      unfold deref; cbn; rewrite nth_error_update_nth_other; auto.
  - destruct (nth_error (tasks s) i) as [t |] eqn:Hi.
    2:{ destruct s; apply SAME; auto. }
    pose proof (nth_error_In _ _ Hi) as Ti.
    destruct t as [tid | tid ref0 | tid ref0 ready |]; cbn [resume].
    + unfold start_block.
      destruct (dict_get tid (active_transactions (coordinator s))) as [ref0 |] eqn:G.
      2:{ apply SAME; auto; intros NB; apply no_batch_update; auto.
          intros [a [r E]]; discriminate. }
      destruct (active_sound C tid ref0 (dict_get_In _ _ _ _ G)) as [tx0 [D0 [E0 A0]]].
      assert (N : ref <> ref0).
      { intros ->; rewrite D in D0; injection D0 as <-.
        rewrite (terminal_not_active _ T) in A0; discriminate. }
      rewrite D0.
      pose proof (loop_block_other now tid ref0
                    (set_heap (update_nth ref0 (begin_processing now tx0)
                                 (heap (coordinator s))) (coordinator s)) ref N) as O.
      pose proof (loop_block_batch now tid ref0
                    (set_heap (update_nth ref0 (begin_processing now tx0)
                                 (heap (coordinator s))) (coordinator s))) as B.
      destruct (loop_block now tid ref0 _) as [c' t']; cbn [fst snd] in O, B.
      apply SAME.
      * rewrite O; unfold deref; cbn; rewrite nth_error_update_nth_other; auto.
      * intros NB; apply no_batch_update; auto.
        intros [a [r E]]; subst t'; destruct (B a ref r eq_refl) as [E _]; auto.
    + pose proof (loop_block_other now tid ref0 (coordinator s) ref) as O.
      pose proof (loop_block_batch now tid ref0 (coordinator s)) as B.
      destruct (Nat.eq_dec ref ref0) as [<- | N].
      * pose proof (terminal_of_task s _ ref tx C Ti eq_refl D T) as CT.
        unfold loop_block in *; rewrite D in *.
        assert (L : loop_head now tx = Exit).
        { unfold loop_head; rewrite CT; reflexivity. }
        rewrite L in *; cbn [fst snd] in *.
        rewrite (finish_processing_cancelled now tid ref _ tx D CT).
        apply SAME; auto; intros NB; apply no_batch_update; auto.
        intros [a [r E]]; discriminate.
      * destruct (loop_block now tid ref0 (coordinator s)) as [c' t'];
          cbn [fst snd] in O, B.
        apply SAME.
        -- rewrite O; auto.
        -- intros NB; apply no_batch_update; auto.
           intros [a [r E]]; subst t'; destruct (B a ref r eq_refl) as [E _]; auto.
    + unfold batch_block.
      destruct (deref (coordinator s) ref0) as [tx0 |] eqn:D0.
      2:{ apply SAME; auto; intros NB; apply no_batch_update; auto.
          intros [a [r E]]; discriminate. }
      assert (NB' : no_batch_on ref s ->
                    no_batch_on ref
                      (mkSystem
                         (_save_transaction_data
                            (set_heap
                               (update_nth ref0 (after_batch run now tx0 ready)
                                  (heap (coordinator s))) (coordinator s)))
                         (update_nth i (AtLoopHead tid ref0) (tasks s)))).
      { intros NB; apply no_batch_update; auto; intros [a [r E]]; discriminate. }
      destruct (Nat.eq_dec ref ref0) as [<- | N].
      * rewrite D in D0; injection D0 as <-.
        split; auto; exists (after_batch run now tx ready); repeat split.
        -- unfold deref; cbn; apply nth_error_update_nth_same with tx; exact D.
        -- intros [NC | NB].
           ++ elim NC; apply (terminal_of_task s _ ref tx C Ti eq_refl D T).
           ++ elim (NB _ Ti); exists tid, ready; reflexivity.
      * apply SAME; auto.
        unfold deref; cbn; rewrite nth_error_update_nth_other; auto.
    + apply SAME; auto; intros NB; apply no_batch_update; auto.
Qed.

Lemma perform_all_keeps_terminal :
  forall es s ref tx,
    consistent s -> feasible es s ->
    deref (coordinator s) ref = Some tx -> terminal_status (tx_status tx) ->
    exists tx',
      deref (coordinator (perform_all es s)) ref = Some tx' /\
      transaction_id tx' = transaction_id tx /\
      tx_status tx' = tx_status tx /\
      (tx_status tx <> CANCELLED \/ no_batch_on ref s -> tx' = tx).
Proof.
  intros es; induction es as [| e es IH]; intros s ref tx C F D T; simpl.
  - exists tx; auto.
  - destruct F as [F1 F2].
    destruct (perform_keeps_terminal e s ref tx C D T) as [[tx1 [D1 [I1 [S1 K1]]]] NB1].
    assert (T1 : terminal_status (tx_status tx1)) by (rewrite S1; exact T).
    destruct (IH (perform e s) ref tx1 (perform_consistent e s C F1) F2 D1 T1)
      as [tx' [D' [I' [S' K']]]].
    exists tx'; repeat split; try congruence.
    intros H; assert (tx1 = tx) by (apply K1; exact H); subst tx1.
    apply K'; destruct H as [H | H]; auto.
Qed.

Lemma terminal_in_history :
  forall s ref tx,
    consistent s ->
    deref (coordinator s) ref = Some tx -> terminal_status (tx_status tx) ->
    In ref (transaction_history (coordinator s)) /\
    dict_get (transaction_id tx) (active_transactions (coordinator s)) = None.
Proof.
  intros s ref tx C D T; split.
  - destruct (objects_located C ref tx D) as [A | H]; auto.
    destruct (active_sound C _ ref A) as [x [Dx [_ Ax]]].
    rewrite D in Dx; injection Dx as <-.
    rewrite (terminal_not_active _ T) in Ax; discriminate.
  - destruct (dict_get (transaction_id tx) (active_transactions (coordinator s)))
      as [r |] eqn:G; auto.
    destruct (active_sound C _ r (dict_get_In _ _ _ _ G)) as [x [Dx [Ex Ax]]].
    assert (r = ref) by (apply (ids_distinct_refs s r ref x tx C Dx D Ex)); subst r.
    rewrite D in Dx; injection Dx as <-.
    rewrite (terminal_not_active _ T) in Ax; discriminate.
Qed.

(** C5, as amended.  In every state the coordinator can reach, a
    transaction whose status is [COMPLETED], [FAILED] or [CANCELLED] is in
    the history and its id is no key of the active set.  Whatever happens
    afterwards it stays in the history with that id and that status, and
    every cancel on its id returns failure and changes nothing.  No field
    of a completed or failed transaction, nor of any of its steps, is
    assigned again; neither is one of a cancelled transaction, unless a
    batch of its steps was in flight when it was cancelled.  The content
    of the metadata dictionary is left out of this: the dictionary is the
    caller's object, which others may hold too. *)
Theorem terminal_transactions_are_final :
  forall es es' ref tx,
    feasible es initial_system ->
    feasible es' (perform_all es initial_system) ->
    deref (coordinator (perform_all es initial_system)) ref = Some tx ->
    terminal_status (tx_status tx) ->
    (In ref (transaction_history (coordinator (perform_all es initial_system))) /\
     dict_get (transaction_id tx)
       (active_transactions (coordinator (perform_all es initial_system))) = None) /\
    (exists tx',
        deref (coordinator (perform_all es' (perform_all es initial_system))) ref =
          Some tx' /\
        transaction_id tx' = transaction_id tx /\
        tx_status tx' = tx_status tx) /\
    In ref (transaction_history
              (coordinator (perform_all es' (perform_all es initial_system)))) /\
    (forall now reason,
        cancel_transaction now (transaction_id tx) reason
          (coordinator (perform_all es' (perform_all es initial_system))) =
        (false, coordinator (perform_all es' (perform_all es initial_system)))) /\
    (tx_status tx <> CANCELLED \/ no_batch_on ref (perform_all es initial_system) ->
     exists tx',
       deref (coordinator (perform_all es' (perform_all es initial_system))) ref =
         Some tx' /\
       fields_but_metadata tx' = fields_but_metadata tx).
Proof.
  intros es es' ref tx F F' D T.
  pose proof (perform_all_consistent es initial_system initial_consistent F) as C.
  pose proof (perform_all_consistent es' _ C F') as C'.
  destruct (perform_all_keeps_terminal es' _ ref tx C F' D T) as [tx' [D' [I' [S' K']]]].
  assert (T' : terminal_status (tx_status tx')) by (rewrite S'; exact T).
  destruct (terminal_in_history _ ref tx' C' D' T') as [H' G'].
  split; [ apply (terminal_in_history _ ref tx C D T) |].
  split; [ exists tx'; auto |].
  split; [ exact H' |].
  split.
  - intros now reason; apply cancel_transaction_absent; rewrite <- I'; exact G'.
  - intros H; exists tx'; split; [ exact D' |].
    rewrite (K' H); reflexivity.
Qed.

Lemma feasible_check_sound :
  forall es s, feasible_check es s = true -> feasible es s.
Proof.
  intros es; induction es as [| e es IH]; intros s H; simpl in *; auto.
  apply andb_true_iff in H; destruct H as [H1 H2]; split; auto.
  destruct e; cbn in *; auto; intros M; apply mem_string_In in M;
    rewrite M in H1; discriminate.
Qed.

(** A completed purchase stays as it is while it is cancelled too late
    and a second purchase is processed. *)
Lemma completed_purchase_is_final :
  exists tx,
    deref (coordinator (perform_all completing_events initial_system)) 0 = Some tx /\
    tx_status tx = COMPLETED /\
    (exists tx',
        deref (coordinator (perform_all later_events
                              (perform_all completing_events initial_system))) 0 =
          Some tx' /\
        fields_but_metadata tx' = fields_but_metadata tx) /\
    cancel_transaction "t9" (transaction_id tx) "again"
      (coordinator (perform_all later_events
                      (perform_all completing_events initial_system))) =
      (false, coordinator (perform_all later_events
                             (perform_all completing_events initial_system))).
Proof.
  eexists; split; [ vm_compute; reflexivity |].
  split; [ reflexivity |].
  match goal with
  | |- (exists tx', _ /\ _ = fields_but_metadata ?tx) /\ _ =>
      destruct (terminal_transactions_are_final completing_events later_events 0 tx)
        as [_ [_ [_ [K F]]]]
  end.
  - apply feasible_check_sound; vm_compute; reflexivity.
  - apply feasible_check_sound; vm_compute; reflexivity.
  - vm_compute; reflexivity.
  - left; reflexivity.
  - split; [ apply F; left; discriminate | apply K ].
Defined.

(** C5 as stated fails for a cancelled transaction: the purchase is in
    the history with status [CANCELLED] when the batch that was in flight
    ends; its results are then recorded on the first two steps and
    [updated_at] is stamped again. *)
Lemma cancelled_transaction_still_changes :
  feasible in_flight_events initial_system /\
  cancelled_in_flight = perform_all in_flight_events initial_system /\
  exists tx tx',
    deref (coordinator cancelled_in_flight) 0 = Some tx /\
    deref (coordinator (perform (Resume 0 "t3" always_ok) cancelled_in_flight)) 0 =
      Some tx' /\
    tx_status tx = CANCELLED /\
    In 0 (transaction_history (coordinator cancelled_in_flight)) /\
    map status (steps tx) = [PENDING; PENDING; PENDING; PENDING; PENDING] /\
    map status (steps tx') = [COMPLETED; COMPLETED; PENDING; PENDING; PENDING] /\
    updated_at tx = "t2" /\
    updated_at tx' = "t3".
Proof.
  split; [ apply feasible_check_sound; vm_compute; reflexivity |].
  split; [ reflexivity |].
  eexists; eexists.
  split; [ vm_compute; reflexivity |].
  split; [ vm_compute; reflexivity |].
  split; [ reflexivity |].
  split; [ vm_compute; left; reflexivity |].
  repeat split.
Qed.

(** ** Tasks and the loop *)

Lemma finish_processing_heap :
  forall now tid ref c,
    dict_mem tid (active_transactions c) = true ->
    heap (finish_processing now tid ref c) = heap c.
Proof.
  intros now tid ref c M; unfold finish_processing.
  destruct (deref c ref) as [tx |]; auto.
  destruct (status_eqb (tx_status tx) COMPLETED || status_eqb (tx_status tx) FAILED);
    auto.
  rewrite M; reflexivity.
Qed.

(** What a task does to its transaction between two tests of the loop
    condition is one pass of [loop_iteration]: in one block when the
    ready set is empty, in two blocks around the batch otherwise. *)
Lemma task_pass_is_loop_iteration :
  forall run now tid ref c tx,
    deref c ref = Some tx ->
    dict_mem tid (active_transactions c) = true ->
    match loop_head now tx with
    | Launch ready =>
        loop_block now tid ref c = (c, InBatch tid ref ready) /\
        deref (fst (batch_block run now tid ref ready c)) ref =
          Some (loop_iteration run now tx)
    | _ =>
        deref (fst (loop_block now tid ref c)) ref = Some (loop_iteration run now tx)
    end.
Proof.
  intros run now tid ref c tx D M.
  unfold loop_block, batch_block, loop_iteration; rewrite D.
  destruct (loop_head now tx) as [| tx' | | ready] eqn:L; cbn [fst].
  - unfold deref; rewrite finish_processing_heap; auto.
  - unfold deref; rewrite finish_processing_heap; auto; cbn.
    apply nth_error_update_nth_same with tx; exact D.
  - exact D.
  - split; auto; unfold deref; cbn.
    apply nth_error_update_nth_same with tx; exact D.
Qed.

Lemma objects_In :
  forall h refs tx,
    In tx (objects h refs) -> exists ref, In ref refs /\ nth_error h ref = Some tx.
Proof.
  intros h refs tx H; unfold objects in H; apply in_flat_map in H.
  destruct H as [ref [Hr Ht]]; exists ref; split; auto.
  destruct (nth_error h ref) as [x |]; [| destruct Ht ].
  destruct Ht as [<- | []]; reflexivity.
Qed.

(** The working sets the coordinator can be in are those on which the
    round trip through the snapshot file is stated. *)
Lemma consistent_working_set :
  forall s,
    consistent s ->
    NoDup (dict_keys (active_transactions (coordinator s))) /\
    active_keyed (coordinator s) /\
    history_closed (coordinator s).
Proof.
  intros s C; split; [ apply (keys_distinct C) | split ].
  - intros k ref H; apply (active_sound C k ref H).
  - intros tx H; apply objects_In in H; destruct H as [ref [Hr D]].
    destruct (history_sound C ref Hr) as [x [Dx T]].
    unfold deref in Dx; rewrite D in Dx; injection Dx as <-.
    apply terminal_not_active; exact T.
Qed.

Lemma reachable_consistent :
  forall es, feasible es initial_system -> consistent (perform_all es initial_system).
Proof. intros es F; apply perform_all_consistent; [ apply initial_consistent | exact F ]. Qed.

(** ** How transaction objects change *)

Lemma update_nth_twice :
  forall (A : Type) (l : list A) (n : nat) (x y : A),
    update_nth n y (update_nth n x l) = update_nth n y l.
Proof.
  intros A l; induction l as [| a l IH]; intros [| n] x y; simpl; auto.
  rewrite IH; reflexivity.
Qed.

Lemma dict_get_mem :
  forall (V : Type) (k : string) (v : V) (d : dict V),
    dict_get k d = Some v -> dict_mem k d = true.
Proof. intros V k v d H; unfold dict_mem; rewrite H; reflexivity. Qed.

(** What [loop_block] does when the transaction is in the active set
    whenever it is executing. *)
Lemma loop_block_spec :
  forall now tid ref c tx,
    deref c ref = Some tx ->
    (tx_status tx = EXECUTING -> dict_mem tid (active_transactions c) = true) ->
    tx_status tx = EXECUTING \/ tx_status tx = CANCELLED ->
    loop_block now tid ref c =
    match loop_head now tx with
    | Exit => (c, Done)
    | Terminal tx' =>
        (_save_transaction_data
           (move_to_history tid ref (set_heap (update_nth ref tx' (heap c)) c)),
         Done)
    | Wait => (c, AtLoopHead tid ref)
    | Launch ready => (c, InBatch tid ref ready)
    end.
Proof.
  intros now tid ref c tx D M S; unfold loop_block; rewrite D.
  destruct (loop_head now tx) as [| tx' | | ready] eqn:L; auto.
  - apply loop_head_exit in L; destruct S as [S | S]; [ contradiction |].
    rewrite (finish_processing_cancelled now tid ref c tx D S); reflexivity.
  - apply loop_head_terminal in L; destruct L as [X [_ [_ T]]].
    f_equal; unfold finish_processing, deref; cbn [heap set_heap active_transactions].
    rewrite (nth_error_update_nth_same _ (heap c) ref tx' tx D), (M X).
    destruct T as [-> | ->]; reflexivity.
Qed.

Lemma task_in_active :
  forall s t tid ref tx,
    consistent s -> In t (tasks s) -> task_ref t = Some ref ->
    task_tid t = Some tid ->
    deref (coordinator s) ref = Some tx ->
    transaction_id tx = tid /\
    (tx_status tx = EXECUTING \/ tx_status tx = CANCELLED) /\
    (tx_status tx = EXECUTING ->
     dict_mem tid (active_transactions (coordinator s)) = true).
Proof.
  intros s t tid ref tx C H R T D.
  destruct (tasks_sound C t ref H R) as [x [Dx [Tx Sx]]].
  rewrite D in Dx; injection Dx as <-.
  assert (E : transaction_id tx = tid) by congruence.
  repeat split; auto; intros X.
  apply dict_get_mem with ref, In_dict_get; [ apply (keys_distinct C) |].
  rewrite <- E; apply (running_is_active s ref tx C D); rewrite X; reflexivity.
Qed.

(** An event that creates no transaction changes at most one object, by
    a sequence of the four assignments. *)
Lemma perform_heap_change :
  forall e s,
    consistent s -> batch_sound s ->
    match e with
    | CallPurchase hex now b sl nft price md =>
        heap (coordinator (perform e s)) =
        heap (coordinator s) ++ [new_purchase ("tx_" ++ hex) now b sl nft price md]
    | CallListing hex now sl nft price md =>
        heap (coordinator (perform e s)) =
        heap (coordinator s) ++ [new_listing ("tx_" ++ hex) now sl nft price md]
    | _ =>
        heap (coordinator (perform e s)) = heap (coordinator s) \/
        exists ref tx tx',
          deref (coordinator s) ref = Some tx /\
          clos_refl_trans Transaction change tx tx' /\
          heap (coordinator (perform e s)) = update_nth ref tx' (heap (coordinator s))
    end.
Proof.
  intros e s C B.
  destruct e as [hex now b sl nft price md | hex now sl nft price md
                 | now tid reason | i now run]; cbn [perform]; try reflexivity.
  - destruct (dict_get tid (active_transactions (coordinator s))) as [ref |] eqn:G.
    2:{ rewrite cancel_transaction_absent by exact G; left; reflexivity. }
    destruct (active_sound C tid ref (dict_get_In _ _ _ _ G)) as [tx [D [E A]]].
    destruct (status_eqb (tx_status tx) COMPLETED || status_eqb (tx_status tx) FAILED)
      eqn:X.
    + rewrite (cancel_transaction_finished now tid reason _ ref tx G D); auto.
      apply orb_true_iff in X; destruct X as [X | X]; apply status_eqb_eq in X; auto.
    + apply orb_false_iff in X; destruct X as [X1 X2].
      apply status_eqb_neq in X1, X2.
      rewrite (cancel_transaction_open now tid reason _ ref tx G D X1 X2).
      right; exists ref, tx, (cancelled now reason tx); repeat split; auto.
      apply rt_step, change_cancel; exact A.
  - destruct (nth_error (tasks s) i) as [t |] eqn:Hi; [| left; reflexivity ].
    pose proof (nth_error_In _ _ Hi) as Ti.
    destruct t as [tid | tid ref | tid ref ready |]; cbn [resume].
    + unfold start_block.
      destruct (dict_get tid (active_transactions (coordinator s))) as [ref |] eqn:G;
        [| left; reflexivity ].
      destruct (active_sound C tid ref (dict_get_In _ _ _ _ G)) as [tx [D [E A]]].
      rewrite D.
      rewrite (loop_block_spec now tid ref _ (begin_processing now tx)).
      * right; exists ref, tx.
        destruct (loop_head now (begin_processing now tx)) as [| tx' | | ready] eqn:L;
          cbn.
        -- exists (begin_processing now tx); repeat split; auto.
           apply rt_step, change_begin; exact A.
        -- exists tx'; repeat split; auto.
           ++ apply rt_trans with (begin_processing now tx).
              ** apply rt_step, change_begin; exact A.
              ** apply rt_step, (change_final now); exact L.
           ++ apply update_nth_twice.
        -- exists (begin_processing now tx); repeat split; auto.
           apply rt_step, change_begin; exact A.
        -- exists (begin_processing now tx); repeat split; auto.
           apply rt_step, change_begin; exact A.
      * unfold deref; cbn; apply nth_error_update_nth_same with tx; exact D.
      * intros _; cbn; apply dict_get_mem with ref; exact G.
      * left; reflexivity.
    + destruct (tasks_sound C _ ref Ti eq_refl) as [tx [D _]].
      destruct (task_in_active s _ tid ref tx C Ti eq_refl eq_refl D) as [E [S M]].
      rewrite (loop_block_spec now tid ref _ tx D M S).
      destruct (loop_head now tx) as [| tx' | | ready] eqn:L; cbn; auto.
      right; exists ref, tx, tx'; repeat split; auto.
      apply rt_step, (change_final now); exact L.
    + destruct (tasks_sound C _ ref Ti eq_refl) as [tx [D _]].
      destruct (task_in_active s _ tid ref tx C Ti eq_refl eq_refl D) as [E [S M]].
      destruct (B _ tid ref ready Ti eq_refl) as [x [Dx R]].
      rewrite D in Dx; injection Dx as <-; subst ready.
      unfold batch_block; rewrite D; cbn.
      right; exists ref, tx, (after_batch run now tx (ready_mask tx)); repeat split; auto.
      apply rt_step, change_batch; exact S.
    + left; reflexivity.
Qed.

Lemma loop_head_launch :
  forall now tx ready, loop_head now tx = Launch ready -> ready = ready_mask tx.
Proof.
  intros now tx ready H; unfold loop_head in H.
  destruct (status_eqb (tx_status tx) EXECUTING); [| discriminate ].
  destruct (get_next_pending_steps tx).
  - destruct (filter (has_status FAILED) (steps tx)); [| discriminate ].
    destruct (Nat.eqb _ _); discriminate.
  - injection H as <-; reflexivity.
Qed.

Lemma other_task_elsewhere :
  forall s i j ti tj tid ref tx,
    consistent s ->
    nth_error (tasks s) i = Some ti -> nth_error (tasks s) j = Some tj -> j <> i ->
    task_tid ti = Some tid ->
    deref (coordinator s) ref = Some tx -> transaction_id tx = tid ->
    task_ref tj <> Some ref.
Proof.
  intros s i j ti tj tid ref tx C Hi Hj N T D E R.
  destruct (tasks_sound C tj ref (nth_error_In _ _ Hj) R) as [x [Dx [Tx _]]].
  rewrite D in Dx; injection Dx as <-.
  apply N, (tasks_distinct C j i tj ti tid); auto; congruence.
Qed.

(** What resuming a task does to the heap and to the task. *)
Lemma resume_effect :
  forall run now s i t,
    consistent s -> batch_sound s -> nth_error (tasks s) i = Some t ->
    (heap (fst (resume run now t (coordinator s))) = heap (coordinator s) \/
     exists ref tx tx',
       deref (coordinator s) ref = Some tx /\
       task_tid t = Some (transaction_id tx) /\
       heap (fst (resume run now t (coordinator s))) =
         update_nth ref tx' (heap (coordinator s))) /\
    (forall a r m,
        snd (resume run now t (coordinator s)) = InBatch a r m ->
        exists tx, nth_error (heap (fst (resume run now t (coordinator s)))) r = Some tx /\
                   m = ready_mask tx).
Proof.
  intros run now s i t C B Hi; pose proof (nth_error_In _ _ Hi) as Ti.
  destruct t as [tid | tid ref | tid ref ready |]; cbn [resume].
  - unfold start_block.
    destruct (dict_get tid (active_transactions (coordinator s))) as [ref |] eqn:G.
    2:{ split; [ left; reflexivity | intros a r m H; discriminate ]. }
    destruct (active_sound C tid ref (dict_get_In _ _ _ _ G)) as [tx [D [E A]]].
    rewrite D.
    assert (D1 : deref (set_heap (update_nth ref (begin_processing now tx)
                                    (heap (coordinator s))) (coordinator s)) ref =
                 Some (begin_processing now tx)).
    { unfold deref; cbn; apply nth_error_update_nth_same with tx; exact D. }
    rewrite (loop_block_spec now tid ref _ (begin_processing now tx) D1).
    + destruct (loop_head now (begin_processing now tx)) as [| tx' | | ready] eqn:L;
        cbn [fst snd]; split; try (intros a r m H; discriminate).
      * right; exists ref, tx, (begin_processing now tx); cbn; repeat split; auto.
        rewrite E; reflexivity.
      * right; exists ref, tx, tx'; cbn; repeat split; auto.
        -- rewrite E; reflexivity.
        -- apply update_nth_twice.
      * right; exists ref, tx, (begin_processing now tx); cbn; repeat split; auto.
        rewrite E; reflexivity.
      * right; exists ref, tx, (begin_processing now tx); cbn; repeat split; auto.
        rewrite E; reflexivity.
      * intros a r m H; injection H as <- <- <-.
        exists (begin_processing now tx); split; [ exact D1 |].
        apply (loop_head_launch now _ _ L).
    + intros _; cbn; apply dict_get_mem with ref; exact G.
    + left; reflexivity.
  - destruct (tasks_sound C _ ref Ti eq_refl) as [tx [D _]].
    destruct (task_in_active s _ tid ref tx C Ti eq_refl eq_refl D) as [E [S M]].
    rewrite (loop_block_spec now tid ref _ tx D M S).
    destruct (loop_head now tx) as [| tx' | | ready] eqn:L; cbn [fst snd]; split;
      try (left; reflexivity); try (intros a r m H; discriminate).
    + right; exists ref, tx, tx'; cbn; repeat split; auto; rewrite E; reflexivity.
    + intros a r m H; injection H as <- <- <-.
      exists tx; split; [ exact D | apply (loop_head_launch now _ _ L) ].
  - destruct (tasks_sound C _ ref Ti eq_refl) as [tx [D _]].
    destruct (task_in_active s _ tid ref tx C Ti eq_refl eq_refl D) as [E [S M]].
    unfold batch_block; rewrite D; cbn [fst snd]; split.
    + right; exists ref, tx, (after_batch run now tx ready); cbn; repeat split; auto.
      rewrite E; reflexivity.
    + intros a r m H; discriminate.
  - split; [ left; reflexivity | intros a r m H; discriminate ].
Qed.

Lemma perform_batch_sound :
  forall e s, consistent s -> batch_sound s -> batch_sound (perform e s).
Proof.
  intros e s C B.
  assert (GROW : forall x r tx, deref (coordinator s) r = Some tx ->
                   nth_error (heap (coordinator s) ++ [x]) r = Some tx).
  { intros x r tx H; rewrite nth_error_app1; auto.
    apply nth_error_Some; unfold deref in H; congruence. }
  destruct e as [hex now b sl nft price md | hex now sl nft price md
                 | now tid reason | i now run]; cbn [perform].
  - intros t a r m H E; cbn in H; apply in_app_iff in H.
    destruct H as [H | [<- | []]]; [| discriminate ].
    destruct (B t a r m H E) as [tx [D M]]; exists tx; split; auto.
    unfold deref; cbn; apply GROW; exact D.
  - intros t a r m H E; cbn in H; apply in_app_iff in H.
    destruct H as [H | [<- | []]]; [| discriminate ].
    destruct (B t a r m H E) as [tx [D M]]; exists tx; split; auto.
    unfold deref; cbn; apply GROW; exact D.
  - intros t a r m H E; cbn in H.
    destruct (B t a r m H E) as [tx [D M]].
    destruct (dict_get tid (active_transactions (coordinator s))) as [ref |] eqn:G.
    2:{ rewrite cancel_transaction_absent by exact G; exists tx; auto. }
    destruct (active_sound C tid ref (dict_get_In _ _ _ _ G)) as [tx0 [D0 [E0 A0]]].
    destruct (status_eqb (tx_status tx0) COMPLETED || status_eqb (tx_status tx0) FAILED)
      eqn:X.
    + rewrite (cancel_transaction_finished now tid reason _ ref tx0 G D0).
      * exists tx; auto.
      * apply orb_true_iff in X; destruct X as [X | X]; apply status_eqb_eq in X; auto.
    + apply orb_false_iff in X; destruct X as [X1 X2].
      apply status_eqb_neq in X1, X2.
      rewrite (cancel_transaction_open now tid reason _ ref tx0 G D0 X1 X2).
      unfold deref; cbn; destruct (Nat.eq_dec r ref) as [-> | N].
      * rewrite D in D0; injection D0 as <-.
        exists (cancelled now reason tx); split; auto.
        apply nth_error_update_nth_same with tx; exact D.
      * exists tx; split; auto; rewrite nth_error_update_nth_other; auto.
  - destruct (nth_error (tasks s) i) as [t |] eqn:Hi; [| exact B ].
    destruct (resume_effect run now s i t C B Hi) as [HE TE].
    destruct (resume run now t (coordinator s)) as [c' t'] eqn:R; cbn [fst snd] in *.
    intros x a r m H E; cbn in H.
    apply In_nth_error in H; destruct H as [j Hj].
    apply nth_error_update_nth_cases in Hj; destruct Hj as [[-> ->] | [N Hj]].
    + apply (TE a r m E).
    + destruct (B x a r m (nth_error_In _ _ Hj) E) as [tx [D M]].
      exists tx; split; auto; unfold deref; cbn.
      destruct HE as [-> | [ref [tx0 [tx' [D0 [T0 ->]]]]]]; auto.
      rewrite nth_error_update_nth_other; auto; intros <-.
      apply (other_task_elsewhere s i j t x (transaction_id tx0) ref tx0 C Hi Hj N T0 D0
               eq_refl).
      subst x; reflexivity.
Qed.

Lemma initial_batch_sound : batch_sound initial_system.
Proof. intros t a r m []. Qed.

Lemma perform_all_invariants :
  forall es s,
    consistent s -> batch_sound s -> feasible es s ->
    consistent (perform_all es s) /\ batch_sound (perform_all es s).
Proof.
  intros es; induction es as [| e es IH]; intros s C B F; simpl; auto.
  destruct F as [F1 F2]; apply IH; auto.
  - apply perform_consistent; assumption.
  - apply perform_batch_sound; assumption.
Qed.

(** Every object survives an event, changed by the four assignments
    only. *)
Lemma perform_object :
  forall e s ref tx,
    consistent s -> batch_sound s ->
    deref (coordinator s) ref = Some tx ->
    exists tx',
      deref (coordinator (perform e s)) ref = Some tx' /\
      clos_refl_trans Transaction change tx tx'.
Proof.
  intros e s ref tx C B D; pose proof (perform_heap_change e s C B) as H.
  assert (K : heap (coordinator (perform e s)) = heap (coordinator s) \/
              (exists x, heap (coordinator (perform e s)) = heap (coordinator s) ++ [x]) \/
              exists ref0 tx0 tx0',
                deref (coordinator s) ref0 = Some tx0 /\
                clos_refl_trans Transaction change tx0 tx0' /\
                heap (coordinator (perform e s)) =
                  update_nth ref0 tx0' (heap (coordinator s))).
  { destruct e; [ right; left; eauto | right; left; eauto | |];
      (destruct H as [H | H]; [ left; exact H | right; right; exact H ]). }
  unfold deref in *.
  destruct K as [-> | [[x ->] | [ref0 [tx0 [tx0' [D0 [R ->]]]]]]].
  - exists tx; split; auto; apply rt_refl.
  - exists tx; split; [| apply rt_refl ].
    rewrite nth_error_app1; auto; apply nth_error_Some; congruence.
  - destruct (Nat.eq_dec ref ref0) as [-> | N].
    + rewrite D in D0; injection D0 as <-; exists tx0'; split; auto.
      apply nth_error_update_nth_same with tx; exact D.
    + exists tx; split; [| apply rt_refl ].
      rewrite nth_error_update_nth_other; auto.
Qed.

(** An object present after an event was there before it, or is the
    transaction that the event creates. *)
Lemma perform_new_object :
  forall e s ref tx',
    consistent s -> batch_sound s ->
    deref (coordinator (perform e s)) ref = Some tx' ->
    (exists tx, deref (coordinator s) ref = Some tx) \/
    (exists tid now b sl nft price md, tx' = new_purchase tid now b sl nft price md) \/
    (exists tid now sl nft price md, tx' = new_listing tid now sl nft price md).
Proof.
  intros e s ref tx' C B D; pose proof (perform_heap_change e s C B) as H.
  assert (OLD : ref < List.length (heap (coordinator s)) ->
                exists tx, deref (coordinator s) ref = Some tx).
  { intros L; unfold deref; destruct (nth_error (heap (coordinator s)) ref) eqn:E; eauto.
    apply nth_error_None in E; lia. }
  assert (NEW : forall x,
             heap (coordinator (perform e s)) = heap (coordinator s) ++ [x] ->
             (exists tx, deref (coordinator s) ref = Some tx) \/ tx' = x).
  { intros x E; unfold deref in D; rewrite E in D.
    destruct (Nat.lt_ge_cases ref (List.length (heap (coordinator s)))) as [L | L]; auto.
    rewrite nth_error_app2 in D by exact L.
    destruct (ref - List.length (heap (coordinator s))) as [| d]; cbn in D.
    - injection D as <-; auto.
    - destruct d; discriminate. }
  assert (SAME : List.length (heap (coordinator (perform e s))) =
                 List.length (heap (coordinator s)) ->
                 exists tx, deref (coordinator s) ref = Some tx).
  { intros E; apply OLD; rewrite <- E; apply nth_error_Some.
    unfold deref in D; congruence. }
  destruct e as [hex now b sl nft price md | hex now sl nft price md
                 | now tid reason | i now run].
  - destruct (NEW _ H) as [O | ->]; auto; right; left; eauto 10.
  - destruct (NEW _ H) as [O | ->]; auto; right; right; eauto 10.
  - left; apply SAME; destruct H as [-> | [r [t [t' [_ [_ ->]]]]]]; auto.
    apply length_update_nth.
  - left; apply SAME; destruct H as [-> | [r [t [t' [_ [_ ->]]]]]]; auto.
    apply length_update_nth.
Qed.

(** A property of the transactions the two operations create that the
    four assignments keep holds of every transaction object the
    coordinator ever holds. *)
Lemma reachable_object_invariant :
  forall P : Transaction -> Prop,
    (forall tid now b sl nft price md, P (new_purchase tid now b sl nft price md)) ->
    (forall tid now sl nft price md, P (new_listing tid now sl nft price md)) ->
    (forall tx tx', change tx tx' -> P tx -> P tx') ->
    forall es, feasible es initial_system ->
    forall tx, In tx (heap (coordinator (perform_all es initial_system))) -> P tx.
Proof.
  intros P PP PL PC.
  assert (CL : forall tx tx', clos_refl_trans Transaction change tx tx' -> P tx -> P tx').
  { intros tx tx' R; induction R; eauto. }
  assert (G : forall es s,
             consistent s -> batch_sound s -> feasible es s ->
             (forall tx, In tx (heap (coordinator s)) -> P tx) ->
             forall tx, In tx (heap (coordinator (perform_all es s))) -> P tx).
  { intros es; induction es as [| e es IH]; intros s C B F H tx Ht; simpl in *; auto.
    destruct F as [F1 F2].
    apply (IH (perform e s)); auto.
    - apply perform_consistent; assumption.
    - apply perform_batch_sound; assumption.
    - intros x Hx; apply In_nth_error in Hx; destruct Hx as [r Hr].
      destruct (perform_new_object e s r x C B Hr)
        as [[y Dy] | [[tid [now [b [sl [nft [price [md ->]]]]]]]
                     | [tid [now [sl [nft [price [md ->]]]]]]]]; auto.
      destruct (perform_object e s r y C B Dy) as [x' [Dx' R]].
      unfold deref in Hr, Dx'; rewrite Hr in Dx'; injection Dx' as <-.
      apply (CL y x R), H, (deref_In _ r y Dy). }
  intros es F tx Ht.
  apply (G es initial_system initial_consistent initial_batch_sound F); auto.
  intros x [].
Qed.

(** ** Invariants of the transaction objects *)

Lemma loop_head_terminal_cases :
  forall now tx tx',
    loop_head now tx = Terminal tx' ->
    tx_status tx = EXECUTING /\
    ((tx' = set_tx_status FAILED tx /\ some_failed tx) \/
     (tx' = set_completed_at (Some now) (set_tx_status COMPLETED tx) /\
      all_completed tx)).
Proof.
  intros now tx tx' H; unfold loop_head in H.
  destruct (status_eqb (tx_status tx) EXECUTING) eqn:E; [| discriminate ].
  apply status_eqb_eq in E; split; auto.
  destruct (get_next_pending_steps tx); [| discriminate ].
  destruct (filter (has_status FAILED) (steps tx)) as [| f fs] eqn:F.
  - destruct (Nat.eqb _ _) eqn:L; [| discriminate ].
    injection H as <-; right; split; auto.
    apply Nat.eqb_eq in L; intros s Hs; apply has_status_true.
    apply (filter_full _ _ _ L s Hs).
  - injection H as <-; left; split; auto.
    apply filter_cons_witness in F; destruct F as [F1 F2].
    exists f; split; auto; apply has_status_true; exact F2.
Qed.

Lemma active_status_cases :
  forall st, is_active_status st = true -> st = PENDING \/ st = EXECUTING.
Proof. intros []; cbn; auto; discriminate. Qed.

Lemma after_batch_steps_mask :
  forall run now tx,
    steps (after_batch run now tx (ready_mask tx)) =
    map (advance run (completed_step_ids tx)) (steps tx).
Proof. exact after_batch_steps. Qed.

Lemma change_steps :
  forall tx tx',
    change tx tx' ->
    steps tx' = steps tx \/
    exists run, steps tx' = map (advance run (completed_step_ids tx)) (steps tx).
Proof.
  intros tx tx' H; destruct H as [now tx A | now reason tx A | run now tx S | now tx tx' L];
    auto.
  - right; exists run; apply after_batch_steps.
  - apply loop_head_terminal in L; destruct L as [_ [_ [L _]]]; auto.
Qed.

Lemma step_fields_advance :
  forall run done s, step_fields_ok s -> step_fields_ok (advance run done s).
Proof.
  intros run done s H; unfold advance.
  destruct (is_ready done s) eqn:R; auto.
  unfold is_ready in R; apply andb_true_iff in R; destruct R as [R _].
  apply has_status_true in R; unfold step_fields_ok in *; rewrite R in H.
  destruct H as [H1 [H2 H3]].
  destruct (run s); cbn; repeat split; auto; discriminate.
Qed.

(** X1.  In every state the coordinator can reach, each step of each
    transaction has a result and a timestamp exactly when it is
    completed, an error message exactly when it has failed, and none of
    the three while it is pending. *)
Theorem step_fields_match_status :
  forall es,
    feasible es initial_system ->
    Forall (fun tx => Forall step_fields_ok (steps tx))
      (heap (coordinator (perform_all es initial_system))).
Proof.
  intros es F; apply Forall_forall.
  apply (reachable_object_invariant
           (fun tx => Forall step_fields_ok (steps tx))); auto.
  - intros; cbn; repeat constructor.
  - intros; cbn; repeat constructor.
  - intros tx tx' C P; destruct (change_steps tx tx' C) as [-> | [run ->]]; auto.
    apply Forall_forall; intros s Hs; apply in_map_iff in Hs.
    destruct Hs as [x [<- Hx]]; apply step_fields_advance.
    rewrite Forall_forall in P; auto.
Qed.

Lemma step_fields_match_status_busy :
  Forall (fun tx => Forall step_fields_ok (steps tx))
    (heap (coordinator (perform_all busy_events initial_system))).
Proof.
  apply (step_fields_match_status busy_events).
  apply feasible_check_sound; vm_compute; reflexivity.
Defined.

(** X2.  In every state the coordinator can reach, a transaction has a
    [completed_at] stamp exactly when its status is [COMPLETED]. *)
Theorem completed_at_marks_completed :
  forall es,
    feasible es initial_system ->
    Forall (fun tx => completed_at tx = None <-> tx_status tx <> COMPLETED)
      (heap (coordinator (perform_all es initial_system))).
Proof.
  intros es F; apply Forall_forall.
  apply (reachable_object_invariant
           (fun tx => completed_at tx = None <-> tx_status tx <> COMPLETED)); auto.
  - intros; cbn; split; [ discriminate | reflexivity ].
  - intros; cbn; split; [ discriminate | reflexivity ].
  - intros tx tx' C P.
    destruct C as [now tx A | now reason tx A | run now tx S | now tx tx' L]; cbn.
    + apply active_status_cases in A; split; [ discriminate |].
      intros _; apply P; destruct A as [-> | ->]; discriminate.
    + apply active_status_cases in A; split; [ discriminate |].
      intros _; apply P; destruct A as [-> | ->]; discriminate.
    + exact P.
    + apply loop_head_terminal_cases in L.
      destruct L as [E [[-> _] | [-> _]]]; cbn.
      * split; [ discriminate |]; intros _; apply P; rewrite E; discriminate.
      * split; [ discriminate | intros N; elim N; reflexivity ].
Qed.

Lemma completed_at_marks_completed_busy :
  Forall (fun tx => completed_at tx = None <-> tx_status tx <> COMPLETED)
    (heap (coordinator (perform_all busy_events initial_system))).
Proof.
  apply (completed_at_marks_completed busy_events).
  apply feasible_check_sound; vm_compute; reflexivity.
Defined.

(** X3.  In every state the coordinator can reach, whatever the
    interleaving of calls and tasks: no transaction is [APPROVED]; the
    steps of a [PENDING] transaction are all pending; those of a
    [COMPLETED] one are all completed; a [FAILED] one has a failed step. *)
Theorem status_is_backed_by_steps :
  forall es,
    feasible es initial_system ->
    Forall status_backed (heap (coordinator (perform_all es initial_system))).
Proof.
  intros es F; apply Forall_forall.
  apply (reachable_object_invariant status_backed); auto.
  - intros; unfold status_backed; cbn; repeat split; try discriminate.
    intros _ s Hs; apply (new_purchase_pending tid now b sl nft price md s Hs).
  - intros; unfold status_backed; cbn; repeat split; try discriminate.
    intros _ s Hs; apply (new_listing_pending tid now sl nft price md s Hs).
  - intros tx tx' C P.
    destruct C as [now tx A | now reason tx A | run now tx S | now tx tx' L].
    + unfold status_backed; cbn; repeat split; discriminate.
    + unfold status_backed; cbn; repeat split; discriminate.
    + unfold status_backed; cbn [after_batch set_updated_at tx_status
                                   execute_transaction_steps set_steps].
      destruct S as [S | S]; rewrite S; repeat split; discriminate.
    + apply loop_head_terminal_cases in L.
      destruct L as [E [[-> SF] | [-> AC]]]; unfold status_backed; cbn;
        repeat split; try discriminate; auto.
Qed.

Lemma status_is_backed_by_steps_busy :
  Forall status_backed (heap (coordinator (perform_all busy_events initial_system))).
Proof.
  apply (status_is_backed_by_steps busy_events).
  apply feasible_check_sound; vm_compute; reflexivity.
Defined.

Lemma perform_all_object :
  forall es s ref tx,
    consistent s -> batch_sound s -> feasible es s ->
    deref (coordinator s) ref = Some tx ->
    exists tx',
      deref (coordinator (perform_all es s)) ref = Some tx' /\
      clos_refl_trans Transaction change tx tx'.
Proof.
  intros es; induction es as [| e es IH]; intros s ref tx C B F D; simpl.
  - exists tx; split; auto; apply rt_refl.
  - destruct F as [F1 F2].
    destruct (perform_object e s ref tx C B D) as [tx1 [D1 R1]].
    destruct (IH (perform e s) ref tx1) as [tx' [D' R']]; auto.
    + apply perform_consistent; assumption.
    + apply perform_batch_sound; assumption.
    + exists tx'; split; auto; apply rt_trans with tx1; assumption.
Qed.

Lemma reachable_invariants :
  forall es,
    feasible es initial_system ->
    consistent (perform_all es initial_system) /\
    batch_sound (perform_all es initial_system).
Proof.
  intros es F; apply perform_all_invariants; auto.
  - apply initial_consistent.
  - apply initial_batch_sound.
Qed.

Lemma record_outcome_identity :
  forall s o, step_identity (record_outcome s o) = step_identity s.
Proof. intros s [r t | m | e t]; reflexivity. Qed.

Lemma change_identity :
  forall tx tx', change tx tx' -> transaction_identity tx' = transaction_identity tx.
Proof.
  intros tx tx' H; destruct H as [now tx A | now reason tx A | run now tx S | now tx tx' L];
    try reflexivity.
  - unfold transaction_identity.
    replace (map step_identity (steps (after_batch run now tx (ready_mask tx))))
      with (map step_identity (steps tx)); [ reflexivity |].
    rewrite after_batch_steps, map_map; apply map_ext; intros s; unfold advance.
    destruct (is_ready (completed_step_ids tx) s); auto.
    symmetry; apply record_outcome_identity.
  - apply loop_head_terminal_cases in L; destruct L as [_ [[-> _] | [-> _]]];
      reflexivity.
Qed.

Lemma changes_identity :
  forall tx tx',
    clos_refl_trans Transaction change tx tx' ->
    transaction_identity tx' = transaction_identity tx.
Proof.
  intros tx tx' R; induction R as [x y H | x | x y z _ IH1 _ IH2]; auto.
  - apply change_identity; assumption.
  - congruence.
Qed.

(** X4.  Whatever happens after a transaction has been created, its id,
    type, initiator, participants, total value, fees and creation time
    stay what they were, and so do the id, agent, action, parameters and
    dependencies of each of its steps: no step is added, removed or
    re-planned. *)
Theorem created_fields_never_change :
  forall es es' ref tx,
    feasible es initial_system ->
    feasible es' (perform_all es initial_system) ->
    deref (coordinator (perform_all es initial_system)) ref = Some tx ->
    exists tx',
      deref (coordinator (perform_all es' (perform_all es initial_system))) ref =
        Some tx' /\
      transaction_identity tx' = transaction_identity tx.
Proof.
  intros es es' ref tx F F' D.
  destruct (reachable_invariants es F) as [C B].
  destruct (perform_all_object es' _ ref tx C B F' D) as [tx' [D' R]].
  exists tx'; split; auto; apply changes_identity; exact R.
Qed.

Lemma created_fields_never_change_sample :
  exists tx tx',
    deref (coordinator (perform_all in_flight_events initial_system)) 0 = Some tx /\
    deref (coordinator (perform_all later_events
                          (perform_all in_flight_events initial_system))) 0 =
      Some tx' /\
    transaction_identity tx' = transaction_identity tx.
Proof.
  eexists; match goal with
           | |- exists tx', deref _ _ = Some ?tx /\ _ =>
               destruct (created_fields_never_change in_flight_events later_events 0 tx)
                 as [tx' [D' I]]
           end.
  - apply feasible_check_sound; vm_compute; reflexivity.
  - apply feasible_check_sound; vm_compute; reflexivity.
  - vm_compute; reflexivity.
  - exists tx'; split; [ vm_compute; reflexivity | split; [ exact D' | exact I ] ].
Defined.

Lemma change_keeps_finished :
  forall tx tx' i st,
    change tx tx' ->
    nth_error (steps tx) i = Some st -> status st <> PENDING ->
    nth_error (steps tx') i = Some st.
Proof.
  intros tx tx' i st C Hi N; destruct (change_steps tx tx' C) as [-> | [run ->]]; auto.
  rewrite <- (advance_finished run (completed_step_ids tx) st N) at 1.
  apply map_nth_error; exact Hi.
Qed.

Lemma changes_keep_finished :
  forall tx tx',
    clos_refl_trans Transaction change tx tx' ->
    forall i st,
      nth_error (steps tx) i = Some st -> status st <> PENDING ->
      nth_error (steps tx') i = Some st.
Proof.
  intros tx tx' R; induction R as [x y H | x | x y z _ IH1 _ IH2]; intros i st Hi N;
    auto.
  apply (change_keeps_finished x y i st H Hi N).
Qed.

(** X5.  A step that is completed or failed is never touched again:
    whatever calls and task resumptions follow, cancellations that race a
    batch included, it stays exactly as it is.  There is no retry and no
    rollback. *)
Theorem finished_steps_are_final :
  forall es es' ref tx i st,
    feasible es initial_system ->
    feasible es' (perform_all es initial_system) ->
    deref (coordinator (perform_all es initial_system)) ref = Some tx ->
    nth_error (steps tx) i = Some st ->
    status st <> PENDING ->
    exists tx',
      deref (coordinator (perform_all es' (perform_all es initial_system))) ref =
        Some tx' /\
      nth_error (steps tx') i = Some st.
Proof.
  intros es es' ref tx i st F F' D Hi N.
  destruct (reachable_invariants es F) as [C B].
  destruct (perform_all_object es' _ ref tx C B F' D) as [tx' [D' R]].
  exists tx'; split; auto; apply (changes_keep_finished tx tx' R i st Hi N).
Qed.

Lemma finished_steps_are_final_sample :
  exists tx st tx',
    deref (coordinator (perform_all (in_flight_events ++ [Resume 0 "t3" always_ok])
                          initial_system)) 0 = Some tx /\
    nth_error (steps tx) 1 = Some st /\
    status st = COMPLETED /\
    deref (coordinator
             (perform_all later_events
                (perform_all (in_flight_events ++ [Resume 0 "t3" always_ok])
                   initial_system))) 0 = Some tx' /\
    nth_error (steps tx') 1 = Some st.
Proof.
  eexists; eexists.
  match goal with
  | |- exists tx', deref _ _ = Some ?tx /\ nth_error _ _ = Some ?st /\ _ =>
      assert (D : deref (coordinator
                           (perform_all (in_flight_events ++ [Resume 0 "t3" always_ok])
                              initial_system)) 0 = Some tx)
        by (vm_compute; reflexivity);
      assert (Hi : nth_error (steps tx) 1 = Some st) by (vm_compute; reflexivity);
      destruct (finished_steps_are_final
                  (in_flight_events ++ [Resume 0 "t3" always_ok]) later_events 0 tx 1 st)
        as [tx' [D' K]]
  end.
  - apply feasible_check_sound; vm_compute; reflexivity.
  - apply feasible_check_sound; vm_compute; reflexivity.
  - exact D.
  - exact Hi.
  - discriminate.
  - exists tx'; repeat split; auto.
Defined.

Lemma advance_started_after :
  forall run tx tx',
    steps tx' = map (advance run (completed_step_ids tx)) (steps tx) ->
    started_after_dependencies tx -> started_after_dependencies tx'.
Proof.
  intros run tx tx' E J.
  assert (G : forall d, In d (completed_step_ids tx) -> In d (completed_step_ids tx')).
  { intros d H; apply completed_step_ids_In in H; destruct H as [c [Hc [Ec Sc]]].
    apply completed_step_ids_In; exists c; repeat split; auto.
    rewrite E; apply in_map_iff; exists c; split; auto.
    apply advance_finished; rewrite Sc; discriminate. }
  intros s' Hs' NP; apply dependencies_completed_ids; intros d Hd; apply G.
  rewrite E in Hs'; apply in_map_iff in Hs'; destruct Hs' as [s [<- Hs]].
  destruct (advance_graph run (completed_step_ids tx) s) as [_ Dp]; rewrite Dp in Hd.
  destruct (is_ready (completed_step_ids tx) s) eqn:R.
  - apply is_ready_spec in R; destruct R as [_ R].
    apply dependencies_completed_ids with s; assumption.
  - rewrite advance_not_selected in NP by assumption.
    apply dependencies_completed_ids with s; auto.
Qed.

Lemma started_after_same_steps :
  forall tx tx',
    steps tx' = steps tx ->
    started_after_dependencies tx -> started_after_dependencies tx'.
Proof.
  intros tx tx' E J s Hs N d Hd; rewrite E in Hs.
  destruct (J s Hs N d Hd) as [c [Hc Rest]]; exists c; rewrite E; auto.
Qed.

(** X6.  Dependency ordering holds under every interleaving: in every
    state the coordinator can reach, each step that is completed or has
    failed lists only dependencies that are ids of completed steps of its
    transaction. *)
Theorem dependencies_respected_everywhere :
  forall es,
    feasible es initial_system ->
    Forall started_after_dependencies
      (heap (coordinator (perform_all es initial_system))).
Proof.
  intros es F; apply Forall_forall.
  apply (reachable_object_invariant started_after_dependencies); auto.
  - intros tid now b sl nft price md s Hs N.
    elim N; apply (new_purchase_pending tid now b sl nft price md s Hs).
  - intros tid now sl nft price md s Hs N.
    elim N; apply (new_listing_pending tid now sl nft price md s Hs).
  - intros tx tx' C J; destruct (change_steps tx tx' C) as [E | [run E]].
    + apply (started_after_same_steps tx tx' E J).
    + apply (advance_started_after run tx tx' E J).
Qed.

Lemma dependencies_respected_busy :
  Forall started_after_dependencies
    (heap (coordinator (perform_all busy_events initial_system))).
Proof.
  apply (dependencies_respected_everywhere busy_events).
  apply feasible_check_sound; vm_compute; reflexivity.
Defined.

(** ** The two plans at work *)

Lemma eqb_append_prefix :
  forall p a b, String.eqb (p ++ a) (p ++ b) = String.eqb a b.
Proof.
  intros p a b; induction p as [| c p IH]; simpl; auto.
  rewrite Ascii.eqb_refl; exact IH.
Qed.

Lemma step_name_eqb :
  forall tid a b, String.eqb (step_name tid a) (step_name tid b) = String.eqb a b.
Proof.
  intros tid a b; unfold step_name; rewrite !eqb_append_prefix; reflexivity.
Qed.

Lemma run_loop_idle :
  forall run clock n k tx,
    tx_status tx <> EXECUTING -> run_loop run clock k n tx = tx.
Proof.
  intros run clock n; induction n as [| n IH]; intros k tx N; simpl; auto.
  rewrite loop_iteration_idle by exact N; apply IH; exact N.
Qed.

Lemma processed_stays :
  forall run clock now n m tx,
    tx_status (processed run clock now n tx) <> EXECUTING ->
    processed run clock now (n + m) tx = processed run clock now n tx.
Proof.
  intros run clock now n m tx N; rewrite processed_add; apply run_loop_idle; exact N.
Qed.

(** One pass of the loop on a plan whose step ids are [step_name]s. *)
Ltac one_pass :=
  cbv -[step_name String.eqb PrimFloat.mul]; rewrite ?step_name_eqb;
  cbv -[step_name PrimFloat.mul]; reflexivity.

(** X7.  A purchase whose handlers all return is driven through four
    batches, steps 1 and 2 together, then 3, then 4, then 5; the fifth
    pass of the loop sets [COMPLETED] and stamps [completed_at], the
    status query then shows 5/5, and further passes change nothing. *)
Theorem purchase_completes_in_five_passes :
  forall res time clock now tid t0 buyer seller nft price md,
    map (fun n => progress_of
                    (processed (returning res time) clock now n
                       (new_purchase tid t0 buyer seller nft price md)))
        [0; 1; 2; 3; 4; 5] =
      [ (EXECUTING, [PENDING; PENDING; PENDING; PENDING; PENDING]);
        (EXECUTING, [COMPLETED; COMPLETED; PENDING; PENDING; PENDING]);
        (EXECUTING, [COMPLETED; COMPLETED; COMPLETED; PENDING; PENDING]);
        (EXECUTING, [COMPLETED; COMPLETED; COMPLETED; COMPLETED; PENDING]);
        (EXECUTING, [COMPLETED; COMPLETED; COMPLETED; COMPLETED; COMPLETED]);
        (COMPLETED, [COMPLETED; COMPLETED; COMPLETED; COMPLETED; COMPLETED]) ] /\
    completed_at (processed (returning res time) clock now 5
                    (new_purchase tid t0 buyer seller nft price md)) =
      Some (clock 4) /\
    dict_get "progress"
      (status_report (processed (returning res time) clock now 5
                        (new_purchase tid t0 buyer seller nft price md))) =
      Some (PStr "5/5") /\
    (forall m,
        processed (returning res time) clock now (5 + m)
          (new_purchase tid t0 buyer seller nft price md) =
        processed (returning res time) clock now 5
          (new_purchase tid t0 buyer seller nft price md)).
Proof.
  intros res time clock now tid t0 buyer seller nft price md.
  set (run := returning res time).
  set (tx := new_purchase tid t0 buyer seller nft price md).
  eassert (E0 : processed run clock now 0 tx = _).
  { unfold processed, run, returning, tx; one_pass. }
  eassert (E1 : processed run clock now 1 tx = _).
  { rewrite processed_succ, E0; unfold run, returning; one_pass. }
  eassert (E2 : processed run clock now 2 tx = _).
  { rewrite processed_succ, E1; unfold run, returning; one_pass. }
  eassert (E3 : processed run clock now 3 tx = _).
  { rewrite processed_succ, E2; unfold run, returning; one_pass. }
  eassert (E4 : processed run clock now 4 tx = _).
  { rewrite processed_succ, E3; unfold run, returning; one_pass. }
  eassert (E5 : processed run clock now 5 tx = _).
  { rewrite processed_succ, E4; unfold run, returning; one_pass. }
  split; [| split; [| split ]].
  - cbn [map]; rewrite E0, E1, E2, E3, E4, E5; reflexivity.
  - rewrite E5; reflexivity.
  - rewrite E5; reflexivity.
  - intros m; apply processed_stays; rewrite E5; discriminate.
Qed.

(** X8.  A listing whose handlers all return is driven through two
    batches, steps 1 and 2 together, then 3; the third pass sets
    [COMPLETED], the status query then shows 3/3, and further passes
    change nothing. *)
Theorem listing_completes_in_three_passes :
  forall res time clock now tid t0 seller nft price md,
    map (fun n => progress_of
                    (processed (returning res time) clock now n
                       (new_listing tid t0 seller nft price md)))
        [0; 1; 2; 3] =
      [ (EXECUTING, [PENDING; PENDING; PENDING]);
        (EXECUTING, [COMPLETED; COMPLETED; PENDING]);
        (EXECUTING, [COMPLETED; COMPLETED; COMPLETED]);
        (COMPLETED, [COMPLETED; COMPLETED; COMPLETED]) ] /\
    completed_at (processed (returning res time) clock now 3
                    (new_listing tid t0 seller nft price md)) =
      Some (clock 2) /\
    dict_get "progress"
      (status_report (processed (returning res time) clock now 3
                        (new_listing tid t0 seller nft price md))) =
      Some (PStr "3/3") /\
    (forall m,
        processed (returning res time) clock now (3 + m)
          (new_listing tid t0 seller nft price md) =
        processed (returning res time) clock now 3
          (new_listing tid t0 seller nft price md)).
Proof.
  intros res time clock now tid t0 seller nft price md.
  set (run := returning res time).
  set (tx := new_listing tid t0 seller nft price md).
  eassert (E0 : processed run clock now 0 tx = _).
  { unfold processed, run, returning, tx; one_pass. }
  eassert (E1 : processed run clock now 1 tx = _).
  { rewrite processed_succ, E0; unfold run, returning; one_pass. }
  eassert (E2 : processed run clock now 2 tx = _).
  { rewrite processed_succ, E1; unfold run, returning; one_pass. }
  eassert (E3 : processed run clock now 3 tx = _).
  { rewrite processed_succ, E2; unfold run, returning; one_pass. }
  split; [| split; [| split ]].
  - cbn [map]; rewrite E0, E1, E2, E3; reflexivity.
  - rewrite E3; reflexivity.
  - rewrite E3; reflexivity.
  - intros m; apply processed_stays; rewrite E3; discriminate.
Qed.

(** X9.  A purchase whose escrow handler raises while the others
    return.  When what it raises is an instance of [Exception]: steps 1
    and 2 are completed in the first pass, step 3 fails in the second
    with the message recorded, the third pass sets [FAILED] without a
    [completed_at] stamp, steps 4 and 5 are pending then and for ever,
    and the status query shows 2/5.  When what it raises is no
    [Exception] ([asyncio.CancelledError]): step 3 is recorded as
    completed, with the exception object as its result and no error
    message, steps 4 and 5 are run, and the fifth pass sets
    [COMPLETED]. *)
Theorem purchase_when_escrow_raises :
  (forall msg res time clock now tid t0 buyer seller nft price md,
      map (fun n => progress_of
                      (processed (failing_on "setup_escrow" msg res time) clock now n
                         (new_purchase tid t0 buyer seller nft price md)))
          [0; 1; 2; 3] =
        [ (EXECUTING, [PENDING; PENDING; PENDING; PENDING; PENDING]);
          (EXECUTING, [COMPLETED; COMPLETED; PENDING; PENDING; PENDING]);
          (EXECUTING, [COMPLETED; COMPLETED; FAILED; PENDING; PENDING]);
          (FAILED, [COMPLETED; COMPLETED; FAILED; PENDING; PENDING]) ] /\
      (exists failed,
          nth_error (steps (processed (failing_on "setup_escrow" msg res time) clock now 3
                              (new_purchase tid t0 buyer seller nft price md))) 2 =
            Some failed /\
          action failed = "setup_escrow" /\
          error_message failed <> None /\
          result failed = None) /\
      completed_at (processed (failing_on "setup_escrow" msg res time) clock now 3
                      (new_purchase tid t0 buyer seller nft price md)) = None /\
      dict_get "progress"
        (status_report (processed (failing_on "setup_escrow" msg res time) clock now 3
                          (new_purchase tid t0 buyer seller nft price md))) =
        Some (PStr "2/5") /\
      (forall m,
          processed (failing_on "setup_escrow" msg res time) clock now (3 + m)
            (new_purchase tid t0 buyer seller nft price md) =
          processed (failing_on "setup_escrow" msg res time) clock now 3
            (new_purchase tid t0 buyer seller nft price md))) /\
  (forall exc res time clock now tid t0 buyer seller nft price md,
      map (fun n => progress_of
                      (processed (escaping_on "setup_escrow" exc res time) clock now n
                         (new_purchase tid t0 buyer seller nft price md)))
          [2; 3; 4; 5] =
        [ (EXECUTING, [COMPLETED; COMPLETED; COMPLETED; PENDING; PENDING]);
          (EXECUTING, [COMPLETED; COMPLETED; COMPLETED; COMPLETED; PENDING]);
          (EXECUTING, [COMPLETED; COMPLETED; COMPLETED; COMPLETED; COMPLETED]);
          (COMPLETED, [COMPLETED; COMPLETED; COMPLETED; COMPLETED; COMPLETED]) ] /\
      (exists escaped e,
          nth_error (steps (processed (escaping_on "setup_escrow" exc res time) clock now 5
                              (new_purchase tid t0 buyer seller nft price md))) 2 =
            Some escaped /\
          action escaped = "setup_escrow" /\
          result escaped = Some (PObject e) /\
          error_message escaped = None) /\
      dict_get "progress"
        (status_report (processed (escaping_on "setup_escrow" exc res time) clock now 5
                          (new_purchase tid t0 buyer seller nft price md))) =
        Some (PStr "5/5")).
Proof.
  split.
  - intros msg res time clock now tid t0 buyer seller nft price md.
    set (run := failing_on "setup_escrow" msg res time).
    set (tx := new_purchase tid t0 buyer seller nft price md).
    eassert (E0 : processed run clock now 0 tx = _).
    { unfold processed, run, failing_on, tx; one_pass. }
    eassert (E1 : processed run clock now 1 tx = _).
    { rewrite processed_succ, E0; unfold run, failing_on; one_pass. }
    eassert (E2 : processed run clock now 2 tx = _).
    { rewrite processed_succ, E1; unfold run, failing_on; one_pass. }
    eassert (E3 : processed run clock now 3 tx = _).
    { rewrite processed_succ, E2; unfold run, failing_on; one_pass. }
    split; [| split; [| split; [| split ]]].
    + cbn [map]; rewrite E0, E1, E2, E3; reflexivity.
    + rewrite E3; eexists; split; [ reflexivity |].
      repeat split; discriminate.
    + rewrite E3; reflexivity.
    + rewrite E3; reflexivity.
    + intros m; apply processed_stays; rewrite E3; discriminate.
  - intros exc res time clock now tid t0 buyer seller nft price md.
    set (run := escaping_on "setup_escrow" exc res time).
    set (tx := new_purchase tid t0 buyer seller nft price md).
    eassert (E0 : processed run clock now 0 tx = _).
    { unfold processed, run, escaping_on, tx; one_pass. }
    eassert (E1 : processed run clock now 1 tx = _).
    { rewrite processed_succ, E0; unfold run, escaping_on; one_pass. }
    eassert (E2 : processed run clock now 2 tx = _).
    { rewrite processed_succ, E1; unfold run, escaping_on; one_pass. }
    eassert (E3 : processed run clock now 3 tx = _).
    { rewrite processed_succ, E2; unfold run, escaping_on; one_pass. }
    eassert (E4 : processed run clock now 4 tx = _).
    { rewrite processed_succ, E3; unfold run, escaping_on; one_pass. }
    eassert (E5 : processed run clock now 5 tx = _).
    { rewrite processed_succ, E4; unfold run, escaping_on; one_pass. }
    split; [| split ].
    + cbn [map]; rewrite E2, E3, E4, E5; reflexivity.
    + rewrite E5; do 2 eexists; split; [ reflexivity |].
      repeat split; reflexivity.
    + rewrite E5; reflexivity.
Qed.

(** ** Initiating a listing, and the first status query *)

(** X10.  [initiate_nft_listing] returns the id ["tx_" ++ hex] and
    registers under it in the active set a new pending listing of the
    seller, valued at the asking price, with the two fixed fees and exactly
    three pending steps: ownership and valuation without dependencies, and
    the creation of the listing depending on both. *)
Theorem listing_plan_has_three_steps :
  forall hex now seller nft price metadata c,
    fst (initiate_nft_listing hex now seller nft price metadata c) =
      ("tx_" ++ hex)%string /\
    exists tx,
      find_transaction ("tx_" ++ hex)
        (snd (initiate_nft_listing hex now seller nft price metadata c)) = Some tx /\
      transaction_id tx = ("tx_" ++ hex)%string /\
      transaction_type tx = NFT_LISTING /\
      tx_status tx = PENDING /\
      initiator_address tx = seller /\
      participants tx =
        [ seller; "authenticity_validator"; "memory_appraiser";
          "marketplace_coordinator" ] /\
      total_value tx = price /\
      fees tx = [ ("listing_fee", 5%float); ("validation_fee", 3%float) ] /\
      completed_at tx = None /\
      map (fun s => (step_id s, agent_address s, action s, status s, dependencies s))
          (steps tx) =
        [ (("tx_" ++ hex ++ "_step_1")%string, "authenticity_validator",
           "verify_ownership", PENDING, []);
          (("tx_" ++ hex ++ "_step_2")%string, "memory_appraiser",
           "market_valuation", PENDING, []);
          (("tx_" ++ hex ++ "_step_3")%string, "marketplace_coordinator",
           "create_listing", PENDING,
           [ ("tx_" ++ hex ++ "_step_1")%string; ("tx_" ++ hex ++ "_step_2")%string ]) ].
Proof.
  intros hex now seller nft price metadata c; split; [ reflexivity |].
  exists (new_listing ("tx_" ++ hex) now seller nft price metadata).
  split; [| repeat split ].
  unfold find_transaction, initiate_nft_listing; cbn [snd _save_transaction_data
    active_transactions heap deref].
  rewrite dict_get_set_same; apply nth_error_snoc.
Qed.

Lemma status_of_new_transaction :
  forall tid ref tx c,
    steps tx <> [] ->
    get_transaction_status tid
      (_save_transaction_data
         (mkCoordinator (heap c ++ [tx])
            (dict_set tid (List.length (heap c)) (active_transactions c))
            (transaction_history c) ref)) =
    Value (Some (status_report tx)).
Proof.
  intros tid ref tx c N; unfold get_transaction_status, find_transaction.
  cbn [_save_transaction_data active_transactions heap deref].
  rewrite dict_get_set_same; unfold deref, _save_transaction_data; cbn [heap].
  rewrite nth_error_snoc.
  destruct (steps tx); [ contradiction | reflexivity ].
Qed.

(** X11.  The status query made right after an initiation, before the
    processing task has run, shows the transaction as pending with no step
    completed, 0/5 for a purchase and 0/3 for a listing, no completion
    time, and the first two steps as the next ones. *)
Theorem status_right_after_initiation :
  (forall hex now buyer seller nft price metadata c,
      exists d,
        get_transaction_status ("tx_" ++ hex)
          (snd (initiate_nft_purchase hex now buyer seller nft price metadata c)) =
          Value (Some d) /\
        dict_get "transaction_id" d = Some (PStr ("tx_" ++ hex)) /\
        dict_get "type" d = Some (PStr "nft_purchase") /\
        dict_get "status" d = Some (PStr "pending") /\
        dict_get "progress" d = Some (PStr "0/5") /\
        dict_get "progress_percentage" d = Some (PFloat 0%float) /\
        dict_get "total_value" d = Some (PFloat price) /\
        dict_get "created_at" d = Some (PStr now) /\
        dict_get "updated_at" d = Some (PStr now) /\
        dict_get "completed_at" d = Some PNone /\
        dict_get "next_steps" d =
          Some (PList [ ready_entry ("tx_" ++ hex) "1" "memory_appraiser"
                          "verify_valuation";
                        ready_entry ("tx_" ++ hex) "2" "authenticity_validator"
                          "verify_authenticity" ])) /\
  (forall hex now seller nft price metadata c,
      exists d,
        get_transaction_status ("tx_" ++ hex)
          (snd (initiate_nft_listing hex now seller nft price metadata c)) =
          Value (Some d) /\
        dict_get "transaction_id" d = Some (PStr ("tx_" ++ hex)) /\
        dict_get "type" d = Some (PStr "nft_listing") /\
        dict_get "status" d = Some (PStr "pending") /\
        dict_get "progress" d = Some (PStr "0/3") /\
        dict_get "progress_percentage" d = Some (PFloat 0%float) /\
        dict_get "total_value" d = Some (PFloat price) /\
        dict_get "created_at" d = Some (PStr now) /\
        dict_get "updated_at" d = Some (PStr now) /\
        dict_get "completed_at" d = Some PNone /\
        dict_get "next_steps" d =
          Some (PList [ ready_entry ("tx_" ++ hex) "1" "authenticity_validator"
                          "verify_ownership";
                        ready_entry ("tx_" ++ hex) "2" "memory_appraiser"
                          "market_valuation" ])).
Proof.
  split.
  - intros hex now buyer seller nft price metadata c.
    exists (status_report (new_purchase ("tx_" ++ hex) now buyer seller nft price metadata)).
    split; [| repeat split ].
    unfold initiate_nft_purchase; cbn [snd].
    apply status_of_new_transaction; discriminate.
  - intros hex now seller nft price metadata c.
    exists (status_report (new_listing ("tx_" ++ hex) now seller nft price metadata)).
    split; [| repeat split ].
    unfold initiate_nft_listing; cbn [snd].
    apply status_of_new_transaction; discriminate.
Qed.

(** ** The metadata object of a listing *)

Lemma objects_app :
  forall h r1 r2, objects h (r1 ++ r2) = objects h r1 ++ objects h r2.
Proof. intros h r1 r2; unfold objects; apply flat_map_app. Qed.

(** X12.  The dictionary a caller passes as the metadata of a listing,
    when it is not empty, is the object the transaction keeps as its
    metadata and also the one stored under ["metadata"] in the parameters
    of the third step.  A cancellation writes its reason into that object:
    afterwards the reason shows in the parameters of the step, in the
    object and in the snapshot file.  A listing created without metadata,
    or with an empty dictionary, keeps [None], or the empty dictionary, in
    the step. *)
Theorem cancel_reason_reaches_listing_step :
  forall hex now seller nft price md c now' reason,
    let created := initiate_nft_listing hex now seller nft price md c in
    let after := cancel_transaction now' (fst created) reason (snd created) in
    fst after = true /\
    exists tx s,
      deref (snd after) (List.length (heap c)) = Some tx /\
      tx_status tx = CANCELLED /\
      metadata tx =
        dict_set "cancellation_reason" (PStr reason) (metadata_or_empty md) /\
      nth_error (steps tx) 2 = Some s /\
      action s = "create_listing" /\
      dict_get "metadata" (parameter_values (metadata tx) s) =
        Some match md with
             | None => PNone
             | Some [] => PDict []
             | Some (e :: d) =>
                 PDict (dict_set "cancellation_reason" (PStr reason) (e :: d))
             end /\
      exists records,
        data_file (snd after) = Some records /\
        In (transaction_to_record tx) records.
Proof.
  intros hex now seller nft price md c now' reason created after.
  set (tid := ("tx_" ++ hex)%string).
  set (tx := new_listing tid now seller nft price md).
  set (ref := List.length (heap c)).
  assert (G : dict_get tid (active_transactions (snd created)) = Some ref).
  { unfold created, initiate_nft_listing; cbn [snd _save_transaction_data
      active_transactions]; apply dict_get_set_same. }
  assert (D : deref (snd created) ref = Some tx).
  { unfold created, initiate_nft_listing, deref; cbn [snd _save_transaction_data heap].
    apply nth_error_snoc. }
  assert (E : after =
              (true,
               _save_transaction_data
                 (move_to_history tid ref
                    (set_heap (update_nth ref (cancelled now' reason tx)
                                 (heap (snd created))) (snd created))))).
  { unfold after; change (fst created) with tid.
    apply (cancel_transaction_open now' tid reason (snd created) ref tx G D);
      discriminate. }
  rewrite E; cbn [fst snd]; split; [ reflexivity |].
  assert (D' : nth_error (update_nth ref (cancelled now' reason tx) (heap (snd created)))
                 ref = Some (cancelled now' reason tx)).
  { apply nth_error_update_nth_same with tx; exact D. }
  exists (cancelled now' reason tx).
  exists (mkStep (step_name tid "3") "marketplace_coordinator" "create_listing"
            [ ("seller_address", Own (PStr seller));
              ("nft_token_id", Own (PStr nft));
              ("asking_price", Own (PFloat price));
              ("metadata", metadata_argument md) ]
            PENDING None None None [ step_name tid "1"; step_name tid "2" ]).
  split; [ exact D' |].
  split; [ reflexivity |].
  split; [ reflexivity |].
  split; [ reflexivity |].
  split; [ reflexivity |].
  split.
  - destruct md as [[| e d] |]; reflexivity.
  - eexists; split; [ reflexivity |].
    apply in_map; unfold all_transactions; apply in_app_iff; right.
    unfold history_objects, move_to_history; cbn [heap transaction_history set_heap].
    rewrite objects_app; apply in_app_iff; right.
    unfold objects; cbn [flat_map]; rewrite D'; left; reflexivity.
Qed.

(** ** Both plans end under every behaviour of the handlers *)

Lemma position_lt_check :
  forall ss,
    ranked_check (position (map step_id ss)) ss = true -> acyclic ss.
Proof. intros ss; apply ranked_check_sound. Qed.

Ltac plan_check :=
  cbv -[step_name String.eqb]; rewrite ?step_name_eqb; cbv -[step_name]; reflexivity.

Lemma purchase_plan_sound :
  forall tid now buyer seller nft price md,
    steps_three_valued (new_purchase tid now buyer seller nft price md) /\
    dependencies_closed (steps (new_purchase tid now buyer seller nft price md)) /\
    acyclic (steps (new_purchase tid now buyer seller nft price md)).
Proof.
  intros tid now buyer seller nft price md; split; [| split ].
  - apply pending_three_valued, new_purchase_pending.
  - apply closed_check_sound; plan_check.
  - apply position_lt_check; plan_check.
Qed.

Lemma listing_plan_sound :
  forall tid now seller nft price md,
    steps_three_valued (new_listing tid now seller nft price md) /\
    dependencies_closed (steps (new_listing tid now seller nft price md)) /\
    acyclic (steps (new_listing tid now seller nft price md)).
Proof.
  intros tid now seller nft price md; split; [| split ].
  - apply pending_three_valued, new_listing_pending.
  - apply closed_check_sound; plan_check.
  - apply position_lt_check; plan_check.
Qed.

(** X13.  Whatever the handlers do, return or raise, on whichever steps,
    the loop of [process_transaction] brings a purchase to [COMPLETED] or
    [FAILED] within six passes and a listing within four, and the status
    it sets agrees with the steps: every step completed, or one failed. *)
Theorem initiated_transactions_always_end :
  forall run clock now,
    (forall tid t0 buyer seller nft price md,
        exists n, n <= 6 /\
          status_sound (processed run clock now n
                          (new_purchase tid t0 buyer seller nft price md)) /\
          (tx_status (processed run clock now n
                        (new_purchase tid t0 buyer seller nft price md)) = COMPLETED \/
           tx_status (processed run clock now n
                        (new_purchase tid t0 buyer seller nft price md)) = FAILED)) /\
    (forall tid t0 seller nft price md,
        exists n, n <= 4 /\
          status_sound (processed run clock now n
                          (new_listing tid t0 seller nft price md)) /\
          (tx_status (processed run clock now n
                        (new_listing tid t0 seller nft price md)) = COMPLETED \/
           tx_status (processed run clock now n
                        (new_listing tid t0 seller nft price md)) = FAILED)).
Proof.
  intros run clock now; split.
  - intros tid t0 buyer seller nft price md.
    destruct (purchase_plan_sound tid t0 buyer seller nft price md) as [V [C A]].
    destruct (loop_ends run clock 5 0
                (begin_processing now (new_purchase tid t0 buyer seller nft price md)))
      as [n [Hn T]]; auto.
    exists n; split; [ lia | split; [| exact T ] ].
    unfold processed; apply run_loop_sound, begin_processing_sound.
  - intros tid t0 seller nft price md.
    destruct (listing_plan_sound tid t0 seller nft price md) as [V [C A]].
    destruct (loop_ends run clock 3 0
                (begin_processing now (new_listing tid t0 seller nft price md)))
      as [n [Hn T]]; auto.
    exists n; split; [ lia | split; [| exact T ] ].
    unfold processed; apply run_loop_sound, begin_processing_sound.
Qed.

(** ** The two queries in every reachable state *)

Lemma In_objects :
  forall h refs ref tx,
    In ref refs -> nth_error h ref = Some tx -> In tx (objects h refs).
Proof.
  intros h refs ref tx H D; unfold objects; apply in_flat_map.
  exists ref; split; auto; rewrite D; left; reflexivity.
Qed.

Lemma find_by_id :
  forall l tx,
    In tx l ->
    (forall x, In x l -> transaction_id x = transaction_id tx -> x = tx) ->
    find (fun t => String.eqb (transaction_id t) (transaction_id tx)) l = Some tx.
Proof.
  intros l tx; induction l as [| a l IH]; intros H U; [ destruct H |].
  cbn [find]; destruct (String.eqb (transaction_id a) (transaction_id tx)) eqn:E.
  - apply String.eqb_eq in E; f_equal; apply U; [ left; reflexivity | exact E ].
  - destruct H as [-> | H]; [ rewrite String.eqb_refl in E; discriminate |].
    apply IH; auto; intros x Hx; apply U; right; exact Hx.
Qed.

Lemma find_transaction_of_object :
  forall s ref tx,
    consistent s -> deref (coordinator s) ref = Some tx ->
    find_transaction (transaction_id tx) (coordinator s) = Some tx.
Proof.
  intros s ref tx C D; unfold find_transaction.
  destruct (dict_get (transaction_id tx) (active_transactions (coordinator s)))
    as [r |] eqn:G.
  - destruct (active_sound C _ r (dict_get_In _ _ _ _ G)) as [x [Dx [Ex _]]].
    assert (r = ref) by (apply (ids_distinct_refs s r ref x tx C Dx D Ex)); subst r.
    exact D.
  - destruct (objects_located C ref tx D) as [A | H].
    + apply In_dict_get in A; [ congruence | apply (keys_distinct C) ].
    + apply find_by_id.
      * apply In_objects with ref; assumption.
      * intros x Hx E; apply objects_In in Hx; destruct Hx as [r [_ Dx]].
        assert (r = ref) by (apply (ids_distinct_refs s r ref x tx C Dx D E)); subst r.
        unfold deref in D; congruence.
Qed.

Lemma steps_never_empty :
  forall es, feasible es initial_system ->
    forall tx, In tx (heap (coordinator (perform_all es initial_system))) ->
      steps tx <> [].
Proof.
  apply (reachable_object_invariant (fun tx => steps tx <> [])).
  - intros; discriminate.
  - intros; discriminate.
  - intros tx tx' H N; destruct (change_steps tx tx' H) as [-> | [run ->]]; auto.
    destruct (steps tx); [ contradiction | discriminate ].
Qed.

(** X14.  At every moment, whatever calls were made and however the
    tasks were scheduled, the status query on the id of any transaction the
    coordinator has created answers with the report on that transaction: it
    never returns [None] for such an id and never raises. *)
Theorem status_query_always_answers :
  forall es,
    feasible es initial_system ->
    Forall (fun tx =>
              get_transaction_status (transaction_id tx)
                (coordinator (perform_all es initial_system)) =
              Value (Some (status_report tx)))
      (heap (coordinator (perform_all es initial_system))).
Proof.
  intros es F; apply Forall_forall; intros tx H.
  pose proof (steps_never_empty es F tx H) as N.
  apply In_nth_error in H; destruct H as [ref D].
  unfold get_transaction_status.
  rewrite (find_transaction_of_object _ ref tx (reachable_consistent es F) D).
  destruct (steps tx); [ contradiction | reflexivity ].
Qed.

(** The query on a system with a completed purchase, a refused cancel and
    a second purchase under way. *)
Lemma status_query_always_answers_busy :
  Forall (fun tx =>
            get_transaction_status (transaction_id tx)
              (coordinator (perform_all busy_events initial_system)) =
            Value (Some (status_report tx)))
    (heap (coordinator (perform_all busy_events initial_system))).
Proof.
  apply (status_query_always_answers busy_events).
  apply feasible_check_sound; vm_compute; reflexivity.
Defined.

Lemma active_summary_id :
  forall a b, active_summary a = active_summary b -> transaction_id a = transaction_id b.
Proof. intros a b H; unfold active_summary in H; congruence. Qed.

(** X15.  At every moment [get_active_transactions] lists the keys of the
    active set, in their order, and a transaction the coordinator has
    created is listed exactly when it is pending or executing: completed,
    failed and cancelled ones are never listed, and none that is still open
    is missing. *)
Theorem active_listing_is_exact :
  forall es,
    feasible es initial_system ->
    map (dict_get "transaction_id")
        (get_active_transactions (coordinator (perform_all es initial_system))) =
      map (fun k => Some (PStr k))
        (dict_keys (active_transactions (coordinator (perform_all es initial_system)))) /\
    Forall (fun tx =>
              In (active_summary tx)
                 (get_active_transactions (coordinator (perform_all es initial_system)))
              <-> is_active_status (tx_status tx) = true)
      (heap (coordinator (perform_all es initial_system))).
Proof.
  intros es F; pose proof (reachable_consistent es F) as C.
  set (s := perform_all es initial_system) in *.
  destruct (consistent_working_set s C) as [_ [K _]].
  destruct (active_objects_ids (coordinator s) K) as [I A].
  split.
  - unfold get_active_transactions; rewrite map_map.
    rewrite <- I, map_map; reflexivity.
  - apply Forall_forall; intros tx H; apply In_nth_error in H; destruct H as [ref D].
    unfold get_active_transactions; split.
    + intros H; apply in_map_iff in H; destruct H as [x [E Hx]].
      pose proof (A x Hx) as Ax.
      apply objects_In in Hx; destruct Hx as [r [_ Dx]].
      assert (r = ref).
      { apply (ids_distinct_refs s r ref x tx C Dx D), active_summary_id, E. }
      subst r; unfold deref in D; congruence.
    + intros Hs; apply in_map, In_objects with ref; [| exact D ].
      pose proof (running_is_active s ref tx C D Hs) as R.
      unfold dict_values; apply in_map_iff; exists (transaction_id tx, ref); auto.
Qed.

Lemma active_listing_is_exact_busy :
  map (dict_get "transaction_id")
      (get_active_transactions (coordinator (perform_all busy_events initial_system))) =
    map (fun k => Some (PStr k))
      (dict_keys (active_transactions (coordinator (perform_all busy_events initial_system)))) /\
  Forall (fun tx =>
            In (active_summary tx)
               (get_active_transactions (coordinator (perform_all busy_events initial_system)))
            <-> is_active_status (tx_status tx) = true)
    (heap (coordinator (perform_all busy_events initial_system))).
Proof.
  apply (active_listing_is_exact busy_events).
  apply feasible_check_sound; vm_compute; reflexivity.
Defined.

(** ** Loading a damaged snapshot *)

Lemma status_of_value_known :
  forall v, In v status_values <-> status_of_value v <> None.
Proof.
  intros v; split.
  - intros H; cbn in H.
    repeat (destruct H as [<- | H]; [ discriminate |]); destruct H.
  - unfold status_of_value, status_values.
    repeat match goal with
           | |- context [String.eqb v ?k] =>
               destruct (String.eqb_spec v k) as [-> | ?]; [ intros _; cbn; auto 10 |]
           end.
    intros H; elim H; reflexivity.
Qed.

Lemma type_of_value_known :
  forall v, In v type_values <-> type_of_value v <> None.
Proof.
  intros v; split.
  - intros H; cbn in H.
    repeat (destruct H as [<- | H]; [ discriminate |]); destruct H.
  - unfold type_of_value, type_values.
    repeat match goal with
           | |- context [String.eqb v ?k] =>
               destruct (String.eqb_spec v k) as [-> | ?]; [ intros _; cbn; auto 10 |]
           end.
    intros H; elim H; reflexivity.
Qed.

Lemma steps_of_records_known :
  forall rs,
    Forall (fun s => In (r_status s) status_values) rs <-> steps_of_records rs <> None.
Proof.
  intros rs; induction rs as [| r rs IH]; cbn [steps_of_records].
  - split; [ discriminate | constructor ].
  - unfold step_of_record.
    destruct (status_of_value_known (r_status r)) as [K1 K2].
    destruct IH as [IH1 IH2].
    destruct (status_of_value (r_status r)) as [st |].
    + destruct (steps_of_records rs) as [ss |]; split; intros H.
      * discriminate.
      * constructor; [ apply K2 | apply IH2 ]; discriminate.
      * inversion H; subst; exfalso; apply IH1; auto.
      * elim H; reflexivity.
    + split; intros H.
      * inversion H; subst; exfalso; apply K1; auto.
      * elim H; reflexivity.
Qed.

Lemma readable_iff :
  forall r, readable r <-> transaction_of_record r <> None.
Proof.
  intros r; unfold readable, transaction_of_record.
  destruct (type_of_value_known (r_transaction_type r)) as [T1 T2].
  destruct (status_of_value_known (r_tx_status r)) as [S1 S2].
  destruct (steps_of_records_known (r_steps r)) as [R1 R2].
  destruct (type_of_value (r_transaction_type r)).
  2:{ split; [ intros [H _]; exfalso; apply T1; auto | intros H; elim H; reflexivity ]. }
  destruct (status_of_value (r_tx_status r)).
  2:{ split; [ intros [_ [H _]]; exfalso; apply S1; auto
             | intros H; elim H; reflexivity ]. }
  destruct (steps_of_records (r_steps r)).
  2:{ split; [ intros [_ [_ H]]; exfalso; apply R1; auto
             | intros H; elim H; reflexivity ]. }
  split; [ discriminate |].
  intros _; split; [ apply T2 | split; [ apply S2 | apply R2 ] ]; discriminate.
Qed.

Lemma load_records_readable :
  forall good rest c,
    Forall readable good ->
    load_records (good ++ rest) c = load_records rest (load_records good c).
Proof.
  intros good rest; induction good as [| r good IH]; intros c H; [ reflexivity |].
  inversion H as [| x l Hr Hg]; subst; cbn [app load_records].
  apply readable_iff in Hr.
  destruct (transaction_of_record r) as [tx |]; [| contradiction ].
  apply IH; assumption.
Qed.

Lemma register_loaded_heap :
  forall tx c, heap (register_loaded tx c) = heap c ++ [tx].
Proof.
  intros tx c; unfold register_loaded.
  destruct (is_active_status (tx_status tx)); reflexivity.
Qed.

Lemma load_records_count :
  forall good c,
    Forall readable good ->
    List.length (heap (load_records good c)) = List.length (heap c) + List.length good.
Proof.
  intros good; induction good as [| r good IH]; intros c H; cbn [load_records].
  - cbn; lia.
  - inversion H as [| x l Hr Hg]; subst; apply readable_iff in Hr.
    destruct (transaction_of_record r) as [tx |]; [| contradiction ].
    rewrite IH by assumption; rewrite register_loaded_heap, length_app; cbn; lia.
Qed.

Lemma to_record_readable : forall tx, readable (transaction_to_record tx).
Proof.
  intros tx; apply readable_iff; rewrite transaction_of_to_record; discriminate.
Qed.

(** X16.  A coordinator started on a snapshot in which some record holds
    a type or status string, of the transaction or of one of its steps,
    that is the value of no member keeps the transactions of the records
    before the first such record and drops that record and every record
    after it, readable or not: the working set is the one the readable
    records in front alone give. *)
Theorem load_stops_at_first_unreadable_record :
  forall good bad rest,
    Forall readable good ->
    ~ readable bad ->
    heap (start_coordinator (Some (good ++ bad :: rest))) =
      heap (start_coordinator (Some good)) /\
    active_transactions (start_coordinator (Some (good ++ bad :: rest))) =
      active_transactions (start_coordinator (Some good)) /\
    transaction_history (start_coordinator (Some (good ++ bad :: rest))) =
      transaction_history (start_coordinator (Some good)) /\
    List.length (heap (start_coordinator (Some (good ++ bad :: rest)))) =
      List.length good.
Proof.
  intros good bad rest G B.
  assert (N : transaction_of_record bad = None).
  { destruct (transaction_of_record bad) eqn:E; auto.
    elim B; apply readable_iff; congruence. }
  unfold start_coordinator, _load_transaction_data, new_coordinator; cbn [data_file].
  set (c := mkCoordinator [] [] [] (Some (good ++ bad :: rest))).
  set (c0 := mkCoordinator [] [] [] (Some good)).
  rewrite (load_records_readable good (bad :: rest) c G); cbn [load_records]; rewrite N.
  assert (S : forall rs f g,
             heap (load_records rs (mkCoordinator [] [] [] f)) =
               heap (load_records rs (mkCoordinator [] [] [] g)) /\
             active_transactions (load_records rs (mkCoordinator [] [] [] f)) =
               active_transactions (load_records rs (mkCoordinator [] [] [] g)) /\
             transaction_history (load_records rs (mkCoordinator [] [] [] f)) =
               transaction_history (load_records rs (mkCoordinator [] [] [] g))).
  { intros rs f g.
    generalize (@nil Transaction) (@nil (string * nat)) (@nil nat).
    induction rs as [| r rs IH]; intros h a hi; cbn [load_records]; auto.
    destruct (transaction_of_record r) as [tx |]; auto.
    unfold register_loaded; cbn [heap active_transactions transaction_history data_file].
    destruct (is_active_status (tx_status tx)); apply IH. }
  destruct (S good (Some (good ++ bad :: rest)) (Some good)) as [S1 [S2 S3]].
  repeat split; auto.
  rewrite (load_records_count good c G); reflexivity.
Qed.

(** A file of four records whose third has the status ["archived"]: the
    first two are loaded, the fourth, a readable one, is not. *)
Lemma load_stops_at_archived_record :
  heap (start_coordinator (Some sample_records)) =
    heap (start_coordinator
            (Some [ transaction_to_record sample_purchase;
                    transaction_to_record single_step_plan ])) /\
  active_transactions (start_coordinator (Some sample_records)) =
    active_transactions
      (start_coordinator
         (Some [ transaction_to_record sample_purchase;
                 transaction_to_record single_step_plan ])) /\
  transaction_history (start_coordinator (Some sample_records)) =
    transaction_history
      (start_coordinator
         (Some [ transaction_to_record sample_purchase;
                 transaction_to_record single_step_plan ])) /\
  List.length (heap (start_coordinator (Some sample_records))) = 2.
Proof.
  apply (load_stops_at_first_unreadable_record
           [ transaction_to_record sample_purchase;
             transaction_to_record single_step_plan ]
           (mkTransactionRecord "tx_bad" "nft_purchase" "B" ["B"] [] "archived"
              1%float [] [] "t0" "t0" None)
           [ transaction_to_record (set_tx_status COMPLETED dangling_plan) ]).
  - constructor; [ apply to_record_readable |].
    constructor; [ apply to_record_readable | constructor ].
  - intros [_ [H _]]; cbn in H.
    repeat (destruct H as [H | H]; [ discriminate |]); destruct H.
Defined.

(** ** Transactions loaded from a snapshot *)

Lemma status_of_value_inv :
  forall v st, status_of_value v = Some st -> status_value st = v.
Proof.
  intros v st; unfold status_of_value.
  repeat match goal with
         | |- context [String.eqb v ?k] =>
             destruct (String.eqb_spec v k) as [-> | ?];
               [ intros H; injection H as <-; reflexivity |]
         end.
  discriminate.
Qed.

Lemma transaction_of_record_fields :
  forall r tx,
    transaction_of_record r = Some tx ->
    transaction_id tx = r_transaction_id r /\ status_value (tx_status tx) = r_tx_status r.
Proof.
  intros r tx; unfold transaction_of_record.
  destruct (type_of_value (r_transaction_type r)); [| discriminate ].
  destruct (status_of_value (r_tx_status r)) as [st |] eqn:S; [| discriminate ].
  destruct (steps_of_records (r_steps r)); [| discriminate ].
  intros H; injection H as <-; cbn; split; auto.
  apply status_of_value_inv; exact S.
Qed.

Lemma register_loaded_consistent :
  forall c tx,
    consistent (mkSystem c []) ->
    ~ In (transaction_id tx) (map transaction_id (heap c)) ->
    tx_status tx <> APPROVED ->
    consistent (mkSystem (register_loaded tx c) []).
Proof.
  intros c tx C F NA.
  assert (NK : ~ In (transaction_id tx) (dict_keys (active_transactions c))).
  { intros H; unfold dict_keys in H; apply in_map_iff in H.
    destruct H as [[k r] [Ek H]]; cbn in Ek; subst k.
    destruct (active_sound C (transaction_id tx) r H) as [t [Dt [Et _]]].
    apply F; rewrite <- Et; apply in_map, (deref_In _ r t Dt). }
  assert (O : forall r t, deref c r = Some t ->
                nth_error (heap c ++ [tx]) r = Some t).
  { intros r t H; rewrite nth_error_app1; auto.
    apply nth_error_Some; unfold deref in H; congruence. }
  assert (NEW : forall r t, nth_error (heap c ++ [tx]) r = Some t ->
                  deref c r = Some t \/ (r = List.length (heap c) /\ t = tx)).
  { intros r t H.
    destruct (Nat.lt_ge_cases r (List.length (heap c))) as [L | L].
    - rewrite nth_error_app1 in H by exact L; left; exact H.
    - rewrite nth_error_app2 in H by exact L; right.
      destruct (r - List.length (heap c)) as [| d] eqn:Q; cbn in H.
      + injection H as <-; split; [ lia | reflexivity ].
      + destruct d; discriminate. }
  assert (IDS : NoDup (map transaction_id (heap c ++ [tx]))).
  { rewrite map_app; cbn; apply NoDup_app; repeat split.
    - apply (ids_distinct C).
    - constructor; [ intros [] | constructor ].
    - intros x Hx [<- | []]; contradiction. }
  unfold register_loaded; destruct (is_active_status (tx_status tx)) eqn:A.
  - rewrite dict_set_fresh by exact NK.
    constructor; unfold deref; cbn.
    + unfold dict_keys; rewrite map_app; cbn; fold (dict_keys (active_transactions c)).
      apply NoDup_app; repeat split.
      * apply (keys_distinct C).
      * constructor; [ intros [] | constructor ].
      * intros x Hx [<- | []]; contradiction.
    + exact IDS.
    + intros k r H; apply in_app_iff in H; destruct H as [H | [H | []]].
      * destruct (active_sound C k r H) as [t [Dt Rest]]; exists t; split; auto.
      * injection H as <- <-; exists tx; rewrite nth_error_snoc; auto.
    + intros r H; destruct (history_sound C r H) as [t [Dt Rest]]; exists t; auto.
    + intros r t H; rewrite in_app_iff.
      destruct (NEW r t H) as [D | [-> ->]].
      * destruct (objects_located C r t D); auto.
      * left; right; left; reflexivity.
    + intros t k [].
    + intros t r [].
    + intros [| i] j t t' tid H; discriminate.
  - constructor; unfold deref; cbn.
    + apply (keys_distinct C).
    + exact IDS.
    + intros k r H; destruct (active_sound C k r H) as [t [Dt Rest]]; exists t; auto.
    + intros r H; apply in_app_iff in H; destruct H as [H | [<- | []]].
      * destruct (history_sound C r H) as [t [Dt Rest]]; exists t; auto.
      * exists tx; rewrite nth_error_snoc; split; auto.
        unfold terminal_status; destruct (tx_status tx); try discriminate; auto.
        elim NA; reflexivity.
    + intros r t H; rewrite in_app_iff.
      destruct (NEW r t H) as [D | [-> ->]].
      * destruct (objects_located C r t D); auto.
      * right; right; left; reflexivity.
    + intros t k [].
    + intros t r [].
    + intros [| i] j t t' tid H; discriminate.
Qed.

Lemma load_records_consistent :
  forall rs c,
    consistent (mkSystem c []) ->
    Forall readable rs ->
    NoDup (map transaction_id (heap c) ++ map r_transaction_id rs) ->
    Forall (fun r => r_tx_status r <> "approved") rs ->
    consistent (mkSystem (load_records rs c) []).
Proof.
  intros rs; induction rs as [| r rs IH]; intros c C R N A; cbn [load_records]; auto.
  inversion R as [| x l Rr Rrs]; subst; inversion A as [| x l Ar Ars]; subst.
  apply readable_iff in Rr.
  destruct (transaction_of_record r) as [tx |] eqn:T; [| contradiction ].
  destruct (transaction_of_record_fields r tx T) as [Ei Es].
  apply IH; auto.
  - apply register_loaded_consistent; auto.
    + rewrite Ei; intros H; apply NoDup_remove_2 in N; apply N.
      apply in_app_iff; left; exact H.
    + intros Q; apply Ar; rewrite <- Es, Q; reflexivity.
  - rewrite register_loaded_heap, map_app, <- app_assoc; cbn; rewrite Ei; exact N.
Qed.

Lemma restarted_consistent :
  forall rs,
    Forall readable rs -> NoDup (map r_transaction_id rs) ->
    Forall (fun r => r_tx_status r <> "approved") rs ->
    consistent (restarted rs) /\ batch_sound (restarted rs).
Proof.
  intros rs R N A; split; [| intros t a r m [] ].
  unfold restarted, start_coordinator, _load_transaction_data; cbn [data_file new_coordinator].
  apply load_records_consistent; auto.
  constructor; cbn; try solve [ constructor ]; try solve [ intros; contradiction ].
  - intros [| r] t H; discriminate.
  - intros [| i] j t t' tid H; discriminate.
Qed.

Lemma loop_block_tid :
  forall now k ref c tid,
    task_tid (snd (loop_block now k ref c)) = Some tid -> k = tid.
Proof.
  intros now k ref c tid; unfold loop_block.
  destruct (deref c ref) as [tx |]; [| discriminate ].
  destruct (loop_head now tx); cbn; intros H; try discriminate; congruence.
Qed.

Lemma resume_tid :
  forall run now t c tid,
    task_tid (snd (resume run now t c)) = Some tid -> task_tid t = Some tid.
Proof.
  intros run now t c tid.
  destruct t as [k | k ref | k ref ready |]; cbn [resume task_tid].
  - unfold start_block.
    destruct (dict_get k (active_transactions c)) as [ref |]; [| discriminate ].
    destruct (deref c ref) as [tx |]; [| discriminate ].
    intros H; apply loop_block_tid in H; congruence.
  - intros H; apply loop_block_tid in H; congruence.
  - unfold batch_block; destruct (deref c ref) as [tx |]; cbn; auto; discriminate.
  - auto.
Qed.

(** An event leaves a transaction on which no task works as it is, or
    cancels it, and no task comes to work on it. *)
Lemma perform_untasked :
  forall e s ref tx,
    consistent s -> batch_sound s -> enabled e s ->
    no_task_on (transaction_id tx) s ->
    deref (coordinator s) ref = Some tx ->
    exists tx',
      deref (coordinator (perform e s)) ref = Some tx' /\
      kept_or_cancelled tx tx' /\
      no_task_on (transaction_id tx) (perform e s).
Proof.
  intros e s ref tx C B F NT D.
  assert (GROW : forall x, nth_error (heap (coordinator s) ++ [x]) ref = Some tx).
  { intros x; rewrite nth_error_app1; auto.
    apply nth_error_Some; unfold deref in D; congruence. }
  assert (FRESH : forall k, fresh_id k s ->
                    no_task_on (transaction_id tx)
                      (mkSystem (coordinator s) (tasks s ++ [Created k]))).
  { intros k Fk t H; cbn in H; apply in_app_iff in H; destruct H as [H | [<- | []]].
    - apply NT; exact H.
    - cbn; intros Q; injection Q as ->; apply Fk, in_map, (deref_In _ ref tx D). }
  destruct e as [hex now b sl nft price md | hex now sl nft price md
                 | now tid reason | i now run]; cbn [perform].
  - exists tx; split; [ apply GROW | split; [ left; reflexivity | apply (FRESH _ F) ] ].
  - exists tx; split; [ apply GROW | split; [ left; reflexivity | apply (FRESH _ F) ] ].
  - destruct (dict_get tid (active_transactions (coordinator s))) as [r |] eqn:G.
    2:{ rewrite cancel_transaction_absent by exact G.
        exists tx; split; [ exact D | split; [ left; reflexivity | exact NT ] ]. }
    destruct (active_sound C tid r (dict_get_In _ _ _ _ G)) as [tx0 [D0 [E0 A0]]].
    destruct (status_eqb (tx_status tx0) COMPLETED || status_eqb (tx_status tx0) FAILED)
      eqn:X.
    + rewrite (cancel_transaction_finished now tid reason _ r tx0 G D0).
      * exists tx; split; [ exact D | split; [ left; reflexivity | exact NT ] ].
      * apply orb_true_iff in X; destruct X as [X | X]; apply status_eqb_eq in X; auto.
    + apply orb_false_iff in X; destruct X as [X1 X2].
      apply status_eqb_neq in X1, X2.
      rewrite (cancel_transaction_open now tid reason _ r tx0 G D0 X1 X2).
      unfold deref; cbn; destruct (Nat.eq_dec ref r) as [-> | N].
      * rewrite D in D0; injection D0 as <-.
        exists (cancelled now reason tx); split; [| split; [| exact NT ] ].
        -- apply nth_error_update_nth_same with tx; exact D.
        -- right; split; [ exact A0 | eauto ].
      * exists tx; split; [| split; [ left; reflexivity | exact NT ] ].
        rewrite nth_error_update_nth_other; auto.
  - destruct (nth_error (tasks s) i) as [t |] eqn:Hi.
    2:{ exists tx; split; [ exact D | split; [ left; reflexivity | exact NT ] ]. }
    destruct (resume_effect run now s i t C B Hi) as [HE _].
    pose proof (resume_tid run now t (coordinator s) (transaction_id tx)) as RT.
    destruct (resume run now t (coordinator s)) as [c' t'] eqn:R; cbn [fst snd] in *.
    exists tx; split; [| split; [ left; reflexivity |] ].
    + unfold deref; cbn.
      destruct HE as [-> | [ref0 [tx0 [tx0' [D0 [T0 ->]]]]]]; auto.
      rewrite nth_error_update_nth_other; auto; intros <-.
      rewrite D in D0; injection D0 as <-.
      apply (NT t (nth_error_In _ _ Hi)); exact T0.
    + intros x H; cbn in H; apply In_update_nth in H; destruct H as [-> | H].
      * intros Q; apply (NT t (nth_error_In _ _ Hi)), RT, Q.
      * apply NT; exact H.
Qed.

Lemma kept_or_cancelled_trans :
  forall a b c,
    kept_or_cancelled a b -> kept_or_cancelled b c -> kept_or_cancelled a c.
Proof.
  intros a b c [-> | [A [now [reason ->]]]] H; auto.
  destruct H as [-> | [A' _]]; [| discriminate ].
  right; split; eauto.
Qed.

Lemma kept_or_cancelled_id :
  forall a b, kept_or_cancelled a b -> transaction_id b = transaction_id a.
Proof. intros a b [-> | [_ [now [reason ->]]]]; reflexivity. Qed.

Lemma perform_all_untasked :
  forall es s ref tx,
    consistent s -> batch_sound s -> feasible es s ->
    no_task_on (transaction_id tx) s ->
    deref (coordinator s) ref = Some tx ->
    exists tx',
      deref (coordinator (perform_all es s)) ref = Some tx' /\
      kept_or_cancelled tx tx'.
Proof.
  intros es; induction es as [| e es IH]; intros s ref tx C B F NT D; simpl in *.
  - exists tx; split; [ exact D | left; reflexivity ].
  - destruct F as [F1 F2].
    destruct (perform_untasked e s ref tx C B F1 NT D) as [tx1 [D1 [K1 NT1]]].
    destruct (IH (perform e s) ref tx1) as [tx2 [D2 K2]]; auto.
    + apply perform_consistent; assumption.
    + apply perform_batch_sound; assumption.
    + rewrite (kept_or_cancelled_id tx tx1 K1); exact NT1.
    + exists tx2; split; [ exact D2 | apply kept_or_cancelled_trans with tx1; assumption ].
Qed.

(** X17.  Processing is not resumed after a restart.  A coordinator
    started on a snapshot of readable records with distinct ids, none of
    them approved, creates no task for the transactions it loads; whatever
    calls and task resumptions follow, a loaded transaction stays exactly
    as it was loaded, pending or executing ones included, with the steps
    and the status it had in the file, unless and until a call cancels
    it. *)
Theorem loaded_transactions_are_not_resumed :
  forall rs es ref tx,
    Forall readable rs ->
    NoDup (map r_transaction_id rs) ->
    Forall (fun r => r_tx_status r <> "approved") rs ->
    feasible es (restarted rs) ->
    deref (coordinator (restarted rs)) ref = Some tx ->
    exists tx',
      deref (coordinator (perform_all es (restarted rs))) ref = Some tx' /\
      kept_or_cancelled tx tx'.
Proof.
  intros rs es ref tx R N A F D.
  destruct (restarted_consistent rs R N A) as [C B].
  apply perform_all_untasked; auto.
  intros t [].
Qed.

(** The interrupted purchase is still executing with two steps pending
    after the events that follow the restart, and the pending transfer has
    been cancelled. *)
Lemma interrupted_purchase_is_not_resumed :
  (exists tx',
      deref (coordinator (perform_all restart_events (restarted interrupted_records))) 0 =
        Some tx' /\
      kept_or_cancelled
        (unshare (processed always_ok sample_clock "t1" 2 sample_purchase)) tx') /\
  progress_of (unshare (processed always_ok sample_clock "t1" 2 sample_purchase)) =
    (EXECUTING, [COMPLETED; COMPLETED; COMPLETED; PENDING; PENDING]).
Proof.
  split; [| vm_compute; reflexivity ].
  apply (loaded_transactions_are_not_resumed interrupted_records restart_events 0
           (unshare (processed always_ok sample_clock "t1" 2 sample_purchase))).
  - constructor; [ apply to_record_readable |].
    constructor; [ apply to_record_readable | constructor ].
  - apply distinct_strings_sound; vm_compute; reflexivity.
  - constructor; [ discriminate |].
    constructor; [ discriminate | constructor ].
  - apply feasible_check_sound; vm_compute; reflexivity.
  - vm_compute; reflexivity.
Defined.

(** ** The coordinator with its simulated agents *)

Ltac simulated_pass :=
  cbv -[step_name String.eqb PrimFloat.mul simulate_step_execution];
  rewrite ?step_name_eqb;
  cbv -[step_name PrimFloat.mul]; reflexivity.

(** X18.  With the agents as [simulate_step_execution] simulates them, a
    purchase always completes: for every buyer, seller, token, price and
    metadata the fifth pass of the loop sets [COMPLETED], and the results
    recorded on the five steps are the entries of the table for their
    actions, with 0.95 times the price as market price and the price
    itself as the amount locked in escrow. *)
Theorem simulated_purchase_completes :
  forall escrow_hex transfer_hex listing_hex time explain clock now
         tid t0 buyer seller nft price md,
    exists e h,
      progress_of
        (processed
           (simulated (metadata_or_empty md) escrow_hex transfer_hex listing_hex
              time explain)
           clock now 5 (new_purchase tid t0 buyer seller nft price md)) =
        (COMPLETED, [COMPLETED; COMPLETED; COMPLETED; COMPLETED; COMPLETED]) /\
      map result
        (steps
           (processed
              (simulated (metadata_or_empty md) escrow_hex transfer_hex listing_hex
                 time explain)
              clock now 5 (new_purchase tid t0 buyer seller nft price md))) =
        [ Some (PDict [ ("valuation_confirmed", PBool true);
                        ("market_price", PFloat (PrimFloat.mul price 0.95%float));
                        ("confidence", PFloat 0.88%float) ]);
          Some (PDict [ ("authenticity_confirmed", PBool true);
                        ("authenticity_score", PFloat 0.92%float);
                        ("fraud_risk", PStr "low") ]);
          Some (PDict [ ("escrow_address", PStr ("0xescrow_" ++ e));
                        ("amount_locked", PFloat price);
                        ("status", PStr "locked") ]);
          Some (PDict [ ("transaction_hash", PStr ("0x" ++ h));
                        ("nft_transferred", PBool true);
                        ("payment_transferred", PBool true) ]);
          Some (PDict [ ("market_data_updated", PBool true);
                        ("participants_notified", PBool true);
                        ("transaction_recorded", PBool true) ]) ].
Proof.
  intros escrow_hex transfer_hex listing_hex time explain clock now
         tid t0 buyer seller nft price md.
  set (run := simulated (metadata_or_empty md) escrow_hex transfer_hex listing_hex
                time explain).
  set (tx := new_purchase tid t0 buyer seller nft price md).
  eassert (E0 : processed run clock now 0 tx = _).
  { unfold processed, run, simulated, tx; simulated_pass. }
  eassert (E1 : processed run clock now 1 tx = _).
  { rewrite processed_succ, E0; unfold run, simulated; simulated_pass. }
  eassert (E2 : processed run clock now 2 tx = _).
  { rewrite processed_succ, E1; unfold run, simulated; simulated_pass. }
  eassert (E3 : processed run clock now 3 tx = _).
  { rewrite processed_succ, E2; unfold run, simulated; simulated_pass. }
  eassert (E4 : processed run clock now 4 tx = _).
  { rewrite processed_succ, E3; unfold run, simulated; simulated_pass. }
  eassert (E5 : processed run clock now 5 tx = _).
  { rewrite processed_succ, E4; unfold run, simulated; simulated_pass. }
  do 2 eexists; rewrite E5; split; reflexivity.
Qed.

(** X19.  With the simulated agents a listing always completes: the
    third pass of the loop sets [COMPLETED], and the results recorded are
    the seller as confirmed owner, 0.92 times the asking price as
    estimated value, and a listing id. *)
Theorem simulated_listing_completes :
  forall escrow_hex transfer_hex listing_hex time explain clock now
         tid t0 seller nft price md,
    exists l,
      progress_of
        (processed
           (simulated (metadata_or_empty md) escrow_hex transfer_hex listing_hex
              time explain)
           clock now 3 (new_listing tid t0 seller nft price md)) =
        (COMPLETED, [COMPLETED; COMPLETED; COMPLETED]) /\
      map result
        (steps
           (processed
              (simulated (metadata_or_empty md) escrow_hex transfer_hex listing_hex
                 time explain)
              clock now 3 (new_listing tid t0 seller nft price md))) =
        [ Some (PDict [ ("ownership_confirmed", PBool true);
                        ("owner_address", PStr seller);
                        ("verification_method", PStr "blockchain_query") ]);
          Some (PDict [ ("estimated_value", PFloat (PrimFloat.mul price 0.92%float));
                        ("market_demand", PStr "moderate");
                        ("pricing_recommendation", PStr "competitive") ]);
          Some (PDict [ ("listing_id", PStr ("listing_" ++ l));
                        ("listing_created", PBool true);
                        ("visible_on_marketplace", PBool true) ]) ].
Proof.
  intros escrow_hex transfer_hex listing_hex time explain clock now
         tid t0 seller nft price md.
  set (run := simulated (metadata_or_empty md) escrow_hex transfer_hex listing_hex
                time explain).
  set (tx := new_listing tid t0 seller nft price md).
  eassert (E0 : processed run clock now 0 tx = _).
  { unfold processed, run, simulated, tx; simulated_pass. }
  eassert (E1 : processed run clock now 1 tx = _).
  { rewrite processed_succ, E0; unfold run, simulated; simulated_pass. }
  eassert (E2 : processed run clock now 2 tx = _).
  { rewrite processed_succ, E1; unfold run, simulated; simulated_pass. }
  eassert (E3 : processed run clock now 3 tx = _).
  { rewrite processed_succ, E2; unfold run, simulated; simulated_pass. }
  eexists; rewrite E3; split; reflexivity.
Qed.

(** ** Where loaded transactions go *)

Lemma type_of_value_inv :
  forall v ty, type_of_value v = Some ty -> type_value ty = v.
Proof.
  intros v ty; unfold type_of_value.
  repeat match goal with
         | |- context [String.eqb v ?k] =>
             destruct (String.eqb_spec v k) as [-> | ?];
               [ intros H; injection H as <-; reflexivity |]
         end.
  discriminate.
Qed.

Lemma step_to_of_record :
  forall md r s, step_of_record r = Some s -> step_to_record md s = r.
Proof.
  intros md r s; unfold step_of_record.
  destruct (status_of_value (r_status r)) as [st |] eqn:S; [| discriminate ].
  intros H; injection H as <-; apply status_of_value_inv in S.
  destruct r as [i a ac ps st' re er ti de]; cbn in *; subst st'.
  unfold step_to_record; cbn; f_equal.
  rewrite map_map; cbn.
  rewrite <- (map_id ps) at 2; apply map_ext; intros [k v]; reflexivity.
Qed.

Lemma steps_to_of_records :
  forall md rs ss, steps_of_records rs = Some ss -> map (step_to_record md) ss = rs.
Proof.
  intros md rs; induction rs as [| r rs IH]; intros ss; cbn [steps_of_records].
  - intros H; injection H as <-; reflexivity.
  - destruct (step_of_record r) as [s |] eqn:S; [| discriminate ].
    destruct (steps_of_records rs) as [ss' |]; [| discriminate ].
    intros H; injection H as <-; cbn.
    rewrite (step_to_of_record md r s S), (IH ss' eq_refl); reflexivity.
Qed.

Lemma transaction_to_of_record :
  forall r tx, transaction_of_record r = Some tx -> transaction_to_record tx = r.
Proof.
  intros r tx; unfold transaction_of_record.
  destruct (type_of_value (r_transaction_type r)) as [ty |] eqn:T; [| discriminate ].
  destruct (status_of_value (r_tx_status r)) as [st |] eqn:S; [| discriminate ].
  destruct (steps_of_records (r_steps r)) as [ss |] eqn:R; [| discriminate ].
  intros H; injection H as <-.
  apply type_of_value_inv in T; apply status_of_value_inv in S.
  unfold transaction_to_record; cbn.
  rewrite (steps_to_of_records (r_metadata r) (r_steps r) ss R), T, S.
  destruct r; reflexivity.
Qed.

Lemma load_records_resave :
  forall rs c,
    Forall readable rs ->
    map transaction_to_record (heap (load_records rs c)) =
    map transaction_to_record (heap c) ++ rs.
Proof.
  intros rs; induction rs as [| r rs IH]; intros c R; cbn [load_records].
  - rewrite app_nil_r; reflexivity.
  - inversion R as [| x l Rr Rrs]; subst; apply readable_iff in Rr.
    destruct (transaction_of_record r) as [tx |] eqn:T; [| contradiction ].
    rewrite (IH _ Rrs), register_loaded_heap, map_app, <- app_assoc; cbn.
    rewrite (transaction_to_of_record r tx T); reflexivity.
Qed.

Lemma register_loaded_sorted :
  forall c tx,
    sorted_by_status c ->
    ~ In (transaction_id tx) (map transaction_id (heap c)) ->
    sorted_by_status (register_loaded tx c).
Proof.
  intros c tx [OBJ [HIS ACT]] F.
  assert (NEW : forall r t, nth_error (heap c ++ [tx]) r = Some t ->
                  (r < List.length (heap c) /\ deref c r = Some t) \/
                  (r = List.length (heap c) /\ t = tx)).
  { intros r t H.
    destruct (Nat.lt_ge_cases r (List.length (heap c))) as [L | L].
    - rewrite nth_error_app1 in H by exact L; left; split; assumption.
    - rewrite nth_error_app2 in H by exact L; right.
      destruct (r - List.length (heap c)) as [| d] eqn:Q; cbn in H.
      + injection H as <-; split; [ lia | reflexivity ].
      + destruct d; discriminate. }
  assert (NK : dict_get (transaction_id tx) (active_transactions c) = None).
  { destruct (dict_get (transaction_id tx) (active_transactions c)) eqn:G; auto.
    elim F; apply ACT; congruence. }
  assert (OLD : forall r t, deref c r = Some t -> transaction_id t <> transaction_id tx).
  { intros r t D E; apply F; rewrite <- E; apply in_map, (deref_In _ r t D). }
  unfold register_loaded, sorted_by_status, filed, deref in *.
  destruct (is_active_status (tx_status tx)) eqn:A;
    cbn [heap active_transactions transaction_history]; split; [| split | | split ].
  - intros r t H; destruct (NEW r t H) as [[L D] | [-> ->]].
    + specialize (OBJ r t D); rewrite dict_get_set_other by (apply (OLD r t D)).
      exact OBJ.
    + rewrite A, dict_get_set_same; split; auto.
      intros H'; apply HIS in H'; lia.
  - intros r H; rewrite length_app; cbn; apply HIS in H; lia.
  - intros k H; rewrite map_app, in_app_iff; cbn.
    destruct (String.eqb_spec k (transaction_id tx)) as [-> | N]; auto.
    rewrite dict_get_set_other in H by exact N; left; apply ACT; exact H.
  - intros r t H; destruct (NEW r t H) as [[L D] | [-> ->]].
    + specialize (OBJ r t D).
      destruct (is_active_status (tx_status t)).
      * destruct OBJ as [O1 O2]; split; auto.
        rewrite in_app_iff; intros [H' | [H' | []]]; [ contradiction | lia ].
      * destruct OBJ as [O1 O2]; split; auto.
        apply in_app_iff; left; exact O1.
    + rewrite A; split; auto.
      apply in_app_iff; right; left; reflexivity.
  - intros r H; rewrite length_app; cbn; apply in_app_iff in H.
    destruct H as [H | [<- | []]]; [ apply HIS in H |]; lia.
  - intros k H; rewrite map_app, in_app_iff; left; apply ACT; exact H.
Qed.

Lemma load_records_sorted :
  forall rs c,
    sorted_by_status c ->
    Forall readable rs ->
    NoDup (map transaction_id (heap c) ++ map r_transaction_id rs) ->
    sorted_by_status (load_records rs c).
Proof.
  intros rs; induction rs as [| r rs IH]; intros c S R N; cbn [load_records]; auto.
  inversion R as [| x l Rr Rrs]; subst; apply readable_iff in Rr.
  destruct (transaction_of_record r) as [tx |] eqn:T; [| contradiction ].
  destruct (transaction_of_record_fields r tx T) as [Ei _].
  apply IH; auto.
  - apply register_loaded_sorted; auto.
    rewrite Ei; intros H; apply NoDup_remove_2 in N; apply N.
    apply in_app_iff; left; exact H.
  - rewrite register_loaded_heap, map_app, <- app_assoc; cbn; rewrite Ei; exact N.
Qed.

(** X20.  A coordinator started on a snapshot of readable records with
    distinct ids holds one transaction per record, in the order of the
    file, each of which it would write back as the record it was read
    from; those that are pending or executing are in the active set under
    their id and not in the history, and all the others, approved ones
    included, are in the history and not in the active set. *)
Theorem load_sorts_by_status :
  forall rs,
    Forall readable rs ->
    NoDup (map r_transaction_id rs) ->
    map transaction_to_record (heap (start_coordinator (Some rs))) = rs /\
    (forall ref tx,
        deref (start_coordinator (Some rs)) ref = Some tx ->
        filed (start_coordinator (Some rs)) ref tx).
Proof.
  intros rs R N.
  unfold start_coordinator, _load_transaction_data; cbn [data_file new_coordinator].
  split.
  - rewrite (load_records_resave rs _ R); reflexivity.
  - apply load_records_sorted; auto.
    repeat split; cbn.
    + intros [| r] tx H; discriminate.
    + intros r [].
    + intros k H; apply H; reflexivity.
Qed.

(** A file with an approved and a failed transaction between a pending
    and an executing one: the first and the last are active, the two in
    the middle are history. *)
Lemma load_sorts_mixed_records :
  (map transaction_to_record (heap (start_coordinator (Some mixed_records))) =
     mixed_records /\
   (forall ref tx,
       deref (start_coordinator (Some mixed_records)) ref = Some tx ->
       filed (start_coordinator (Some mixed_records)) ref tx)) /\
  dict_values (active_transactions (start_coordinator (Some mixed_records))) = [0; 3] /\
  transaction_history (start_coordinator (Some mixed_records)) = [1; 2].
Proof.
  split; [| split; vm_compute; reflexivity ].
  apply (load_sorts_by_status mixed_records).
  - unfold mixed_records.
    repeat (constructor; [ apply to_record_readable |]); constructor.
  - apply distinct_strings_sound; vm_compute; reflexivity.
Defined.

(** ** The snapshot never misses a transaction *)

Lemma finish_processing_file :
  forall now tid ref c, file_kept_or_rewritten c (finish_processing now tid ref c).
Proof.
  intros now tid ref c; unfold finish_processing, file_kept_or_rewritten.
  destruct (deref c ref) as [tx |]; auto.
  destruct (status_eqb (tx_status tx) COMPLETED || status_eqb (tx_status tx) FAILED); auto.
  destruct (dict_mem tid (active_transactions c)); auto.
Qed.

Lemma loop_block_file :
  forall now tid ref c, file_kept_or_rewritten c (fst (loop_block now tid ref c)).
Proof.
  intros now tid ref c; unfold loop_block.
  destruct (deref c ref) as [tx |]; [| left; reflexivity ].
  destruct (loop_head now tx) as [| tx' | | ready]; cbn [fst];
    try (left; reflexivity).
  - apply finish_processing_file.
  - destruct (finish_processing_file now tid ref
                (set_heap (update_nth ref tx' (heap c)) c)) as [H | H];
      [ left | right ]; exact H.
Qed.

Lemma resume_file :
  forall run now t c, file_kept_or_rewritten c (fst (resume run now t c)).
Proof.
  intros run now t c; destruct t as [tid | tid ref | tid ref ready |]; cbn [resume].
  - unfold start_block.
    destruct (dict_get tid (active_transactions c)) as [ref |]; [| left; reflexivity ].
    destruct (deref c ref) as [tx |]; [| left; reflexivity ].
    destruct (loop_block_file now tid ref
                (set_heap (update_nth ref (begin_processing now tx) (heap c)) c))
      as [H | H]; [ left | right ]; exact H.
  - apply loop_block_file.
  - unfold batch_block; destruct (deref c ref) as [tx |]; [ right | left ]; reflexivity.
  - left; reflexivity.
Qed.

Lemma perform_file :
  forall e s, file_kept_or_rewritten (coordinator s) (coordinator (perform e s)).
Proof.
  intros [hex now b sl nft price md | hex now sl nft price md | now tid reason
          | i now run] s; cbn [perform].
  - right; reflexivity.
  - right; reflexivity.
  - unfold cancel_transaction.
    destruct (dict_get tid (active_transactions (coordinator s))) as [ref |];
      [| left; reflexivity ].
    destruct (deref (coordinator s) ref) as [tx |]; [| left; reflexivity ].
    destruct (status_eqb (tx_status tx) COMPLETED || status_eqb (tx_status tx) FAILED);
      [ left | right ]; reflexivity.
  - destruct (nth_error (tasks s) i) as [t |]; [| left; reflexivity ].
    pose proof (resume_file run now t (coordinator s)) as H.
    destruct (resume run now t (coordinator s)) as [c' t']; exact H.
Qed.

Lemma rewritten_file_is_complete :
  forall s tx,
    consistent s ->
    data_file (coordinator s) =
      Some (map transaction_to_record (all_transactions (coordinator s))) ->
    In tx (heap (coordinator s)) -> on_file (coordinator s) tx.
Proof.
  intros s tx C E H; eexists; split; [ exact E |].
  rewrite map_map; cbn [transaction_to_record r_transaction_id].
  apply in_map; unfold all_transactions; apply in_app_iff.
  apply In_nth_error in H; destruct H as [ref D].
  destruct (objects_located C ref tx D) as [A | A].
  - left; apply In_objects with ref; auto.
    unfold dict_values; apply in_map_iff; exists (transaction_id tx, ref); auto.
  - right; apply In_objects with ref; auto.
Qed.

Lemma perform_keeps_ids :
  forall e s,
    consistent s -> batch_sound s ->
    match e with
    | CallPurchase _ _ _ _ _ _ _ | CallListing _ _ _ _ _ _ => True
    | _ =>
        map transaction_id (heap (coordinator (perform e s))) =
        map transaction_id (heap (coordinator s))
    end.
Proof.
  intros e s C B; pose proof (perform_heap_change e s C B) as H.
  assert (K : heap (coordinator (perform e s)) = heap (coordinator s) \/
              (exists ref tx tx',
                  deref (coordinator s) ref = Some tx /\
                  clos_refl_trans Transaction change tx tx' /\
                  heap (coordinator (perform e s)) =
                    update_nth ref tx' (heap (coordinator s))) ->
              map transaction_id (heap (coordinator (perform e s))) =
                map transaction_id (heap (coordinator s))).
  { intros [-> | [ref [tx [tx' [D [R ->]]]]]]; auto.
    apply map_update_nth_same with tx; auto.
    pose proof (changes_identity tx tx' R) as I; unfold transaction_identity in I.
    congruence. }
  destruct e; auto.
Qed.

Lemma perform_on_file :
  forall e s,
    consistent s -> batch_sound s -> enabled e s ->
    (forall tx, In tx (heap (coordinator s)) -> on_file (coordinator s) tx) ->
    forall tx, In tx (heap (coordinator (perform e s))) ->
      on_file (coordinator (perform e s)) tx.
Proof.
  intros e s C B F J tx H.
  pose proof (perform_consistent e s C F) as C'.
  destruct (perform_file e s) as [K | R].
  2:{ apply rewritten_file_is_complete; assumption. }
  pose proof (perform_keeps_ids e s C B) as I.
  destruct e as [hex now b sl nft price md | hex now sl nft price md | now tid reason
                 | i now run].
  - apply rewritten_file_is_complete; auto.
  - apply rewritten_file_is_complete; auto.
  - assert (M : In (transaction_id tx) (map transaction_id (heap (coordinator s)))).
    { rewrite <- I; apply in_map; exact H. }
    apply in_map_iff in M; destruct M as [x [E Hx]].
    destruct (J x Hx) as [rs [D R]]; exists rs; split; [ congruence |].
    rewrite <- E; exact R.
  - assert (M : In (transaction_id tx) (map transaction_id (heap (coordinator s)))).
    { rewrite <- I; apply in_map; exact H. }
    apply in_map_iff in M; destruct M as [x [E Hx]].
    destruct (J x Hx) as [rs [D R]]; exists rs; split; [ congruence |].
    rewrite <- E; exact R.
Qed.

Lemma perform_all_on_file :
  forall es s,
    consistent s -> batch_sound s -> feasible es s ->
    (forall tx, In tx (heap (coordinator s)) -> on_file (coordinator s) tx) ->
    forall tx, In tx (heap (coordinator (perform_all es s))) ->
      on_file (coordinator (perform_all es s)) tx.
Proof.
  intros es; induction es as [| e es IH]; intros s C B F J; simpl in *; auto.
  destruct F as [F1 F2]; apply IH; auto.
  - apply perform_consistent; assumption.
  - apply perform_batch_sound; assumption.
  - apply perform_on_file; assumption.
Qed.

(** X21.  No transaction is ever missing from the snapshot: at every
    moment, whatever calls were made and however the tasks were
    scheduled, the file [transaction_data.json] exists as soon as a
    transaction has been created and holds a record under the id of every
    transaction the coordinator has created, active or not. *)
Theorem snapshot_holds_every_transaction :
  forall es,
    feasible es initial_system ->
    Forall (on_file (coordinator (perform_all es initial_system)))
      (heap (coordinator (perform_all es initial_system))).
Proof.
  intros es F; apply Forall_forall.
  apply perform_all_on_file; auto.
  - apply initial_consistent.
  - apply initial_batch_sound.
  - intros tx [].
Qed.

Lemma snapshot_holds_every_transaction_busy :
  Forall (on_file (coordinator (perform_all busy_events initial_system)))
    (heap (coordinator (perform_all busy_events initial_system))).
Proof.
  apply (snapshot_holds_every_transaction busy_events).
  apply feasible_check_sound; vm_compute; reflexivity.
Defined.

(** * The claims that needed the whole coordinator *)

(** ** A handler that raises *)







(** ** The status of a transaction and the statuses of its steps *)

Lemma reachable_status_backed :
  forall es, feasible es initial_system ->
    forall tx, In tx (heap (coordinator (perform_all es initial_system))) ->
      status_backed tx.
Proof.
  apply (reachable_object_invariant status_backed).
  - intros; unfold status_backed; cbn; repeat split; try discriminate.
    intros _ s Hs; apply (new_purchase_pending tid now b sl nft price md s Hs).
  - intros; unfold status_backed; cbn; repeat split; try discriminate.
    intros _ s Hs; apply (new_listing_pending tid now sl nft price md s Hs).
  - intros tx tx' C P.
    destruct C as [now tx A | now reason tx A | run now tx S | now tx tx' L].
    + unfold status_backed; cbn; repeat split; discriminate.
    + unfold status_backed; cbn; repeat split; discriminate.
    + unfold status_backed; cbn [after_batch set_updated_at tx_status
                                   execute_transaction_steps set_steps].
      destruct S as [S | S]; rewrite S; repeat split; discriminate.
    + apply loop_head_terminal_cases in L.
      destruct L as [E [[-> SF] | [-> AC]]]; unfold status_backed; cbn;
        repeat split; try discriminate; auto.
Qed.

(** C1, as amended.  In every state the coordinator can reach, whatever
    the interleaving of calls and tasks, a [COMPLETED] status means that
    every step is completed and a [FAILED] status that some step has
    failed; and for a transaction whose status is [COMPLETED] or
    [FAILED], the status is [COMPLETED] exactly when every step is
    completed and [FAILED] exactly when some step has failed.  Of the
    loop of [process_transaction] run without a cancellation in between,
    the same holds at every pass, and the two equivalences hold as soon
    as the status is no longer [EXECUTING]. *)
Theorem status_agrees_with_steps :
  (forall es,
      feasible es initial_system ->
      Forall (fun tx =>
                (tx_status tx = COMPLETED -> all_completed tx) /\
                (tx_status tx = FAILED -> some_failed tx) /\
                (tx_status tx = COMPLETED \/ tx_status tx = FAILED ->
                 (tx_status tx = COMPLETED <-> all_completed tx) /\
                 (tx_status tx = FAILED <-> some_failed tx)))
        (heap (coordinator (perform_all es initial_system)))) /\
  (forall run clock now n tx,
      (tx_status (run_loop run clock 0 n (begin_processing now tx)) = COMPLETED ->
       all_completed (run_loop run clock 0 n (begin_processing now tx))) /\
      (tx_status (run_loop run clock 0 n (begin_processing now tx)) = FAILED ->
       some_failed (run_loop run clock 0 n (begin_processing now tx))) /\
      (tx_status (run_loop run clock 0 n (begin_processing now tx)) <> EXECUTING ->
       (tx_status (run_loop run clock 0 n (begin_processing now tx)) = COMPLETED <->
        all_completed (run_loop run clock 0 n (begin_processing now tx))) /\
       (tx_status (run_loop run clock 0 n (begin_processing now tx)) = FAILED <->
        some_failed (run_loop run clock 0 n (begin_processing now tx))))).
Proof.
  split.
  - intros es F; apply Forall_forall; intros tx H.
    destruct (reachable_status_backed es F tx H) as [_ [_ [SC SF]]].
    split; [ exact SC | split; [ exact SF |] ].
    intros T; split; split; auto.
    + intros A; destruct T as [T | T]; auto.
      exfalso; apply (completed_excludes_failed _ A (SF T)).
    + intros X; destruct T as [T | T]; auto.
      exfalso; apply (completed_excludes_failed _ (SC T) X).
  - intros run clock now n tx.
    pose proof (run_loop_sound run clock n 0 _ (begin_processing_sound now tx)) as S.
    destruct S as [SC [SF ST]].
    split; [ exact SC | split; [ exact SF |] ].
    intros NE; split; split; auto.
    + intros A; destruct ST as [T | [T | T]]; auto; [ contradiction |].
      exfalso; apply (completed_excludes_failed _ A (SF T)).
    + intros F; destruct ST as [T | [T | T]]; auto; [ contradiction |].
      exfalso; apply (completed_excludes_failed _ (SC T) F).
Qed.

(** The invariant on a system with a completed purchase, a refused
    cancellation and a second purchase under way. *)
Lemma status_agrees_with_steps_busy :
  Forall (fun tx =>
            (tx_status tx = COMPLETED -> all_completed tx) /\
            (tx_status tx = FAILED -> some_failed tx) /\
            (tx_status tx = COMPLETED \/ tx_status tx = FAILED ->
             (tx_status tx = COMPLETED <-> all_completed tx) /\
             (tx_status tx = FAILED <-> some_failed tx)))
    (heap (coordinator (perform_all busy_events initial_system))).
Proof.
  apply (proj1 status_agrees_with_steps busy_events).
  apply feasible_check_sound; vm_compute; reflexivity.
Defined.

(** C1 as stated fails in two ways.  While the loop is running the
    status lags behind the steps: after the pass that completes the last
    step of a purchase every step is completed and the status is still
    [EXECUTING], and after the pass in which the escrow step fails a step
    has failed and the status is still [EXECUTING].  And a purchase that
    is cancelled while its last batch is in flight has every step
    completed when its task has ended, and is [CANCELLED] for ever; one
    cancelled while a failing batch is in flight ends [CANCELLED] with a
    failed step. *)
Lemma status_disagrees_with_steps :
  ((all_completed (run_loop always_ok sample_clock 0 4
                     (begin_processing "t1" sample_purchase)) /\
    tx_status (run_loop always_ok sample_clock 0 4
                 (begin_processing "t1" sample_purchase)) <> COMPLETED) /\
   (some_failed (run_loop escrow_fails sample_clock 0 2
                   (begin_processing "t1" sample_purchase)) /\
    tx_status (run_loop escrow_fails sample_clock 0 2
                 (begin_processing "t1" sample_purchase)) <> FAILED)) /\
  (feasible last_batch_cancelled initial_system /\
   tasks (perform_all last_batch_cancelled initial_system) = [Done] /\
   exists tx,
     deref (coordinator (perform_all last_batch_cancelled initial_system)) 0 = Some tx /\
     all_completed tx /\
     tx_status tx = CANCELLED) /\
  (feasible failing_batch_cancelled initial_system /\
   tasks (perform_all failing_batch_cancelled initial_system) = [Done] /\
   exists tx,
     deref (coordinator (perform_all failing_batch_cancelled initial_system)) 0 =
       Some tx /\
     some_failed tx /\
     tx_status tx = CANCELLED).
Proof.
  split; [ split; split | split; split; [| split | | split ] ].
  - apply all_completed_forallb; vm_compute; reflexivity.
  - vm_compute; discriminate.
  - apply some_failed_existsb; vm_compute; reflexivity.
  - vm_compute; discriminate.
  - apply feasible_check_sound; vm_compute; reflexivity.
  - vm_compute; reflexivity.
  - eexists; split; [ vm_compute; reflexivity |]; split.
    + apply all_completed_forallb; vm_compute; reflexivity.
    + reflexivity.
  - apply feasible_check_sound; vm_compute; reflexivity.
  - vm_compute; reflexivity.
  - eexists; split; [ vm_compute; reflexivity |]; split.
    + apply some_failed_existsb; vm_compute; reflexivity.
    + reflexivity.
Qed.

(** ** Saving and starting again *)





